(** * Comedy Bang Bang Universe Explorer: data engine and interaction state

    A shallow embedding of the non-presentational logic of [index.js] (and of
    its later variant with colour scaling): the live-episode classifier, the
    [loadData] pipeline (normalisation, cross-reference indices, statistics),
    the entity query, the cell sizing effect and the hover / selection
    transitions, followed by the properties proved about them. *)

From Stdlib Require Import ZArith QArith Qabs Lia Bool Ascii String List.
From Stdlib Require Import Sorting.Sorted Sorting.Permutation.
From stdpp Require Import base option list sorting strings gmap.

Local Open Scope Z_scope.

(* ====================================================================== *)
(** * JavaScript strings and the two regular expressions                  *)
(* ====================================================================== *)

(** A string is its sequence of code units; only the ASCII range matters to
    the two patterns below (every other code unit is a non-word character
    and matches neither a digit nor a letter of "live"). *)

Module Js.

Definition chars (s : string) : list ascii := list_ascii_of_string s.

(** Truthiness of a value that is a string, [undefined] or [null]. *)
Definition truthy (o : option string) : bool :=
  match o with
  | Some s => negb (String.eqb s "")
  | None => false
  end.

(** [a || b] on such values. *)
Definition or (a b : option string) : option string :=
  if truthy a then a else b.

Definition code (c : ascii) : nat := nat_of_ascii c.

(** [[0-9]] *)
Definition is_digit (c : ascii) : bool :=
  ((48 <=? code c) && (code c <=? 57))%nat.

(** [\w], that is [[A-Za-z0-9_]] *)
Definition is_word (c : ascii) : bool :=
  (is_digit c
   || ((65 <=? code c) && (code c <=? 90))
   || ((97 <=? code c) && (code c <=? 122))
   || (code c =? 95))%nat.

(** Case-insensitive comparison with a lower-case ASCII letter: without the
    [u] flag a code unit outside ASCII never canonicalises to an ASCII one. *)
Definition eq_nocase (lower c : ascii) : bool :=
  ((code c =? code lower) || (code c + 32 =? code lower))%nat.

(** ** [/^[0-9]+(\.[0-9]+)?$/] *)

Fixpoint skip_digits (l : list ascii) : list ascii :=
  match l with
  | c :: l' => if is_digit c then skip_digits l' else l
  | [] => []
  end.

(** [[0-9]+] at the start of [l]: what is left after the longest run. *)
Definition digits1 (l : list ascii) : option (list ascii) :=
  match l with
  | c :: l' => if is_digit c then Some (skip_digits l') else None
  | [] => None
  end.

Definition dot : ascii := "."%char.

Definition test_numeric_chars (l : list ascii) : bool :=
  match digits1 l with
  | None => false
  | Some [] => true
  | Some (c :: r) =>
      if Ascii.eqb c dot then
        match digits1 r with
        | Some [] => true
        | _ => false
        end
      else false
  end.

Definition test_numeric (s : string) : bool := test_numeric_chars (chars s).

(** ** [/\blive\b/i] *)

(** The four letters at the start of [l], followed by a word boundary. *)
Definition live_here (l : list ascii) : bool :=
  match l with
  | c1 :: c2 :: c3 :: c4 :: rest =>
      eq_nocase "l" c1 && eq_nocase "i" c2 && eq_nocase "v" c3
      && eq_nocase "e" c4
      && match rest with
         | [] => true
         | c :: _ => negb (is_word c)
         end
  | _ => false
  end.

(** Scan every start position; [prev] tells whether the code unit before
    the position is a word character (false at the start of the input). *)
Fixpoint live_scan (prev : bool) (l : list ascii) : bool :=
  (negb prev && live_here l)
  || match l with
     | [] => false
     | c :: l' => live_scan (is_word c) l'
     end.

Definition test_live (s : string) : bool := live_scan false (chars s).

(** ** [s.includes(q)] *)

Fixpoint includes (s q : string) : bool :=
  String.prefix q s
  || match s with
     | EmptyString => false
     | String _ s' => includes s' q
     end.

(** ** What the patterns mean, as propositions *)

Definition all_digits (l : list ascii) : Prop :=
  Forall (fun c => is_digit c = true) l.

(** A pure integer or decimal: digits, optionally a dot and digits. *)
Definition numeric_pattern (l : list ascii) : Prop :=
  exists a, a <> [] /\ all_digits a /\
    (l = a \/ exists b, b <> [] /\ all_digits b /\ l = a ++ dot :: b).

Definition nocase_live (w : list ascii) : Prop :=
  exists c1 c2 c3 c4, w = [c1; c2; c3; c4] /\
    eq_nocase "l" c1 = true /\ eq_nocase "i" c2 = true /\
    eq_nocase "v" c3 = true /\ eq_nocase "e" c4 = true.

Definition boundary_before (pre : list ascii) : Prop :=
  pre = [] \/ exists p c, pre = p ++ [c] /\ is_word c = false.

Definition boundary_after (post : list ascii) : Prop :=
  post = [] \/ exists c p, post = c :: p /\ is_word c = false.

(** The boundary in front of a match that starts after [pre], given whether
    the code unit before the scanned part is a word character. *)
Definition boundary_from (prev : bool) (pre : list ascii) : Prop :=
  match last pre with
  | Some c => is_word c = false
  | None => prev = false
  end.

(** The standalone word "live", in any letter case. *)
Definition standalone_live (l : list ascii) : Prop :=
  exists pre w post, l = pre ++ w ++ post /\
    nocase_live w /\ boundary_before pre /\ boundary_after post.

End Js.

(* ====================================================================== *)
(** * The live-episode classifier                                         *)
(* ====================================================================== *)

(** The object [isLiveEpisode] is given: it reads [number] or [n], and
    [title] or [t], whichever is there. *)
Record liveFields := {
  lf_number : option string;
  lf_n : option string;
  lf_title : option string;
  lf_t : option string
}.

Definition hasNonNumericNumber (num : option string) : bool :=
  match num with
  | Some s => Js.truthy num && negb (Js.test_numeric s)
  | None => false
  end.

Definition hasLiveInTitle (title : string) : bool := Js.test_live title.

Definition isLiveEpisode (episode : liveFields) : bool :=
  let num := Js.or (lf_number episode) (lf_n episode) in
  let title := default ""%string
                 (Js.or (Js.or (lf_title episode) (lf_t episode)) (Some ""%string)) in
  hasNonNumericNumber num || hasLiveInTitle title.

(** The number and the title the classifier reads. *)
Definition numberRead (episode : liveFields) : option string :=
  Js.or (lf_number episode) (lf_n episode).

Definition titleRead (episode : liveFields) : string :=
  default ""%string
    (Js.or (Js.or (lf_title episode) (lf_t episode)) (Some ""%string)).

(* ====================================================================== *)
(** * JavaScript numbers                                                  *)
(* ====================================================================== *)

(** Finite values are kept as exact rationals; the non-finite values that
    the program can produce ([x / 0], [0 / 0]) are explicit.  Zero is
    unsigned: the program never forms a negative zero. *)

Module Num.

Inductive number : Type :=
| Fin (q : Q)
| PosInfinity
| NegInfinity
| NaN.

Definition of_nat (n : nat) : number := Fin (inject_Z (Z.of_nat n)).

Definition Qlt_bool (a b : Q) : bool := negb (Qle_bool b a).

Definition is_zero (a : number) : bool :=
  match a with
  | Fin q => Qeq_bool q 0
  | _ => false
  end.

(** [a / b] *)
Definition div (a b : number) : number :=
  match a, b with
  | NaN, _ | _, NaN => NaN
  | Fin x, Fin y =>
      if Qeq_bool y 0 then
        if Qeq_bool x 0 then NaN
        else if Qlt_bool 0 x then PosInfinity else NegInfinity
      else Fin (x / y)
  | Fin _, _ => Fin 0
  | PosInfinity, Fin y => if Qlt_bool y 0 then NegInfinity else PosInfinity
  | NegInfinity, Fin y => if Qlt_bool y 0 then PosInfinity else NegInfinity
  | _, _ => NaN
  end.

(** [a * b] *)
Definition mul (a b : number) : number :=
  match a, b with
  | NaN, _ | _, NaN => NaN
  | Fin x, Fin y => Fin (x * y)
  | Fin x, PosInfinity | PosInfinity, Fin x =>
      if Qeq_bool x 0 then NaN
      else if Qlt_bool 0 x then PosInfinity else NegInfinity
  | Fin x, NegInfinity | NegInfinity, Fin x =>
      if Qeq_bool x 0 then NaN
      else if Qlt_bool 0 x then NegInfinity else PosInfinity
  | PosInfinity, PosInfinity | NegInfinity, NegInfinity => PosInfinity
  | _, _ => NegInfinity
  end.

(** [a - b] *)
Definition sub (a b : number) : number :=
  match a, b with
  | NaN, _ | _, NaN => NaN
  | Fin x, Fin y => Fin (x - y)
  | Fin _, PosInfinity => NegInfinity
  | Fin _, NegInfinity => PosInfinity
  | PosInfinity, PosInfinity | NegInfinity, NegInfinity => NaN
  | PosInfinity, _ => PosInfinity
  | NegInfinity, _ => NegInfinity
  end.

(** [Math.max(a, b)] *)
Definition max (a b : number) : number :=
  match a, b with
  | NaN, _ | _, NaN => NaN
  | PosInfinity, _ | _, PosInfinity => PosInfinity
  | NegInfinity, x | x, NegInfinity => x
  | Fin x, Fin y => if Qle_bool x y then Fin y else Fin x
  end.

(** A finite number that is not negative. *)
Definition nonneg (a : number) : Prop := exists q, a = Fin q /\ (0 <= q)%Q.

End Num.

(* ====================================================================== *)
(** * Arrays, sets and maps of the host                                   *)
(* ====================================================================== *)

Module JsArray.

Section Sort.
Context {A : Type} (cmp : A -> A -> Z).

(** [Array.prototype.sort(cmp)] is stable: with a consistent comparator its
    result is the one of any stable sort; it is written here as insertion
    from the right, where an element stays in front of the elements it does
    not compare greater than. *)
Fixpoint insert_sorted (x : A) (l : list A) : list A :=
  match l with
  | [] => [x]
  | y :: l' => if cmp x y <=? 0 then x :: l else y :: insert_sorted x l'
  end.

(** [a] may stand in front of [b]. *)
Definition before (a b : A) : Prop := cmp a b <= 0.

Fixpoint sort (l : list A) : list A :=
  match l with
  | [] => []
  | x :: l' => insert_sorted x (sort l')
  end.

End Sort.

(** What the language asks of [sort] for a comparator [key a - key b]: the
    same elements, in ascending key order, equal keys in their old order. *)
Definition stableSortOf {A : Type} (key : A -> Z) (l l' : list A) : Prop :=
  Permutation l' l
  /\ StronglySorted (fun a b => key a <= key b) l'
  /\ forall k, List.filter (fun a => key a =? k) l'
               = List.filter (fun a => key a =? k) l.

(** [arr.forEach((a, i) => ...)], threading the state the callback
    mutates. *)
Fixpoint forEachFrom {A St : Type} (f : St -> A -> nat -> St)
    (i : nat) (l : list A) (s : St) : St :=
  match l with
  | [] => s
  | a :: l' => forEachFrom f (S i) l' (f s a i)
  end.

Definition forEach {A St : Type} (f : St -> A -> nat -> St)
    (l : list A) (s : St) : St :=
  forEachFrom f 0 l s.

End JsArray.

(** A [Set] of strings, in insertion order. *)
Module JsSet.

Definition t := list string.

Definition empty : t := [].

Definition has (s : t) (x : string) : bool := bool_decide (x ∈ s).

Definition add (s : t) (x : string) : t := if has s x then s else s ++ [x].

End JsSet.

(** A [Map]: the stored values, and the keys in insertion order. *)
Module JsMap.

Section Map.
Context {K : Type} `{Countable K} {V : Type}.

Record t : Type := mk { store : gmap K V; order : list K }.

Definition empty : t := mk ∅ [].

Definition has (m : t) (k : K) : bool := bool_decide (is_Some (store m !! k)).

Definition get (m : t) (k : K) : option V := store m !! k.

Definition set (m : t) (k : K) (v : V) : t :=
  mk (<[k := v]> (store m)) (if has m k then order m else order m ++ [k]).

(** A mutation of the object held under [k] (after a [get]). *)
Definition modify (m : t) (k : K) (f : V -> V) : t :=
  mk (alter f k (store m)) (order m).

(** [Array.from(m.values())] *)
Definition values (m : t) : list V := omap (fun k => store m !! k) (order m).

(** [m.forEach((v, k) => ...)] where the callback mutates [v] only. *)
Definition forEachValue (f : V -> K -> V) (m : t) : t :=
  mk (map_imap (fun k v => Some (f v k)) (store m)) (order m).

End Map.

Arguments t K {_ _} V.

End JsMap.

(* ====================================================================== *)
(** * The host functions [loadData] and the query rely on                 *)
(* ====================================================================== *)

(** Dates are their time values (milliseconds); [Date_parse s] is the time
    value of [new Date(s)], [None] when it is [NaN] (an invalid date). *)
Class Host : Type := {
  Date_parse : string -> option Z;
  Date_getFullYear : Z -> Z;
  (** the time value of [new Date(year, 0, 1)] *)
  Date_newYear : Z -> Z;
  String_toLowerCase : string -> string;
  String_localeCompare : string -> string -> Z
}.

(* ====================================================================== *)
(** * Data model                                                          *)
(* ====================================================================== *)

(** The raw corpus of [cbb_data.js], with its abbreviated keys. *)
Module Raw.

Record episode : Type := {
  t : option string;
  n : option string;
  d : string;
  g : option (list string);
  c : option (list string);
  i : option string
}.

Record data : Type := {
  episodes : list episode;
  guestImages : option (gmap string string);
  characterImages : option (gmap string string)
}.

End Raw.

(** An episode as the first [map] of [loadData] builds it (the date has
    parsed). *)
Module Mapped.

Record t : Type := {
  title : option string;
  number : option string;
  date : Z;
  guests : list string;
  characters : list string;
  imageUrl : option string
}.

End Mapped.

(** An episode with the computed properties the first [forEach] adds. *)
Module Ep.

Record t : Type := {
  base : Mapped.t;
  idx : nat;
  year : Z;
  week : Z;
  num_characters : nat;
  num_guests : nat;
  characters_per_guest : Num.number
}.

Definition date (ep : t) : Z := Mapped.date (base ep).
Definition guests (ep : t) : list string := Mapped.guests (base ep).
Definition characters (ep : t) : list string := Mapped.characters (base ep).

(** What [isLiveEpisode] sees of it: an [Ep.t] has no [n] and no [t]. *)
Definition liveFieldsOf (ep : t) : liveFields :=
  {| lf_number := Mapped.number (base ep); lf_n := None;
     lf_title := Mapped.title (base ep); lf_t := None |}.

End Ep.

(** A guest or character entry of the lookup maps; [guests] is there for
    characters only. *)
Module Ent.

Record t : Type := {
  name : string;
  episodes : list nat;
  firstIdx : nat;
  lastIdx : nat;
  guests : option JsSet.t;
  imageUrl : option string
}.

Definition push_episode (idx : nat) (e : t) : t :=
  {| name := name e; episodes := episodes e ++ [idx]; firstIdx := firstIdx e;
     lastIdx := lastIdx e; guests := guests e; imageUrl := imageUrl e |}.

Definition set_lastIdx (idx : nat) (e : t) : t :=
  {| name := name e; episodes := episodes e; firstIdx := firstIdx e;
     lastIdx := idx; guests := guests e; imageUrl := imageUrl e |}.

Definition add_guest (e : t) (g : string) : t :=
  {| name := name e; episodes := episodes e; firstIdx := firstIdx e;
     lastIdx := lastIdx e; guests := (fun s => JsSet.add s g) <$> guests e;
     imageUrl := imageUrl e |}.

Definition set_imageUrl (url : option string) (e : t) : t :=
  {| name := name e; episodes := episodes e; firstIdx := firstIdx e;
     lastIdx := lastIdx e; guests := guests e; imageUrl := url |}.

End Ent.

Module Stats.

Record t : Type := {
  maxEpisodesWithLive : nat;
  maxEpisodesWithoutLive : nat;
  maxGuests : nat;
  maxCharacters : nat;
  maxCharactersPerGuest : Num.number
}.

End Stats.

(** What [loadData] returns.  [years], [guestCharacters] and the two image
    tables, which it passes on for the rendering, are left out. *)
Module Data.

Record t : Type := {
  episodes : list Ep.t;
  guestMap : JsMap.t string Ent.t;
  characterMap : JsMap.t string Ent.t;
  episodesByYear : JsMap.t Z (list Ep.t);
  stats : Stats.t
}.

End Data.

(* ====================================================================== *)
(** * [loadData]                                                          *)
(* ====================================================================== *)

Section LoadData.
Context `{Host}.

Definition parseDate (s : string) : option Z := Date_parse s.

Definition getWeekOfYear (date : Z) : Z :=
  let start := Date_newYear (Date_getFullYear date) in
  let diff := date - start in
  (diff / 604800000)%Z.

(** One step of [.map(e => ...).filter(e => e.date)]: the mapped object, or
    nothing when the date is invalid. *)
Definition mapEpisode (e : Raw.episode) : option Mapped.t :=
  match parseDate (Raw.d e) with
  | Some date =>
      Some {| Mapped.title := Raw.t e;
              Mapped.number := Raw.n e;
              Mapped.date := date;
              Mapped.guests := default [] (Raw.g e);
              Mapped.characters := default [] (Raw.c e);
              Mapped.imageUrl := Js.or (Raw.i e) None |}
  | None => None
  end.

(** [.sort((a, b) => a.date - b.date)] *)
Definition byDate (a b : Mapped.t) : Z := Mapped.date a - Mapped.date b.

Definition sortedEpisodes (raw : Raw.data) : list Mapped.t :=
  JsArray.sort byDate (omap mapEpisode (Raw.episodes raw)).

(** The computed properties. *)
Definition addComputed (ep : Mapped.t) (idx : nat) : Ep.t :=
  {| Ep.base := ep;
     Ep.idx := idx;
     Ep.year := Date_getFullYear (Mapped.date ep);
     Ep.week := getWeekOfYear (Mapped.date ep);
     Ep.num_characters := length (Mapped.characters ep);
     Ep.num_guests := length (Mapped.guests ep);
     Ep.characters_per_guest :=
       Num.div (Num.of_nat (length (Mapped.characters ep)))
               (Num.of_nat (length (Mapped.guests ep))) |}.

Definition computedEpisodes (raw : Raw.data) : list Ep.t :=
  imap (fun idx ep => addComputed ep idx) (sortedEpisodes raw).

(** The raw records that survive the filter, and the episodes of one
    date. *)
Definition dateParses (e : Raw.episode) : bool :=
  bool_decide (is_Some (parseDate (Raw.d e))).

Definition hasDate (date : Z) (m : Mapped.t) : bool := Mapped.date m =? date.

(** ** The lookup maps *)

Definition newGuest (g : string) (idx : nat) : Ent.t :=
  {| Ent.name := g; Ent.episodes := []; Ent.firstIdx := idx;
     Ent.lastIdx := idx; Ent.guests := None; Ent.imageUrl := None |}.

Definition newCharacter (c : string) (idx : nat) : Ent.t :=
  {| Ent.name := c; Ent.episodes := []; Ent.firstIdx := idx;
     Ent.lastIdx := idx; Ent.guests := Some JsSet.empty; Ent.imageUrl := None |}.

Definition seeGuest (idx : nat) (guestMap : JsMap.t string Ent.t) (g : string)
    : JsMap.t string Ent.t :=
  let guestMap :=
    if negb (JsMap.has guestMap g)
    then JsMap.set guestMap g (newGuest g idx)
    else guestMap in
  JsMap.modify guestMap g
    (fun gData => Ent.set_lastIdx idx (Ent.push_episode idx gData)).

Definition seeCharacter (idx : nat) (epGuests : list string)
    (characterMap : JsMap.t string Ent.t) (c : string) : JsMap.t string Ent.t :=
  let characterMap :=
    if negb (JsMap.has characterMap c)
    then JsMap.set characterMap c (newCharacter c idx)
    else characterMap in
  JsMap.modify characterMap c
    (fun cData =>
       foldl Ent.add_guest (Ent.set_lastIdx idx (Ent.push_episode idx cData))
             epGuests).

Definition indexEpisode
    (maps : JsMap.t string Ent.t * JsMap.t string Ent.t) (ep : Ep.t) (idx : nat)
    : JsMap.t string Ent.t * JsMap.t string Ent.t :=
  (foldl (seeGuest idx) (fst maps) (Ep.guests ep),
   foldl (seeCharacter idx (Ep.guests ep)) (snd maps) (Ep.characters ep)).

Definition buildMaps (episodes : list Ep.t)
    : JsMap.t string Ent.t * JsMap.t string Ent.t :=
  JsArray.forEach indexEpisode episodes (JsMap.empty, JsMap.empty).

(** ** What the lookup maps are expected to satisfy *)

Definition strictly_ascending (l : list nat) : Prop := StronglySorted lt l.

Definition is_minimum (m : nat) (l : list nat) : Prop :=
  m ∈ l /\ Forall (fun x => (m <= x)%nat) l.

Definition is_maximum (m : nat) (l : list nat) : Prop :=
  m ∈ l /\ Forall (fun x => (x <= m)%nat) l.

(** What one sighting in episode [idx] does to an entry, whichever map it
    is in. *)
Definition sighting (idx : nat) (upd : Ent.t -> Ent.t) : Prop :=
  forall r, Ent.episodes (upd r) = Ent.episodes r ++ [idx]
            /\ Ent.firstIdx (upd r) = Ent.firstIdx r
            /\ Ent.lastIdx (upd r) = idx.

(** No name twice in the guest list or in the character list. *)
Definition noRepeats (ep : Ep.t) : Prop :=
  NoDup (Ep.guests ep) /\ NoDup (Ep.characters ep).

(** An entry all of whose episodes come before [bound]. *)
Definition indexedBelow (bound : nat) (r : Ent.t) : Prop :=
  strictly_ascending (Ent.episodes r)
  /\ head (Ent.episodes r) = Some (Ent.firstIdx r)
  /\ last (Ent.episodes r) = Some (Ent.lastIdx r)
  /\ Forall (fun j => (j < bound)%nat) (Ent.episodes r).

Definition allBelow (bound : nat) (m : JsMap.t string Ent.t) : Prop :=
  forall k r, JsMap.get m k = Some r -> indexedBelow bound r.

(** Inside episode [idx], after the names [seen]. *)
Definition allBelowSeen (idx : nat) (seen : list string)
    (m : JsMap.t string Ent.t) : Prop :=
  forall k r, JsMap.get m k = Some r ->
    (k ∈ seen -> indexedBelow (S idx) r) /\ (k ∉ seen -> indexedBelow idx r).

(** The guests of the episodes a character is in. *)
Definition playedIn (episodes : list Ep.t) (r : Ent.t) (g : string) : Prop :=
  exists j ep, j ∈ Ent.episodes r /\ episodes !! j = Some ep /\ g ∈ Ep.guests ep.

Definition playedByUnion (episodes : list Ep.t) (r : Ent.t) : Prop :=
  exists gs, Ent.guests r = Some gs /\ NoDup gs
             /\ forall g, g ∈ gs <-> playedIn episodes r g.

Definition allPlayed (episodes : list Ep.t) (m : JsMap.t string Ent.t) : Prop :=
  forall k r, JsMap.get m k = Some r -> playedByUnion episodes r.

(** ** Episodes by year *)

Definition addToYear (byYear : JsMap.t Z (list Ep.t)) (ep : Ep.t) (_ : nat)
    : JsMap.t Z (list Ep.t) :=
  let byYear :=
    if negb (JsMap.has byYear (Ep.year ep))
    then JsMap.set byYear (Ep.year ep) []
    else byYear in
  JsMap.modify byYear (Ep.year ep) (fun eps => eps ++ [ep]).

Definition groupByYear (episodes : list Ep.t) : JsMap.t Z (list Ep.t) :=
  JsArray.forEach addToYear episodes JsMap.empty.

(** ** Images *)

(** [images[name] || null] with [images = raw.xImages || {}] *)
Definition imageOf (images : option (gmap string string)) (name : string)
    : option string :=
  Js.or (default ∅ images !! name) None.

Definition attachImages (images : option (gmap string string))
    (m : JsMap.t string Ent.t) : JsMap.t string Ent.t :=
  JsMap.forEachValue (fun e name => Ent.set_imageUrl (imageOf images name) e) m.

(** ** Statistics *)

Definition initialStats : Stats.t :=
  {| Stats.maxEpisodesWithLive := 0; Stats.maxEpisodesWithoutLive := 0;
     Stats.maxGuests := 0; Stats.maxCharacters := 0;
     Stats.maxCharactersPerGuest := Num.of_nat 0 |}.

Definition yearStats (stats : Stats.t) (yearEps : list Ep.t) : Stats.t :=
  let withoutLive :=
    length (List.filter (fun ep => negb (isLiveEpisode (Ep.liveFieldsOf ep))) yearEps) in
  {| Stats.maxEpisodesWithLive :=
       Nat.max (Stats.maxEpisodesWithLive stats) (length yearEps);
     Stats.maxEpisodesWithoutLive :=
       Nat.max (Stats.maxEpisodesWithoutLive stats) withoutLive;
     Stats.maxGuests := Stats.maxGuests stats;
     Stats.maxCharacters := Stats.maxCharacters stats;
     Stats.maxCharactersPerGuest := Stats.maxCharactersPerGuest stats |}.

Definition episodeStats (stats : Stats.t) (ep : Ep.t) : Stats.t :=
  {| Stats.maxEpisodesWithLive := Stats.maxEpisodesWithLive stats;
     Stats.maxEpisodesWithoutLive := Stats.maxEpisodesWithoutLive stats;
     Stats.maxGuests := Nat.max (Stats.maxGuests stats) (Ep.num_guests ep);
     Stats.maxCharacters :=
       Nat.max (Stats.maxCharacters stats) (Ep.num_characters ep);
     Stats.maxCharactersPerGuest :=
       if (0 <? Ep.num_guests ep)%nat
       then Num.max (Stats.maxCharactersPerGuest stats)
                    (Ep.characters_per_guest ep)
       else Stats.maxCharactersPerGuest stats |}.

(** [ep.num_guests > 0] *)
Definition hasGuests (ep : Ep.t) : bool := (0 <? Ep.num_guests ep)%nat.

Definition computeStats (byYear : JsMap.t Z (list Ep.t)) (episodes : list Ep.t)
    : Stats.t :=
  foldl episodeStats (foldl yearStats initialStats (JsMap.values byYear)) episodes.

(** ** The whole of it ([raw] is [None] when [CBB_DATA] is missing) *)

Definition loadData (raw : option Raw.data) : option Data.t :=
  match raw with
  | None => None
  | Some raw =>
      let episodes := computedEpisodes raw in
      let maps := buildMaps episodes in
      let episodesByYear := groupByYear episodes in
      Some {| Data.episodes := episodes;
              Data.guestMap := attachImages (Raw.guestImages raw) (fst maps);
              Data.characterMap := attachImages (Raw.characterImages raw) (snd maps);
              Data.episodesByYear := episodesByYear;
              Data.stats := computeStats episodesByYear episodes |}
  end.

End LoadData.

(* ====================================================================== *)
(** * Application state                                                   *)
(* ====================================================================== *)

Inductive entityType : Type := guest | character.

(** The four values [setSortBy] is ever given (the [default] branch of the
    [switch] in [sortedEntities] is never taken). *)
Module SortBy.
Inductive t : Type := appearances | first | last | name.
End SortBy.

Module ColorMode.
Inductive t : Type := guests | characters | chars_per_guest.
End ColorMode.

(** The [useState] cells of [App]. *)
Module App.

Record t : Type := {
  selectedEntity : option string;
  entityType_ : entityType;
  hoveredEpisode : option nat;
  pinnedEpisode : option nat;
  sortBy : SortBy.t;
  cellSize : Q;
  includeLiveEps : bool;
  colorMode : ColorMode.t;
  searchQuery : string;
  hoveredEntity : option (string * entityType)
}.

Definition initial : t :=
  {| selectedEntity := None; entityType_ := guest; hoveredEpisode := None;
     pinnedEpisode := None; sortBy := SortBy.appearances; cellSize := 11%Q;
     includeLiveEps := false; colorMode := ColorMode.guests;
     searchQuery := ""%string; hoveredEntity := None |}.

Definition setSelectedEntity (v : option string) (s : t) : t :=
  {| selectedEntity := v; entityType_ := entityType_ s;
     hoveredEpisode := hoveredEpisode s; pinnedEpisode := pinnedEpisode s;
     sortBy := sortBy s; cellSize := cellSize s;
     includeLiveEps := includeLiveEps s; colorMode := colorMode s;
     searchQuery := searchQuery s; hoveredEntity := hoveredEntity s |}.

Definition setEntityType (v : entityType) (s : t) : t :=
  {| selectedEntity := selectedEntity s; entityType_ := v;
     hoveredEpisode := hoveredEpisode s; pinnedEpisode := pinnedEpisode s;
     sortBy := sortBy s; cellSize := cellSize s;
     includeLiveEps := includeLiveEps s; colorMode := colorMode s;
     searchQuery := searchQuery s; hoveredEntity := hoveredEntity s |}.

Definition setHoveredEpisode (v : option nat) (s : t) : t :=
  {| selectedEntity := selectedEntity s; entityType_ := entityType_ s;
     hoveredEpisode := v; pinnedEpisode := pinnedEpisode s;
     sortBy := sortBy s; cellSize := cellSize s;
     includeLiveEps := includeLiveEps s; colorMode := colorMode s;
     searchQuery := searchQuery s; hoveredEntity := hoveredEntity s |}.

Definition setPinnedEpisode (v : option nat) (s : t) : t :=
  {| selectedEntity := selectedEntity s; entityType_ := entityType_ s;
     hoveredEpisode := hoveredEpisode s; pinnedEpisode := v;
     sortBy := sortBy s; cellSize := cellSize s;
     includeLiveEps := includeLiveEps s; colorMode := colorMode s;
     searchQuery := searchQuery s; hoveredEntity := hoveredEntity s |}.

Definition setCellSize (v : Q) (s : t) : t :=
  {| selectedEntity := selectedEntity s; entityType_ := entityType_ s;
     hoveredEpisode := hoveredEpisode s; pinnedEpisode := pinnedEpisode s;
     sortBy := sortBy s; cellSize := v;
     includeLiveEps := includeLiveEps s; colorMode := colorMode s;
     searchQuery := searchQuery s; hoveredEntity := hoveredEntity s |}.

Definition setSearchQuery (v : string) (s : t) : t :=
  {| selectedEntity := selectedEntity s; entityType_ := entityType_ s;
     hoveredEpisode := hoveredEpisode s; pinnedEpisode := pinnedEpisode s;
     sortBy := sortBy s; cellSize := cellSize s;
     includeLiveEps := includeLiveEps s; colorMode := colorMode s;
     searchQuery := v; hoveredEntity := hoveredEntity s |}.

Definition setHoveredEntity (v : option (string * entityType)) (s : t) : t :=
  {| selectedEntity := selectedEntity s; entityType_ := entityType_ s;
     hoveredEpisode := hoveredEpisode s; pinnedEpisode := pinnedEpisode s;
     sortBy := sortBy s; cellSize := cellSize s;
     includeLiveEps := includeLiveEps s; colorMode := colorMode s;
     searchQuery := searchQuery s; hoveredEntity := v |}.

End App.

(* ====================================================================== *)
(** * The entity query                                                    *)
(* ====================================================================== *)

Section Query.
Context `{Host}.

Definition byAppearances (a b : Ent.t) : Z :=
  Z.of_nat (length (Ent.episodes b)) - Z.of_nat (length (Ent.episodes a)).

Definition byFirst (a b : Ent.t) : Z :=
  Z.of_nat (Ent.firstIdx a) - Z.of_nat (Ent.firstIdx b).

Definition byLast (a b : Ent.t) : Z :=
  Z.of_nat (Ent.lastIdx b) - Z.of_nat (Ent.lastIdx a).

Definition byName (a b : Ent.t) : Z :=
  String_localeCompare (Ent.name a) (Ent.name b).

(** [e => e.name.toLowerCase().includes(q)] *)
Definition nameIncludes (q : string) (e : Ent.t) : bool :=
  Js.includes (String_toLowerCase (Ent.name e)) q.

(** The filter of the query as one predicate. *)
Definition matchesQuery (searchQuery : string) (e : Ent.t) : bool :=
  if Js.truthy (Some searchQuery)
  then nameIncludes (String_toLowerCase searchQuery) e
  else true.

Definition sortedEntities (guestMap characterMap : JsMap.t string Ent.t)
    (entityType : entityType) (sortBy : SortBy.t) (searchQuery : string)
    : list Ent.t :=
  let map := match entityType with guest => guestMap | character => characterMap end in
  let entities := JsMap.values map in
  let entities :=
    if Js.truthy (Some searchQuery)
    then let q := String_toLowerCase searchQuery in
         List.filter (nameIncludes q) entities
    else entities in
  match sortBy with
  | SortBy.appearances => JsArray.sort byAppearances entities
  | SortBy.first => JsArray.sort byFirst entities
  | SortBy.last => JsArray.sort byLast entities
  | SortBy.name => JsArray.sort byName entities
  end.

End Query.

(* ====================================================================== *)
(** * Colour scaling of the timeline cells                                *)
(* ====================================================================== *)

(** A cell colour: one of the constants, or [hsl(h, s%, l%)]. *)
Inductive color : Type :=
| ENTITY_HOVER_COLOR
| EPISODE_HIGHLIGHT_COLOR
| EPISODE_LIVE_COLOR
| hsl (h s : Z) (l : Num.number).

Definition getEpisodeBaseColor (guestCount maxGuests : Num.number) : color :=
  if Num.is_zero maxGuests then hsl 210 50 (Num.Fin 60)
  else
    let ratio := Num.div guestCount maxGuests in
    let lightness := Num.sub (Num.Fin 85) (Num.mul ratio (Num.Fin 40)) in
    hsl 210 50 lightness.

Definition includesName (l : list string) (x : string) : bool :=
  bool_decide (x ∈ l).

Definition episodeHasEntity (s : App.t) (ep : Ep.t) : bool :=
  match App.selectedEntity s with
  | Some sel =>
      if negb (Js.truthy (Some sel)) then false
      else match App.entityType_ s with
           | guest => includesName (Ep.guests ep) sel
           | character => includesName (Ep.characters ep) sel
           end
  | None => false
  end.

Definition hasHoveredEntity (s : App.t) (ep : Ep.t) : bool :=
  match App.hoveredEntity s with
  | Some (name, guest) => includesName (Ep.guests ep) name
  | Some (name, character) => includesName (Ep.characters ep) name
  | None => false
  end.

(** The base colour scaled by the selected metric (the [switch]). *)
Definition scaledColor (mode : ColorMode.t) (stats : Stats.t) (ep : Ep.t) : color :=
  match mode with
  | ColorMode.characters =>
      getEpisodeBaseColor (Num.of_nat (Ep.num_characters ep))
                          (Num.of_nat (Stats.maxCharacters stats))
  | ColorMode.chars_per_guest =>
      getEpisodeBaseColor (Ep.characters_per_guest ep)
                          (Stats.maxCharactersPerGuest stats)
  | ColorMode.guests =>
      getEpisodeBaseColor (Num.of_nat (Ep.num_guests ep))
                          (Num.of_nat (Stats.maxGuests stats))
  end.

Definition bgColor (s : App.t) (stats : Stats.t) (ep : Ep.t) : color :=
  if hasHoveredEntity s ep then ENTITY_HOVER_COLOR
  else if episodeHasEntity s ep then EPISODE_HIGHLIGHT_COLOR
  else if isLiveEpisode (Ep.liveFieldsOf ep) then EPISODE_LIVE_COLOR
  else scaledColor (App.colorMode s) stats ep.

(* ====================================================================== *)
(** * Cell sizing                                                         *)
(* ====================================================================== *)

(** [updateCellSize] of the sizing effect.  [cellSize] is the value the
    effect's closure captured when it was set up; [s] is the state at the
    time of the call ([setCellSize] writes to it). *)
Definition updateCellSize (cellSize : Q) (containerWidth maxEpisodesInYear : Z)
    (s : App.t) : App.t :=
  if containerWidth =? 0 then s
  else
    let padding := 32 in
    let yearLabelWidth := 40 in
    let countLabelWidth := 30 in
    let gap := 1 in
    let availableWidth := containerWidth - padding - yearLabelWidth - countLabelWidth in
    let size :=
      (inject_Z (availableWidth - (maxEpisodesInYear - 1) * gap)
       / inject_Z maxEpisodesInYear)%Q in
    if Qle_bool 4 size && Num.Qlt_bool (1 # 10) (Qabs (size - cellSize))
    then App.setCellSize size s
    else s.

(** The effect body: nothing without a mounted container or with no
    episodes in any year; otherwise one immediate call.  [container] is the
    container's [clientWidth]. *)
Definition cellSizeEffect (container : option Z) (maxEpisodesInYear : Z)
    (s : App.t) : App.t :=
  match container with
  | None => s
  | Some containerWidth =>
      if maxEpisodesInYear =? 0 then s
      else updateCellSize (App.cellSize s) containerWidth maxEpisodesInYear s
  end.

(** The sizing formula in the words of the design:
    [(W - overhead - (n - 1) * gap) / n]. *)
Definition computeCellSize (containerWidthPx rowCardinality fixedOverheadPx
    interCellGapPx : Z) : Q :=
  (inject_Z (containerWidthPx - fixedOverheadPx
             - (rowCardinality - 1) * interCellGapPx)
   / inject_Z rowCardinality)%Q.

(* ====================================================================== *)
(** * Selection, pinning                                                  *)
(* ====================================================================== *)

(** A row of the entity list: [setSelectedEntity(isSelected ? null : name)]. *)
Definition clickEntityListItem (name : string) (s : App.t) : App.t :=
  let isSelected := bool_decide (App.selectedEntity s = Some name) in
  App.setSelectedEntity (if isSelected then None else Some name) s.

(** A guest or character chip of the episode summary, or a related entity
    of the detail panel: [setEntityType(type); setSelectedEntity(name)]. *)
Definition clickEntityChip (type : entityType) (name : string) (s : App.t) : App.t :=
  App.setSelectedEntity (Some name) (App.setEntityType type s).

(** The guest / character tab. *)
Definition clickEntityTab (type : entityType) (s : App.t) : App.t :=
  App.setSearchQuery ""%string
    (App.setSelectedEntity None (App.setEntityType type s)).

(** A timeline cell: pin, or unpin when it is the pinned one. *)
Definition clickTimelineCell (idx : nat) (s : App.t) : App.t :=
  App.setPinnedEpisode
    (if bool_decide (App.pinnedEpisode s = Some idx) then None else Some idx) s.

(* ====================================================================== *)
(** * The debounced hover, on a virtual clock                             *)
(* ====================================================================== *)

(** A pending [setTimeout(() => setHoveredEpisode(idx), delay)]. *)
Module Timer.
Record t : Type := { id : nat; due : Z; idx : nat }.
End Timer.

(** The application together with the host's timers.  [hoverLog] records
    every call of [setHoveredEpisode] with the time it happened at. *)
Module World.

Record t : Type := {
  app : App.t;
  hoverTimeoutRef : option nat;
  timers : list Timer.t;
  nextTimerId : nat;
  now : Z;
  hoverLog : list (Z * option nat)
}.

Definition initial : t :=
  {| app := App.initial; hoverTimeoutRef := None; timers := [];
     nextTimerId := 1; now := 0; hoverLog := [] |}.

Definition set_timers (v : list Timer.t) (w : t) : t :=
  {| app := app w; hoverTimeoutRef := hoverTimeoutRef w; timers := v;
     nextTimerId := nextTimerId w; now := now w; hoverLog := hoverLog w |}.

Definition set_now (v : Z) (w : t) : t :=
  {| app := app w; hoverTimeoutRef := hoverTimeoutRef w; timers := timers w;
     nextTimerId := nextTimerId w; now := v; hoverLog := hoverLog w |}.

Definition set_hoverTimeoutRef (v : option nat) (w : t) : t :=
  {| app := app w; hoverTimeoutRef := v; timers := timers w;
     nextTimerId := nextTimerId w; now := now w; hoverLog := hoverLog w |}.

Definition set_app (v : App.t) (w : t) : t :=
  {| app := v; hoverTimeoutRef := hoverTimeoutRef w; timers := timers w;
     nextTimerId := nextTimerId w; now := now w; hoverLog := hoverLog w |}.

End World.

(** [setTimeout]: a fresh positive id, due [delay] after now. *)
Definition setTimeout (idx : nat) (delay : Z) (w : World.t) : nat * World.t :=
  let id := World.nextTimerId w in
  (id,
   {| World.app := World.app w;
      World.hoverTimeoutRef := World.hoverTimeoutRef w;
      World.timers :=
        World.timers w ++ [{| Timer.id := id; Timer.due := World.now w + delay;
                              Timer.idx := idx |}];
      World.nextTimerId := S id;
      World.now := World.now w;
      World.hoverLog := World.hoverLog w |}).

(** [clearTimeout]: a no-op for an id that is not pending. *)
Definition clearTimeout (id : nat) (w : World.t) : World.t :=
  World.set_timers
    (List.filter (fun tm => negb (Timer.id tm =? id)%nat) (World.timers w)) w.

Definition setHoveredEpisode (v : option nat) (w : World.t) : World.t :=
  {| World.app := App.setHoveredEpisode v (World.app w);
     World.hoverTimeoutRef := World.hoverTimeoutRef w;
     World.timers := World.timers w;
     World.nextTimerId := World.nextTimerId w;
     World.now := World.now w;
     World.hoverLog := World.hoverLog w ++ [(World.now w, v)] |}.

(** [if (hoverTimeoutRef.current) clearTimeout(hoverTimeoutRef.current)] *)
Definition clearPendingHover (w : World.t) : World.t :=
  match World.hoverTimeoutRef w with
  | Some id => if (id =? 0)%nat then w else clearTimeout id w
  | None => w
  end.

Definition setHoveredEpisodeDebounced (idx : nat) (w : World.t) : World.t :=
  let w := clearPendingHover w in
  let '(id, w) := setTimeout idx 50 w in
  World.set_hoverTimeoutRef (Some id) w.

(** [onMouseLeave] of a row of cells. *)
Definition leaveTimelineRow (w : World.t) : World.t :=
  setHoveredEpisode None (clearPendingHover w).

(** A timer fires at its due time and runs its callback. *)
Definition fire (w : World.t) (tm : Timer.t) : World.t :=
  setHoveredEpisode (Some (Timer.idx tm)) (World.set_now (Timer.due tm) w).

Definition byDue (a b : Timer.t) : Z := Timer.due a - Timer.due b.

Definition isDue (t : Z) (tm : Timer.t) : bool := Timer.due tm <=? t.

(** Let the clock reach [t]: the timers due by then fire, earliest first. *)
Definition advanceTo (t : Z) (w : World.t) : World.t :=
  let ready := JsArray.sort byDue (List.filter (isDue t) (World.timers w)) in
  let rest := List.filter (fun tm => negb (isDue t tm)) (World.timers w) in
  World.set_now t (foldl fire (World.set_timers rest w) ready).

(** Silence: nothing happens any more but the pending timers. *)
Definition settle (w : World.t) : World.t :=
  foldl fire (World.set_timers [] w) (JsArray.sort byDue (World.timers w)).

Inductive event : Type :=
| MouseEnterCell (idx : nat)
| MouseLeaveRow
| ClickCell (idx : nat).

Definition handle (e : event) (w : World.t) : World.t :=
  match e with
  | MouseEnterCell idx => setHoveredEpisodeDebounced idx w
  | MouseLeaveRow => leaveTimelineRow w
  | ClickCell idx => World.set_app (clickTimelineCell idx (World.app w)) w
  end.

(** A schedule of events with their times. *)
Definition run (evs : list (Z * event)) (w : World.t) : World.t :=
  foldl (fun w te => handle (snd te) (advanceTo (fst te) w)) w evs.

(** A burst of hovers: each comes before the pending timer of the one
    before it would fire. *)
Fixpoint burst (evs : list (Z * nat)) : Prop :=
  match evs with
  | [] => True
  | (t1, _) :: rest =>
      match rest with
      | [] => True
      | (t2, _) :: _ => t1 <= t2 < t1 + 50
      end /\ burst rest
  end.

Definition hovers (evs : list (Z * nat)) : list (Z * event) :=
  map (fun te => (fst te, MouseEnterCell (snd te))) evs.

(** One hover is pending: the timer of the hover made at time [t] for cell
    [idx] is the only timer, the ref holds its id, and the log is [log]. *)
Definition pendingHover (t : Z) (idx : nat) (log : list (Z * option nat))
    (w : World.t) : Prop :=
  World.hoverLog w = log
  /\ exists id : nat,
       id <> 0%nat
       /\ World.hoverTimeoutRef w = Some id
       /\ World.timers w
          = [{| Timer.id := id; Timer.due := t + 50; Timer.idx := idx |}]
       /\ World.nextTimerId w = S id.

(* ====================================================================== *)
(** * A small host, to run the definitions on examples                    *)
(* ====================================================================== *)

Module Demo.

(** Dates written as a decimal time value. *)
Definition digitValue (c : ascii) : Z := Z.of_nat (Js.code c) - 48.

Definition parseDecimal (s : string) : option Z :=
  let l := Js.chars s in
  if bool_decide (l = []) then None
  else if forallb Js.is_digit l
  then Some (foldl (fun acc c => acc * 10 + digitValue c) 0 l)
  else None.

Definition msPerYear : Z := 31536000000.

Definition lowerChar (c : ascii) : ascii :=
  if ((65 <=? Js.code c) && (Js.code c <=? 90))%nat
  then ascii_of_nat (Js.code c + 32) else c.

Fixpoint lower (s : string) : string :=
  match s with
  | EmptyString => EmptyString
  | String c s' => String (lowerChar c) (lower s')
  end.

Definition compareZ (a b : string) : Z :=
  match String.compare a b with
  | Lt => -1
  | Eq => 0
  | Gt => 1
  end.

Definition host : Host :=
  {| Date_parse := parseDecimal;
     Date_getFullYear := fun date => 1970 + date / msPerYear;
     Date_newYear := fun year => (year - 1970) * msPerYear;
     String_toLowerCase := lower;
     String_localeCompare := compareZ |}.

Definition rawEpisode (title number date : string) (guests characters : list string)
    : Raw.episode :=
  {| Raw.t := Some title; Raw.n := Some number; Raw.d := date;
     Raw.g := Some guests; Raw.c := Some characters; Raw.i := None |}.

Definition rawData (eps : list Raw.episode) : Raw.data :=
  {| Raw.episodes := eps; Raw.guestImages := None; Raw.characterImages := None |}.

(** Three episodes: guest A in the first and the third, guest B in the
    second. *)
Definition corpusAB : Raw.data :=
  rawData [ rawEpisode "One" "1" "1000" ["A"] ["x"];
            rawEpisode "Two" "2" "2000" ["B"] [];
            rawEpisode "Three" "3" "3000" ["A"] ["x"; "y"] ]%string.

(** An unsorted corpus with an invalid date, a tie and an episode without
    guests. *)
Definition corpusMixed : Raw.data :=
  rawData [ rawEpisode "Late" "3" "3000" ["A"; "B"] ["x"];
            rawEpisode "Broken" "9" "soon" ["C"] [];
            rawEpisode "Early" "1" "1000" [] ["y"];
            rawEpisode "Tie" "2" "3000" ["B"] ["x"; "z"] ]%string.

Definition fields (number title : string) : liveFields :=
  {| lf_number := Some number; lf_n := None; lf_title := Some title; lf_t := None |}.

End Demo.

(* ====================================================================== *)
(** * What the lookup maps hold, exactly                                  *)
(* ====================================================================== *)

(** How often [k] is named in a list of names. *)
Definition occurrences (k : string) (names : list string) : nat :=
  length (List.filter (String.eqb k) names).

(** The indices of the episodes that name [k] (with [names] the guest list
    or the character list), in order, each as often as the episode names
    it; [i] is the index of the first episode of [eps]. *)
Fixpoint appearancesFrom (names : Ep.t -> list string) (k : string)
    (i : nat) (eps : list Ep.t) : list nat :=
  match eps with
  | [] => []
  | ep :: eps' =>
      replicate (occurrences k (names ep)) i
      ++ appearancesFrom names k (S i) eps'
  end.

Definition appearances (names : Ep.t -> list string) (k : string)
    (eps : list Ep.t) : list nat :=
  appearancesFrom names k 0 eps.

(** The entry [r] is the one of name [k], with episode list [l]. *)
Definition entryOf (k : string) (l : list nat) (r : Ent.t) : Prop :=
  Ent.name r = k
  /\ Ent.episodes r = l
  /\ l <> []
  /\ head l = Some (Ent.firstIdx r)
  /\ last l = Some (Ent.lastIdx r).

(** The state of a lookup map after the first [idx] episodes and the names
    [seen] of episode [idx]. *)
Definition crossRefSeen (names : Ep.t -> list string) (eps : list Ep.t)
    (idx : nat) (seen : list string) (m : JsMap.t string Ent.t) : Prop :=
  forall k,
    let expected :=
      appearances names k (take idx eps) ++ replicate (occurrences k seen) idx in
    match JsMap.get m k with
    | Some r => entryOf k expected r
    | None => expected = []
    end.

(** The state of a finished lookup map. *)
Definition crossRef (names : Ep.t -> list string) (eps : list Ep.t)
    (m : JsMap.t string Ent.t) : Prop :=
  forall k,
    match JsMap.get m k with
    | Some r => entryOf k (appearances names k eps) r
    | None => appearances names k eps = []
    end.

(** A map whose key order lists exactly its keys, each once. *)
Definition mapWf {K : Type} `{Countable K} {V : Type} (m : JsMap.t K V) : Prop :=
  NoDup (JsMap.order m)
  /\ forall k, k ∈ JsMap.order m <-> is_Some (JsMap.get m k).

(* ====================================================================== *)
(** * The timeline rows                                                   *)
(* ====================================================================== *)

(** [includeLiveEps ? data?.stats?.maxEpisodesWithLive || 0
                    : data?.stats?.maxEpisodesWithoutLive || 0] *)
Definition maxEpisodesInYear (includeLiveEps : bool) (data : option Data.t) : nat :=
  match data with
  | Some data =>
      if includeLiveEps
      then Stats.maxEpisodesWithLive (Data.stats data)
      else Stats.maxEpisodesWithoutLive (Data.stats data)
  | None => 0
  end.

Definition notLive (ep : Ep.t) : bool := negb (isLiveEpisode (Ep.liveFieldsOf ep)).

(** The cells of one row of the timeline. *)
Definition filteredYearEps (includeLiveEps : bool) (yearEps : list Ep.t)
    : list Ep.t :=
  if includeLiveEps then yearEps else List.filter notLive yearEps.

(** The count shown at the end of a row. *)
Definition highlightedCount (s : App.t) (row : list Ep.t) : nat :=
  length (List.filter (episodeHasEntity s) row).

Definition inYear (year : Z) (ep : Ep.t) : bool := Ep.year ep =? year.

(** [Some l] for a non-empty [l]. *)
Definition nonEmpty {A : Type} (l : list A) : option (list A) :=
  match l with
  | [] => None
  | _ => Some l
  end.

(** The year buckets after the first [i] episodes. *)
Definition bucketsOf (eps : list Ep.t) (i : nat) (m : JsMap.t Z (list Ep.t)) : Prop :=
  forall year, JsMap.get m year = nonEmpty (List.filter (inYear year) (take i eps)).

From Stdlib Require Import Lqa.

(** [a] is finite, not negative, and at most [m]. *)
Definition atMost (m : Q) (a : Num.number) : Prop :=
  exists q, a = Num.Fin q /\ (0 <= q)%Q /\ (q <= m)%Q.

(* ====================================================================== *)
(** * Sequences of sizing calls, hover events                             *)
(* ====================================================================== *)

(** One call of the sizing effect: the captured size, the width, the row
    length. *)
Definition sizingCall : Type := Q * Z * Z.

Definition runSizing (s : App.t) (call : sizingCall) : App.t :=
  updateCellSize (fst (fst call)) (snd (fst call)) (snd call) s.

(** The host holds no timer but, at most, the one the ref points to. *)
Definition tidy (w : World.t) : Prop :=
  (0 < World.nextTimerId w)%nat
  /\ (World.timers w = []
      \/ exists tm, World.timers w = [tm]
                    /\ World.hoverTimeoutRef w = Some (Timer.id tm)
                    /\ Timer.id tm <> 0%nat
                    /\ (Timer.id tm < World.nextTimerId w)%nat).

Definition isHover (e : event) : bool :=
  match e with
  | MouseEnterCell _ | MouseLeaveRow => true
  | ClickCell _ => false
  end.

(** The episode the summary shows: the pinned one first. *)
Definition displayEpisodeIdx (s : App.t) : option nat :=
  match App.pinnedEpisode s with
  | Some idx => Some idx
  | None => App.hoveredEpisode s
  end.

(* ====================================================================== *)
(** * Links                                                               *)
(* ====================================================================== *)

(** [getEarwolfUrl]: the slug of a title, one [replace] after the other. *)
Module Slug.

Definition apostrophe : ascii := "'"%char.
Definition hyphen : ascii := "-"%char.

Definition is_hyphen (c : ascii) : bool := Ascii.eqb c hyphen.

(** [[a-z]] *)
Definition is_lower (c : ascii) : bool :=
  ((97 <=? Js.code c) && (Js.code c <=? 122))%nat.

(** [\s] among the code units below 256: tab, line feed, vertical tab, form
    feed, carriage return, space and no-break space. *)
Definition is_space (c : ascii) : bool :=
  (((9 <=? Js.code c) && (Js.code c <=? 13))
   || (Js.code c =? 32) || (Js.code c =? 160))%nat.

(** What [/[^a-z0-9\s-]/g] leaves in place. *)
Definition kept (c : ascii) : bool :=
  is_lower c || Js.is_digit c || is_space c || is_hyphen c.

(** [.replace(/['']/g, '')] *)
Definition removeApostrophes (l : list ascii) : list ascii :=
  List.filter (fun c => negb (Ascii.eqb c apostrophe)) l.

(** [.replace(/[^a-z0-9\s-]/g, '')] *)
Definition removeSpecial (l : list ascii) : list ascii := List.filter kept l.

(** [.replace(/p+/g, r)]: every longest run of [p] becomes one [r];
    [inRun] tells whether the code unit before belongs to a run. *)
Fixpoint replaceRuns (p : ascii -> bool) (r : ascii) (inRun : bool)
    (l : list ascii) : list ascii :=
  match l with
  | [] => []
  | c :: l' =>
      if p c
      then if inRun then replaceRuns p r true l'
           else r :: replaceRuns p r true l'
      else c :: replaceRuns p r false l'
  end.

(** [.replace(/\s+/g, '-')] *)
Definition spacesToHyphens (l : list ascii) : list ascii :=
  replaceRuns is_space hyphen false l.

(** [.replace(/-+/g, '-')] *)
Definition collapseHyphens (l : list ascii) : list ascii :=
  replaceRuns is_hyphen hyphen false l.

(** [.replace(/^-|-$/g, '')]: a hyphen at the start goes, then a hyphen at
    the end of what is left. *)
Definition trimHyphens (l : list ascii) : list ascii :=
  let l1 := match l with
            | c :: l' => if is_hyphen c then l' else l
            | [] => []
            end in
  match last l1 with
  | Some c => if is_hyphen c then removelast l1 else l1
  | None => l1
  end.

Definition ofLowered (l : list ascii) : list ascii :=
  trimHyphens (collapseHyphens (spacesToHyphens (removeSpecial (removeApostrophes l)))).

(** What a slug is made of. *)
Definition slugChar (c : ascii) : bool :=
  is_lower c || Js.is_digit c || is_hyphen c.

Definition headNotHyphen (l : list ascii) : Prop :=
  match l with
  | c :: _ => is_hyphen c = false
  | [] => True
  end.

(** No hyphen next to a hyphen. *)
Fixpoint noAdjacentHyphens (l : list ascii) : Prop :=
  match l with
  | [] => True
  | c :: l' => (is_hyphen c = true -> headNotHyphen l') /\ noAdjacentHyphens l'
  end.

Definition wellFormed (l : list ascii) : Prop :=
  Forall (fun c => slugChar c = true) l
  /\ head l <> Some hyphen
  /\ last l <> Some hyphen
  /\ forall i, ~ (l !! i = Some hyphen /\ l !! S i = Some hyphen).

End Slug.

Definition slugOf `{Host} (title : string) : string :=
  string_of_list_ascii (Slug.ofLowered (Js.chars (String_toLowerCase title))).

Definition getEarwolfUrl `{Host} (title : string) : string :=
  String.append "https://www.earwolf.com/episode/"
    (String.append (slugOf title) "/").

(* ====================================================================== *)
(** * The entity list: recency dot and frequency bar                      *)
(* ====================================================================== *)

(** The hue of [getRecencyColor] (saturation and lightness are fixed):
    [280 - ratio * 160]. *)
Definition getRecencyHue (ratio : Num.number) : Num.number :=
  Num.sub (Num.Fin 280) (Num.mul ratio (Num.Fin 160)).

(** [Math.pow(ratio, 4)], as the exact fourth power. *)
Definition pow4 (ratio : Num.number) : Num.number :=
  Num.mul (Num.mul (Num.mul ratio ratio) ratio) ratio.

(** The later variant, which spreads out the recent appearances. *)
Definition getRecencyHueAdjusted (ratio : Num.number) : Num.number :=
  let adjusted := pow4 ratio in
  Num.sub (Num.Fin 280) (Num.mul adjusted (Num.Fin 160)).

(** [entity.lastIdx / (episodes.length - 1)] *)
Definition recencyRatio (episodes : list Ep.t) (entity : Ent.t) : Num.number :=
  Num.div (Num.of_nat (Ent.lastIdx entity))
          (Num.Fin (inject_Z (Z.of_nat (length episodes) - 1))).

(** [sortedEntities[0]?.episodes.length || 1] *)
Definition barDenominator (listed : list Ent.t) : nat :=
  match head listed with
  | Some e0 => if (length (Ent.episodes e0) =? 0)%nat then 1%nat
               else length (Ent.episodes e0)
  | None => 1%nat
  end.

(** [(entity.episodes.length / ...) * 100] *)
Definition barWidth (listed : list Ent.t) (entity : Ent.t) : Num.number :=
  Num.mul (Num.div (Num.of_nat (length (Ent.episodes entity)))
                   (Num.of_nat (barDenominator listed)))
          (Num.Fin 100).

(* ====================================================================== *)
(** * The detail panel                                                    *)
(* ====================================================================== *)

(** An item of [related]. *)
Module Related.
Record t : Type := { name : string; count : nat; type : entityType }.
End Related.

Definition byCount (a b : Related.t) : Z :=
  Z.of_nat (Related.count b) - Z.of_nat (Related.count a).

(** The related entities of the selected [entity]: the characters the
    [guestCharacters] table gives a guest (those the character map knows),
    or the guests a character was seen with, by descending count. *)
Definition relatedEntities (entityType : entityType)
    (guestCharacters : gmap string (list string))
    (guestMap characterMap : JsMap.t string Ent.t)
    (selectedEntity : string) (entity : Ent.t) : list Related.t :=
  let related :=
    match entityType, guestCharacters !! selectedEntity, Ent.guests entity with
    | guest, Some characters, _ =>
        omap (fun c =>
                match JsMap.get characterMap c with
                | Some charData =>
                    Some {| Related.name := c;
                            Related.count := length (Ent.episodes charData);
                            Related.type := character |}
                | None => None
                end)
             characters
    | character, _, Some guests =>
        map (fun g =>
               {| Related.name := g;
                  Related.count :=
                    match JsMap.get guestMap g with
                    | Some gData => length (Ent.episodes gData)
                    | None => 0
                    end;
                  Related.type := guest |})
            guests
    | _, _, _ => []
    end in
  JsArray.sort byCount related.

(** [yearCounts]: the appearances of the entity per year; [None] stands for
    the [TypeError] of reading the year of a missing episode. *)
Definition countYear (episodes : list Ep.t)
    (yearCounts : option (JsMap.t Z nat)) (idx : nat) : option (JsMap.t Z nat) :=
  match yearCounts, episodes !! idx with
  | Some yearCounts, Some ep =>
      let year := Ep.year ep in
      Some (JsMap.set yearCounts year
              (default 0%nat (JsMap.get yearCounts year) + 1)%nat)
  | _, _ => None
  end.

Definition yearCountsOf (episodes : list Ep.t) (entity : Ent.t)
    : option (JsMap.t Z nat) :=
  foldl (countYear episodes) (Some JsMap.empty) (Ent.episodes entity).

(** The indices among [indices] whose episode is of [year]. *)
Definition indicesInYear (episodes : list Ep.t) (year : Z) (indices : list nat)
    : list nat :=
  List.filter
    (fun idx => match episodes !! idx with
                | Some ep => Ep.year ep =? year
                | None => false
                end)
    indices.

(** [Some n] for a positive [n]. *)
Definition positive (n : nat) : option nat :=
  match n with
  | O => None
  | _ => Some n
  end.

(** ** The years of the timeline *)

From Stdlib Require OrdersEx DecimalString.

(** [String(n)] for an integer [n] (of less than 22 digits). *)
Definition Number_toString (n : Z) : string :=
  DecimalString.NilZero.string_of_int (Z.to_int n).

(** The order of [sort()] without a comparator: the elements are compared
    as strings, by their code units. *)
Definition defaultCompare (x y : Z) : Z :=
  match OrdersEx.String_as_OT.compare (Number_toString x) (Number_toString y) with
  | Lt => -1
  | Eq => 0
  | Gt => 1
  end.

(** [Array.from(episodesByYear.keys()).sort()] *)
Definition years (episodesByYear : JsMap.t Z (list Ep.t)) : list Z :=
  JsArray.sort defaultCompare (JsMap.order episodesByYear).




(** One episode in each of the years 9999, 10000 and 1971 of the
    demonstration host. *)
Definition corpusYears : Raw.data :=
  Demo.rawData [ Demo.rawEpisode "Far" "3" "253234080000000" ["A"] [];
                 Demo.rawEpisode "Near" "1" "31536000000" ["B"] [];
                 Demo.rawEpisode "Late" "2" "253202544000000" ["A"] ["x"] ]%string.

Definition corpusDecade : Raw.data :=
  Demo.rawData [ Demo.rawEpisode "Third" "3" "94608000000" ["A"] [];
                 Demo.rawEpisode "First" "1" "31536000000" ["B"] [];
                 Demo.rawEpisode "Second" "2" "31536000001" ["A"] ["x"] ]%string.

(** The rows of the timeline, from the top: [episodesByYear.get(year) || []]
    for each of the [years]. *)
Definition timelineRows (episodesByYear : JsMap.t Z (list Ep.t)) : list (list Ep.t) :=
  List.map (fun year => default [] (JsMap.get episodesByYear year))
           (years episodesByYear).

(* ====================================================================== *)
(** * Properties: the two patterns                                        *)
(* ====================================================================== *)

Module JsFacts.
Import Js.

Lemma skip_digits_all (a : list ascii) :
  all_digits a -> skip_digits a = [].
Proof.
  induction 1 as [|c a Hc _ IH]; simpl; [reflexivity|].
  rewrite Hc. exact IH.
Qed.

Lemma skip_digits_stop (a : list ascii) (c : ascii) (r : list ascii) :
  all_digits a -> is_digit c = false -> skip_digits (a ++ c :: r) = c :: r.
Proof.
  intros Ha Hc. induction Ha as [|x a Hx _ IH]; simpl.
  - rewrite Hc. reflexivity.
  - rewrite Hx. exact IH.
Qed.

Lemma skip_digits_split (l : list ascii) :
  exists a, all_digits a /\ l = a ++ skip_digits l.
Proof.
  induction l as [|c l [a [Ha Hl]]]; simpl.
  - exists []. split; [constructor | reflexivity].
  - destruct (is_digit c) eqn:Hc.
    + exists (c :: a). split; [constructor; assumption|].
      simpl. f_equal. exact Hl.
    + exists []. split; [constructor | reflexivity].
Qed.

Lemma digits1_Some (l r : list ascii) :
  digits1 l = Some r -> exists a, a <> [] /\ all_digits a /\ l = a ++ r.
Proof.
  destruct l as [|c l]; simpl; [discriminate|].
  destruct (is_digit c) eqn:Hc; [|discriminate].
  intros [= <-]. destruct (skip_digits_split l) as [a [Ha Hl]].
  exists (c :: a). split; [discriminate|]. split.
  - constructor; assumption.
  - simpl. f_equal. exact Hl.
Qed.

Lemma digits1_all (a : list ascii) :
  a <> [] -> all_digits a -> digits1 a = Some [].
Proof.
  intros Hne Ha. destruct Ha as [|c a Hc Ha]; [congruence|].
  simpl. rewrite Hc. f_equal. apply skip_digits_all. exact Ha.
Qed.

Lemma digits1_stop (a : list ascii) (c : ascii) (r : list ascii) :
  a <> [] -> all_digits a -> is_digit c = false ->
  digits1 (a ++ c :: r) = Some (c :: r).
Proof.
  intros Hne Ha Hc. destruct Ha as [|x a Hx Ha]; [congruence|].
  simpl. rewrite Hx. f_equal. apply skip_digits_stop; assumption.
Qed.

Lemma dot_not_digit : is_digit dot = false.
Proof. reflexivity. Qed.

(** The recogniser of [/^[0-9]+(\.[0-9]+)?$/] accepts exactly the pure
    integers and decimals. *)
Lemma test_numeric_chars_spec (l : list ascii) :
  test_numeric_chars l = true <-> numeric_pattern l.
Proof.
  unfold test_numeric_chars, numeric_pattern. split.
  - destruct (digits1 l) as [r|] eqn:Hd; [|discriminate].
    apply digits1_Some in Hd as [a [Hne [Ha Hl]]].
    destruct r as [|c r].
    + intros _. exists a. rewrite app_nil_r in Hl. auto.
    + destruct (Ascii.eqb c dot) eqn:Hc; [|discriminate].
      apply Ascii.eqb_eq in Hc. subst c.
      destruct (digits1 r) as [[|? ?]|] eqn:Hr; try discriminate.
      intros _. apply digits1_Some in Hr as [b [Hnb [Hb Hr]]].
      rewrite app_nil_r in Hr. subst r.
      exists a. split; [assumption|]. split; [assumption|].
      right. exists b. auto.
  - intros [a [Hne [Ha [-> | [b [Hnb [Hb ->]]]]]]].
    + rewrite digits1_all by assumption. reflexivity.
    + rewrite digits1_stop by (assumption || apply dot_not_digit).
      rewrite Ascii.eqb_refl. rewrite digits1_all by assumption. reflexivity.
Qed.

Lemma live_here_spec (l : list ascii) :
  live_here l = true <->
  exists w post, l = w ++ post /\ nocase_live w /\ boundary_after post.
Proof.
  unfold live_here, nocase_live, boundary_after. split.
  - destruct l as [|c1 [|c2 [|c3 [|c4 rest]]]]; try discriminate.
    rewrite !andb_true_iff. intros [[[[H1 H2] H3] H4] H5].
    exists [c1; c2; c3; c4], rest. split; [reflexivity|]. split.
    + exists c1, c2, c3, c4. auto.
    + destruct rest as [|c p]; [left; reflexivity|].
      right. exists c, p. split; [reflexivity|].
      apply negb_true_iff. exact H5.
  - intros [w [post [-> [[c1 [c2 [c3 [c4 [-> [H1 [H2 [H3 H4]]]]]]]] Hpost]]]].
    simpl. rewrite H1, H2, H3, H4. simpl.
    destruct Hpost as [-> | [c [p [-> Hc]]]]; [reflexivity|].
    rewrite Hc. reflexivity.
Qed.

Lemma boundary_from_cons (prev : bool) (c : ascii) (pre : list ascii) :
  boundary_from prev (c :: pre) <-> boundary_from (is_word c) pre.
Proof.
  unfold boundary_from. destruct pre as [|x pre]; [reflexivity|].
  rewrite last_cons_cons.
  destruct (last (x :: pre)) eqn:E; [reflexivity|].
  apply last_None in E. discriminate.
Qed.

Lemma live_scan_spec (l : list ascii) (prev : bool) :
  live_scan prev l = true <->
  exists pre w post, l = pre ++ w ++ post /\
    nocase_live w /\ boundary_from prev pre /\ boundary_after post.
Proof.
  revert prev. induction l as [|c l IH]; intros prev.
  - simpl. rewrite orb_false_r, andb_false_r. split; [discriminate|].
    intros [pre [w [post [Hl [[c1 [c2 [c3 [c4 [-> _]]]]] _]]]]].
    destruct pre; discriminate.
  - cbn [live_scan]. rewrite orb_true_iff, andb_true_iff, negb_true_iff.
    split.
    + intros [[Hp Hh] | Hs].
      * apply live_here_spec in Hh as [w [post [Hl [Hw Hpost]]]].
        exists [], w, post. unfold boundary_from. simpl. auto.
      * apply IH in Hs as [pre [w [post [Hl [Hw [Hb Hpost]]]]]].
        exists (c :: pre), w, post. rewrite boundary_from_cons.
        subst l. auto.
    + intros [pre [w [post [Hl [Hw [Hb Hpost]]]]]].
      destruct pre as [|x pre].
      * left. split; [exact Hb|]. apply live_here_spec.
        exists w, post. auto.
      * right. simpl in Hl. injection Hl as -> ->.
        apply IH. exists pre, w, post.
        rewrite <- (boundary_from_cons prev x). auto.
Qed.

Lemma boundary_from_false (pre : list ascii) :
  boundary_from false pre <-> boundary_before pre.
Proof.
  unfold boundary_from, boundary_before. split.
  - destruct (last pre) as [c|] eqn:Hlast.
    + apply last_Some in Hlast as [p ->]. intros Hc. right. eauto.
    + apply last_None in Hlast. auto.
  - intros [-> | [p [c [-> Hc]]]]; [reflexivity|].
    rewrite last_snoc. exact Hc.
Qed.

(** The recogniser of [/\blive\b/i] accepts exactly the strings that hold
    "live" as a word of its own. *)
Lemma test_live_spec (s : string) :
  test_live s = true <-> standalone_live (chars s).
Proof.
  unfold test_live, standalone_live. rewrite live_scan_spec.
  split; intros [pre [w [post [Hl [Hw [Hb Hpost]]]]]];
    exists pre, w, post; rewrite boundary_from_false in *; auto.
Qed.

End JsFacts.

(* ====================================================================== *)
(** * Properties: the live-episode classifier                             *)
(* ====================================================================== *)

Section LiveEpisode.
Import Js.

Lemma truthy_Some (s : string) : truthy (Some s) = true <-> s <> ""%string.
Proof.
  simpl. rewrite negb_true_iff. split.
  - intros Hs ->. discriminate.
  - intros Hs. apply String.eqb_neq. exact Hs.
Qed.

Lemma test_numeric_false (s : string) :
  test_numeric s = false <-> ~ numeric_pattern (chars s).
Proof.
  unfold test_numeric. rewrite <- JsFacts.test_numeric_chars_spec.
  destruct (test_numeric_chars (chars s)); split; congruence.
Qed.

Lemma hasNonNumericNumber_spec (num : option string) :
  hasNonNumericNumber num = true <->
  exists s, num = Some s /\ s <> ""%string /\ ~ numeric_pattern (chars s).
Proof.
  unfold hasNonNumericNumber. destruct num as [s|].
  - rewrite andb_true_iff, truthy_Some, negb_true_iff, test_numeric_false.
    split.
    + intros [Hs Hn]. exists s. auto.
    + intros [s' [[= <-] [Hs Hn]]]. auto.
  - split; [discriminate | intros [s [[=] _]]].
Qed.

Lemma empty_not_numeric : ~ numeric_pattern (chars "").
Proof. apply test_numeric_false. reflexivity. Qed.

(** C3, as the code has it: an episode is live if and only if the number it
    reads is present, not empty and not a pure integer or decimal, or its
    title holds "live" as a word of its own (any letter case).  So number
    "BO2013.1" is live, number "145" with title "The Best of CBB" is not,
    title "Live from Austin" is live, and title "I'll Always Live Here" is
    live as well, since "Live" stands there as a word; a title such as
    "Alive and Delivered" is not. *)
Theorem isLiveEpisode_spec :
  (forall episode : liveFields,
     isLiveEpisode episode = true <->
     (exists s, numberRead episode = Some s /\ s <> ""%string
                /\ ~ numeric_pattern (chars s))
     \/ standalone_live (chars (titleRead episode)))
  /\ (forall title, isLiveEpisode (Demo.fields "BO2013.1" title) = true)
  /\ isLiveEpisode (Demo.fields "145" "The Best of CBB") = false
  /\ (forall number, isLiveEpisode (Demo.fields number "Live from Austin") = true)
  /\ (forall number,
        isLiveEpisode (Demo.fields number "I'll Always Live Here") = true)
  /\ isLiveEpisode (Demo.fields "145" "Alive and Delivered") = false.
Proof.
  split; [|split; [|split; [|split; [|split]]]].
  - intros episode. unfold isLiveEpisode. fold (numberRead episode).
    fold (titleRead episode).
    rewrite orb_true_iff, hasNonNumericNumber_spec.
    unfold hasLiveInTitle. rewrite JsFacts.test_live_spec. reflexivity.
  - intros title. unfold isLiveEpisode. simpl. reflexivity.
  - reflexivity.
  - intros number. unfold isLiveEpisode. apply orb_true_iff. right. reflexivity.
  - intros number. unfold isLiveEpisode. apply orb_true_iff. right. reflexivity.
  - reflexivity.
Qed.

(** C3 as it was claimed fails twice: the empty number "" does not match
    the pattern, yet the episode is not live; and the title "I'll Always
    Live Here" is live (number "145"), not excluded. *)
Lemma isLiveEpisode_claim_fails :
  ~ (isLiveEpisode (Demo.fields "" "The Best of CBB") = true <->
     ~ numeric_pattern (chars "")
     \/ standalone_live (chars "The Best of CBB"))
  /\ isLiveEpisode (Demo.fields "145" "I'll Always Live Here") <> false.
Proof.
  split.
  - intros [_ Hlive].
    assert (Hf : isLiveEpisode (Demo.fields "" "The Best of CBB") = false)
      by reflexivity.
    rewrite Hlive in Hf; [discriminate|].
    left. exact empty_not_numeric.
  - discriminate.
Qed.

(** C10: when the number the classifier reads is absent or empty, the
    number check does not fire, and the episode is live exactly when its
    title holds the standalone word "live", although the empty number does
    not match the integer-or-decimal pattern either. *)
Theorem isLiveEpisode_no_number (episode : liveFields) :
  lf_number episode = None \/ lf_number episode = Some ""%string ->
  lf_n episode = None \/ lf_n episode = Some ""%string ->
  hasNonNumericNumber (numberRead episode) = false
  /\ isLiveEpisode episode = hasLiveInTitle (titleRead episode)
  /\ (isLiveEpisode episode = true <->
      standalone_live (chars (titleRead episode)))
  /\ test_numeric "" = false.
Proof.
  intros Hnumber Hn.
  assert (Hcheck : hasNonNumericNumber (numberRead episode) = false).
  { unfold numberRead, Js.or.
    destruct Hnumber as [-> | ->], Hn as [-> | ->]; reflexivity. }
  assert (Hlive : isLiveEpisode episode = hasLiveInTitle (titleRead episode)).
  { unfold isLiveEpisode. fold (numberRead episode). fold (titleRead episode).
    rewrite Hcheck. reflexivity. }
  split; [exact Hcheck|]. split; [exact Hlive|]. split; [|reflexivity].
  rewrite Hlive. unfold hasLiveInTitle. apply JsFacts.test_live_spec.
Qed.

Lemma isLiveEpisode_no_number_witness :
  (lf_number (Demo.fields "" "Live from Austin") = None
   \/ lf_number (Demo.fields "" "Live from Austin") = Some ""%string)
  /\ isLiveEpisode (Demo.fields "" "Live from Austin")
     = hasLiveInTitle "Live from Austin".
Proof.
  split; [right; reflexivity|].
  destruct (isLiveEpisode_no_number (Demo.fields "" "Live from Austin"))
    as [_ [Hlive _]]; [right; reflexivity | left; reflexivity | exact Hlive].
Defined.

End LiveEpisode.

(* ====================================================================== *)
(** * Properties: sorting and iteration                                   *)
(* ====================================================================== *)

Module JsArrayFacts.
Import JsArray.

Section Sort.
Context {A : Type} (cmp : A -> A -> Z).

Lemma insert_sorted_perm (x : A) (l : list A) :
  Permutation (insert_sorted cmp x l) (x :: l).
Proof.
  induction l as [|y l IH]; simpl; [reflexivity|].
  destruct (cmp x y <=? 0); [reflexivity|].
  rewrite IH. apply perm_swap.
Qed.

Lemma sort_perm (l : list A) : Permutation (sort cmp l) l.
Proof.
  induction l as [|x l IH]; simpl; [reflexivity|].
  rewrite insert_sorted_perm, IH. reflexivity.
Qed.

Lemma sort_length (l : list A) : length (sort cmp l) = length l.
Proof. apply Permutation_length, sort_perm. Qed.

(** Stability: the elements of a class whose members may all stand in
    front of one another keep their order. *)
Lemma insert_sorted_filter (p : A -> bool) (x : A) (l : list A) :
  (forall a b, p a = true -> p b = true -> before cmp a b) ->
  List.filter p (insert_sorted cmp x l) = List.filter p (x :: l).
Proof.
  intros Hp. induction l as [|y l IH]; [reflexivity|].
  cbn [insert_sorted]. destruct (cmp x y <=? 0) eqn:Hxy; [reflexivity|].
  apply Z.leb_gt in Hxy.
  cbn [List.filter] in *. rewrite IH.
  destruct (p x) eqn:Hx, (p y) eqn:Hy; try reflexivity.
  specialize (Hp x y Hx Hy). unfold before in Hp. lia.
Qed.

Lemma sort_filter (p : A -> bool) (l : list A) :
  (forall a b, p a = true -> p b = true -> before cmp a b) ->
  List.filter p (sort cmp l) = List.filter p l.
Proof.
  intros Hp. induction l as [|x l IH]; [reflexivity|].
  cbn [sort]. rewrite insert_sorted_filter by exact Hp.
  cbn [List.filter]. rewrite IH. reflexivity.
Qed.

(** Order: it takes a comparator that puts [b] in front of [a] whenever it
    refuses to put [a] in front of [b]. *)
Hypothesis cmp_connex : forall a b, 0 < cmp a b -> cmp b a <= 0.

Lemma insert_sorted_HdRel (y x : A) (l : list A) :
  before cmp y x -> HdRel (before cmp) y l -> HdRel (before cmp) y (insert_sorted cmp x l).
Proof.
  intros Hyx Hyl. destruct l as [|z l]; simpl.
  - constructor. exact Hyx.
  - destruct (cmp x z <=? 0); constructor; [exact Hyx|].
    inversion Hyl; assumption.
Qed.

Lemma insert_sorted_Sorted (x : A) (l : list A) :
  Sorted (before cmp) l -> Sorted (before cmp) (insert_sorted cmp x l).
Proof.
  induction 1 as [|y l Hl IH Hy]; simpl.
  - repeat constructor.
  - destruct (cmp x y <=? 0) eqn:Hxy.
    + apply Z.leb_le in Hxy. repeat constructor; assumption.
    + apply Z.leb_gt in Hxy. constructor; [exact IH|].
      apply insert_sorted_HdRel; [|exact Hy].
      apply cmp_connex. exact Hxy.
Qed.

Lemma sort_Sorted (l : list A) : Sorted (before cmp) (sort cmp l).
Proof.
  induction l as [|x l IH]; simpl; [constructor|].
  apply insert_sorted_Sorted. exact IH.
Qed.

End Sort.

Lemma Sorted_weaken {A : Type} (R R' : A -> A -> Prop) (l : list A) :
  (forall a b, R a b -> R' a b) -> Sorted R l -> Sorted R' l.
Proof.
  intros HR. induction 1 as [|a l _ IH Hhd]; constructor; [exact IH|].
  destruct Hhd; constructor. auto.
Qed.

(** With a comparator that is connex and only lets [a] in front of [b] when
    [R a b], for a transitive [R], the result is sorted by [R] for good. *)
Lemma sort_StronglySorted {A : Type} (cmp : A -> A -> Z) (R : A -> A -> Prop)
    (l : list A) :
  (forall a b, 0 < cmp a b -> cmp b a <= 0) ->
  (forall a b, cmp a b <= 0 -> R a b) ->
  (forall a b c, R a b -> R b c -> R a c) ->
  StronglySorted R (sort cmp l).
Proof.
  intros Hconnex HR Htrans. apply Sorted_StronglySorted.
  - intros a b c. apply Htrans.
  - apply (Sorted_weaken (before cmp)); [exact HR|].
    apply sort_Sorted. exact Hconnex.
Qed.

(** A comparator [key a - key b] sorts by ascending key. *)
Lemma sort_by_key {A : Type} (key : A -> Z) (l : list A) :
  StronglySorted (fun a b => key a <= key b)
                 (sort (fun a b => key a - key b) l).
Proof. apply sort_StronglySorted; intros; lia. Qed.

Lemma sort_stable {A : Type} (key : A -> Z) (l : list A) :
  stableSortOf key l (sort (fun a b => key a - key b) l).
Proof.
  split; [apply sort_perm|]. split; [apply sort_by_key|].
  intros k. apply sort_filter. intros a b Ha Hb.
  apply Z.eqb_eq in Ha, Hb. unfold before. lia.
Qed.

(** Two sorted arrangements of the same elements that keep the elements of
    each key in the same order are equal. *)
Lemma sorted_stable_unique {A : Type} (key : A -> Z) (l1 l2 : list A) :
  Permutation l1 l2 ->
  StronglySorted (fun a b => key a <= key b) l1 ->
  StronglySorted (fun a b => key a <= key b) l2 ->
  (forall k, List.filter (fun a => key a =? k) l1
             = List.filter (fun a => key a =? k) l2) ->
  l1 = l2.
Proof.
  revert l2. induction l1 as [|x l1 IH]; intros l2 Hperm Hs1 Hs2 Hf.
  - apply Permutation_nil in Hperm. congruence.
  - destruct l2 as [|y l2].
    + symmetry in Hperm. apply Permutation_nil in Hperm. discriminate.
    + apply StronglySorted_cons in Hs1 as [Hx Hs1].
      apply StronglySorted_cons in Hs2 as [Hy Hs2].
      rewrite Forall_forall in Hx, Hy.
      assert (Hxy : key y <= key x).
      { assert (Hin : x ∈ y :: l2)
          by (rewrite <- Hperm; left).
        apply elem_of_cons in Hin as [-> | Hin]; [lia | auto]. }
      assert (Hyx : key x <= key y).
      { assert (Hin : y ∈ x :: l1)
          by (rewrite Hperm; left).
        apply elem_of_cons in Hin as [-> | Hin]; [lia | auto]. }
      assert (Heq : x = y).
      { specialize (Hf (key x)). simpl in Hf.
        rewrite Z.eqb_refl in Hf.
        replace (key y =? key x) with true in Hf
          by (symmetry; apply Z.eqb_eq; lia).
        congruence. }
      subst y. f_equal. apply IH; try assumption.
      * eapply Permutation_cons_inv. exact Hperm.
      * intros k. specialize (Hf k). simpl in Hf.
        destruct (key x =? k); congruence.
Qed.

(** So the model of [sort] is the only one there can be. *)
Lemma stableSortOf_unique {A : Type} (key : A -> Z) (l l' : list A) :
  stableSortOf key l l' -> l' = sort (fun a b => key a - key b) l.
Proof.
  intros [Hperm [Hsorted Hstable]].
  destruct (sort_stable key l) as [Hperm' [Hsorted' Hstable']].
  apply (sorted_stable_unique key); try assumption.
  - rewrite Hperm, Hperm'. reflexivity.
  - intros k. rewrite Hstable, Hstable'. reflexivity.
Qed.

Lemma Sorted_adjacent {A : Type} (R : A -> A -> Prop) (l : list A)
    (i : nat) (a b : A) :
  Sorted R l -> l !! i = Some a -> l !! S i = Some b -> R a b.
Proof.
  intros Hl. revert i. induction Hl as [|x l Hl IH Hx]; intros i Ha Hb.
  - discriminate.
  - destruct i as [|i]; simpl in *.
    + injection Ha as ->. destruct Hx as [|y l' Hxy]; [discriminate|].
      simpl in Hb. injection Hb as ->. exact Hxy.
    + eapply IH; eassumption.
Qed.

(** An invariant of [forEach], indexed by the number of elements seen. *)
Lemma forEach_invariant {A St : Type} (f : St -> A -> nat -> St)
    (Inv : nat -> St -> Prop) (l : list A) (s : St) :
  Inv 0%nat s ->
  (forall i a s, l !! i = Some a -> Inv i s -> Inv (S i) (f s a i)) ->
  Inv (length l) (forEach f l s).
Proof.
  intros H0 Hstep. unfold forEach.
  assert (Hgen : forall suf pre s,
             l = pre ++ suf -> Inv (length pre) s ->
             Inv (length l) (forEachFrom f (length pre) suf s)).
  { induction suf as [|a suf IH]; intros pre s' Hl Hs; simpl.
    - subst l. rewrite app_nil_r. exact Hs.
    - specialize (IH (pre ++ [a]) (f s' a (length pre))).
      rewrite length_app in IH. simpl in IH.
      replace (length pre + 1)%nat with (S (length pre)) in IH by lia.
      apply IH.
      + rewrite <- app_assoc. exact Hl.
      + apply Hstep; [|exact Hs]. subst l.
        rewrite lookup_app_r by lia. rewrite Nat.sub_diag. reflexivity. }
  apply (Hgen l [] s); [reflexivity | exact H0].
Qed.

(** An invariant of a left fold, indexed by the elements seen. *)
Lemma foldl_invariant {A St : Type} (f : St -> A -> St)
    (Inv : list A -> St -> Prop) (l : list A) (s : St) :
  Inv [] s ->
  (forall seen a rest s, l = seen ++ a :: rest ->
     Inv seen s -> Inv (seen ++ [a]) (f s a)) ->
  Inv l (foldl f s l).
Proof.
  intros H0 Hstep.
  assert (Hgen : forall rest seen s,
             l = seen ++ rest -> Inv seen s -> Inv l (foldl f s rest)).
  { induction rest as [|a rest IH]; intros seen s' Hl Hs; simpl.
    - subst l. rewrite app_nil_r. exact Hs.
    - apply (IH (seen ++ [a])).
      + rewrite <- app_assoc. exact Hl.
      + eapply Hstep; eassumption. }
  apply (Hgen l [] s); [reflexivity | exact H0].
Qed.

End JsArrayFacts.

(* ====================================================================== *)
(** * Properties: the record normaliser                                   *)
(* ====================================================================== *)

Section Normalizer.
Context `{Host}.

Lemma base_computed (l : list Mapped.t) :
  map Ep.base (imap (fun idx ep => addComputed ep idx) l) = l.
Proof.
  change (Ep.base <$> imap (fun idx ep => addComputed ep idx) l = l).
  rewrite fmap_imap. induction l as [|m l IH] using rev_ind; [reflexivity|].
  rewrite imap_app. simpl. rewrite IH. reflexivity.
Qed.

Lemma loadData_episodes_eq (raw : Raw.data) :
  exists data, loadData (Some raw) = Some data
               /\ Data.episodes data = computedEpisodes raw.
Proof. eexists. split; reflexivity. Qed.

Lemma omap_mapEpisode_length (l : list Raw.episode) :
  length (omap mapEpisode l) = length (List.filter dateParses l).
Proof.
  induction l as [|e l IH]; [reflexivity|].
  cbn [omap list_omap List.filter]. unfold mapEpisode at 1, dateParses at 1.
  destruct (parseDate (Raw.d e)) as [date|]; simpl; [f_equal|]; exact IH.
Qed.

(** C1: [loadData] returns, for every raw corpus, the episodes whose date
    parses and only those (one per such record, the others dropped), sorted
    by ascending date with the input order kept among equal dates (the one
    list a stable sort by date can give), each carrying its position as
    [idx]. *)
Theorem loadData_episodes_sorted (raw : Raw.data) :
  exists data, loadData (Some raw) = Some data /\
    let episodes := Data.episodes data in
    Permutation (map Ep.base episodes) (omap mapEpisode (Raw.episodes raw))
    /\ length episodes = length (List.filter dateParses (Raw.episodes raw))
    /\ (forall date,
          List.filter (hasDate date) (map Ep.base episodes)
          = List.filter (hasDate date) (omap mapEpisode (Raw.episodes raw)))
    /\ (forall i ep, episodes !! i = Some ep -> Ep.idx ep = i)
    /\ (forall i a b, episodes !! i = Some a -> episodes !! S i = Some b ->
          Ep.date a <= Ep.date b)
    /\ StronglySorted (fun a b => Mapped.date a <= Mapped.date b)
                      (map Ep.base episodes)
    /\ (forall l', JsArray.stableSortOf Mapped.date
                     (omap mapEpisode (Raw.episodes raw)) l' ->
                   map Ep.base episodes = l').
Proof.
  destruct (loadData_episodes_eq raw) as [data [Hload Heps]].
  exists data. split; [exact Hload|]. cbv zeta. rewrite Heps.
  unfold computedEpisodes. rewrite base_computed. unfold sortedEpisodes.
  set (l := omap mapEpisode (Raw.episodes raw)).
  assert (Hsorted : StronglySorted (fun a b => Mapped.date a <= Mapped.date b)
                      (JsArray.sort byDate l))
    by apply (JsArrayFacts.sort_by_key Mapped.date).
  split; [apply JsArrayFacts.sort_perm|].
  split.
  { rewrite length_imap, JsArrayFacts.sort_length. apply omap_mapEpisode_length. }
  split.
  { intros date. apply JsArrayFacts.sort_filter. intros a b Ha Hb.
    unfold hasDate in *. apply Z.eqb_eq in Ha, Hb.
    unfold JsArray.before, byDate. lia. }
  split.
  { intros i ep Hi. rewrite list_lookup_imap in Hi.
    destruct (JsArray.sort byDate l !! i); [|discriminate].
    injection Hi as <-. reflexivity. }
  split; [|split; [exact Hsorted|]].
  2: { intros l' Hl'. symmetry.
       exact (JsArrayFacts.stableSortOf_unique Mapped.date l l' Hl'). }
  intros i a b Ha Hb. rewrite list_lookup_imap in Ha, Hb.
  destruct (JsArray.sort byDate l !! i) as [ma|] eqn:Hma; [|discriminate].
  destruct (JsArray.sort byDate l !! S i) as [mb|] eqn:Hmb; [|discriminate].
  injection Ha as <-. injection Hb as <-. unfold Ep.date. simpl.
  apply StronglySorted_Sorted in Hsorted.
  exact (JsArrayFacts.Sorted_adjacent _ _ _ _ _ Hsorted Hma Hmb).
Qed.

End Normalizer.

(** The normaliser on the mixed corpus: the record with the invalid date is
    gone, the two episodes of date 3000 keep their input order. *)
Example loadData_corpusMixed :
  (fun data => map (fun ep => (Mapped.title (Ep.base ep), Ep.idx ep, Ep.date ep))
                   (Data.episodes data))
    <$> @loadData Demo.host (Some Demo.corpusMixed)
  = Some [ (Some "Early", 0%nat, 1000); (Some "Late", 1%nat, 3000);
           (Some "Tie", 2%nat, 3000) ]%string.
Proof. vm_compute. reflexivity. Qed.

(* ====================================================================== *)
(** * Properties: maps and sets                                           *)
(* ====================================================================== *)

Module JsMapFacts.
Import JsMap.

Section Map.
Context {K : Type} `{Countable K} {V : Type}.
Implicit Types (m : JsMap.t K V) (k : K) (v : V).

Lemma get_empty k : get (empty : JsMap.t K V) k = None.
Proof. apply lookup_empty. Qed.

Lemma has_true m k : has m k = true <-> is_Some (get m k).
Proof. unfold has, get. apply bool_decide_eq_true. Qed.

Lemma get_set m k v k' :
  get (set m k v) k' = if decide (k = k') then Some v else get m k'.
Proof. unfold get, set. simpl. apply lookup_insert. Qed.

Lemma get_modify m k (f : V -> V) k' :
  get (modify m k f) k' = if decide (k = k') then f <$> get m k else get m k'.
Proof.
  unfold get, modify. simpl. rewrite lookup_alter.
  destruct (decide (k = k')) as [->|]; reflexivity.
Qed.

Lemma get_forEachValue (f : V -> K -> V) m k :
  get (forEachValue f m) k = (fun v => f v k) <$> get m k.
Proof.
  unfold get, forEachValue. simpl. rewrite map_lookup_imap.
  destruct (store m !! k); reflexivity.
Qed.

Lemma elem_of_values m v : v ∈ values m -> exists k, get m k = Some v.
Proof.
  unfold values. rewrite list_elem_of_omap. intros [k [_ Hk]]. exists k. exact Hk.
Qed.

(** Insert-or-update, the way both lookup maps are filled: create the entry
    when the key is new, then mutate the entry held under the key. *)
Lemma get_upsert m k (fresh : V) (upd : V -> V) k' :
  get (modify (if negb (has m k) then set m k fresh else m) k upd) k'
  = if decide (k = k') then Some (upd (default fresh (get m k))) else get m k'.
Proof.
  rewrite get_modify. destruct (decide (k = k')) as [<-|Hne].
  - destruct (has m k) eqn:Hhas; simpl.
    + apply has_true in Hhas as [v Hv]. rewrite Hv. reflexivity.
    + rewrite get_set. rewrite decide_True by reflexivity.
      assert (Hnone : get m k = None).
      { destruct (get m k) eqn:Hg; [|reflexivity].
        assert (has m k = true) by (apply has_true; rewrite Hg; eauto).
        congruence. }
      rewrite Hnone. reflexivity.
  - destruct (has m k); simpl; [reflexivity|].
    rewrite get_set. rewrite decide_False by exact Hne. reflexivity.
Qed.

End Map.

End JsMapFacts.

Module JsSetFacts.
Import JsSet.

Lemma elem_of_add (s : JsSet.t) (x y : string) :
  y ∈ add s x <-> y ∈ s \/ y = x.
Proof.
  unfold add, has. case_bool_decide as Hx.
  - split; [auto|]. intros [Hy | ->]; assumption.
  - rewrite elem_of_app, list_elem_of_singleton. reflexivity.
Qed.

Lemma NoDup_add (s : JsSet.t) (x : string) : NoDup s -> NoDup (add s x).
Proof.
  intros Hs. unfold add, has. case_bool_decide as Hx; [exact Hs|].
  apply NoDup_app. split; [exact Hs|]. split.
  - intros y Hy Hyx. apply list_elem_of_singleton in Hyx. subst y. contradiction.
  - apply NoDup_singleton.
Qed.

Lemma elem_of_foldl_add (l : list string) (s : JsSet.t) (y : string) :
  y ∈ foldl add s l <-> y ∈ s \/ y ∈ l.
Proof.
  revert s. induction l as [|x l IH]; intros s; simpl.
  - rewrite elem_of_nil. tauto.
  - rewrite IH, elem_of_add, elem_of_cons. tauto.
Qed.

Lemma NoDup_foldl_add (l : list string) (s : JsSet.t) :
  NoDup s -> NoDup (foldl add s l).
Proof.
  revert s. induction l as [|x l IH]; intros s Hs; simpl; [exact Hs|].
  apply IH, NoDup_add, Hs.
Qed.

End JsSetFacts.

(* ====================================================================== *)
(** * Properties: the cross-reference indexer                             *)
(* ====================================================================== *)

Section Indexer.
Context `{Host}.

Lemma foldl_add_guest_fields (l : list string) (r : Ent.t) :
  Ent.episodes (foldl Ent.add_guest r l) = Ent.episodes r
  /\ Ent.firstIdx (foldl Ent.add_guest r l) = Ent.firstIdx r
  /\ Ent.lastIdx (foldl Ent.add_guest r l) = Ent.lastIdx r
  /\ Ent.guests (foldl Ent.add_guest r l)
     = (fun s => foldl JsSet.add s l) <$> Ent.guests r.
Proof.
  revert r. induction l as [|g l IH]; intros r; simpl.
  - destruct (Ent.guests r); auto.
  - destruct (IH (Ent.add_guest r g)) as [-> [-> [-> ->]]]. simpl.
    destruct (Ent.guests r); auto.
Qed.

Lemma sighting_guest (idx : nat) :
  sighting idx (fun gData => Ent.set_lastIdx idx (Ent.push_episode idx gData)).
Proof. intros r. simpl. auto. Qed.

Lemma sighting_character (idx : nat) (epGuests : list string) :
  sighting idx (fun cData =>
    foldl Ent.add_guest (Ent.set_lastIdx idx (Ent.push_episode idx cData)) epGuests).
Proof.
  intros r.
  destruct (foldl_add_guest_fields epGuests
              (Ent.set_lastIdx idx (Ent.push_episode idx r))) as [-> [-> [-> _]]].
  simpl. auto.
Qed.

Lemma indexedBelow_mono (n n' : nat) (r : Ent.t) :
  (n <= n')%nat -> indexedBelow n r -> indexedBelow n' r.
Proof.
  intros Hn [Hs [Hh [Hl Hb]]]. repeat split; try assumption.
  eapply Forall_impl; [exact Hb|]. simpl. intros j Hj. lia.
Qed.

Lemma indexedBelow_sighting (idx : nat) (upd : Ent.t -> Ent.t) (r : Ent.t) :
  sighting idx upd ->
  indexedBelow idx r \/ (Ent.episodes r = [] /\ Ent.firstIdx r = idx) ->
  indexedBelow (S idx) (upd r).
Proof.
  intros Hupd Hr. destruct (Hupd r) as [He [Hf Hl]].
  unfold indexedBelow, strictly_ascending. rewrite He, Hf, Hl.
  destruct Hr as [[Hs [Hh [_ Hb]]] | [Hnil Hfirst]].
  - split; [|split; [|split]].
    + apply StronglySorted_app_2; [|exact Hs|repeat constructor].
      intros x1 x2 Hx1 Hx2. apply list_elem_of_singleton in Hx2. subst x2.
      rewrite Forall_forall in Hb. apply Hb. exact Hx1.
    + rewrite head_app, Hh. reflexivity.
    + apply last_snoc.
    + apply Forall_app. split.
      * eapply Forall_impl; [exact Hb|]. simpl. intros j Hj. lia.
      * repeat constructor.
  - rewrite Hnil, Hfirst. simpl. repeat split; repeat constructor.
Qed.

(** One insert-or-update of a name not yet seen in the episode. *)
Lemma upsert_allBelowSeen (idx : nat) (fresh : Ent.t) (upd : Ent.t -> Ent.t)
    (seen : list string) (m : JsMap.t string Ent.t) (x : string) :
  sighting idx upd ->
  Ent.episodes fresh = [] -> Ent.firstIdx fresh = idx ->
  x ∉ seen ->
  allBelowSeen idx seen m ->
  allBelowSeen idx (seen ++ [x])
    (JsMap.modify (if negb (JsMap.has m x) then JsMap.set m x fresh else m) x upd).
Proof.
  intros Hupd Hnil Hfirst Hx Hm k r. rewrite JsMapFacts.get_upsert.
  destruct (decide (x = k)) as [<-|Hne].
  - intros [= <-]. split.
    + intros _. apply indexedBelow_sighting; [exact Hupd|].
      destruct (JsMap.get m x) as [r0|] eqn:Hr0; simpl.
      * left. apply (Hm x r0 Hr0). exact Hx.
      * right. auto.
    + intros Hnot. exfalso. apply Hnot. apply elem_of_app. right.
      apply list_elem_of_singleton. reflexivity.
  - intros Hk. destruct (Hm k r Hk) as [Hin Hout]. split.
    + intros Hseen. apply elem_of_app in Hseen as [Hseen | Hseen].
      * apply Hin. exact Hseen.
      * apply list_elem_of_singleton in Hseen. congruence.
    + intros Hnot. apply Hout. intros Hseen. apply Hnot.
      apply elem_of_app. left. exact Hseen.
Qed.

Lemma NoDup_not_seen (l seen rest : list string) (x : string) :
  NoDup l -> l = seen ++ x :: rest -> x ∉ seen.
Proof.
  intros Hnd ->. apply NoDup_app in Hnd as [_ [Hdis _]].
  intros Hx. apply (Hdis x Hx). left.
Qed.

(** All the sightings of one episode, for a list of names without
    repetition. *)
Lemma foldl_upsert_allBelow (idx : nat) (fresh : string -> Ent.t)
    (upd : Ent.t -> Ent.t) (names : list string) (m : JsMap.t string Ent.t) :
  sighting idx upd ->
  (forall x, Ent.episodes (fresh x) = [] /\ Ent.firstIdx (fresh x) = idx) ->
  NoDup names ->
  allBelow idx m ->
  allBelow (S idx)
    (foldl (fun m x =>
              JsMap.modify
                (if negb (JsMap.has m x) then JsMap.set m x (fresh x) else m) x upd)
           m names).
Proof.
  intros Hupd Hfresh Hnd Hm.
  assert (Hseen : allBelowSeen idx names
    (foldl (fun m x =>
              JsMap.modify
                (if negb (JsMap.has m x) then JsMap.set m x (fresh x) else m) x upd)
           m names)).
  { apply (JsArrayFacts.foldl_invariant _ (allBelowSeen idx)).
    - intros k r Hk. split; [intros Hin; inversion Hin|].
      intros _. exact (Hm k r Hk).
    - intros seen x rest m' Hl Hm'. destruct (Hfresh x) as [Hnil Hfirst].
      apply upsert_allBelowSeen; try assumption.
      eapply NoDup_not_seen; eassumption. }
  intros k r Hk. destruct (Hseen k r Hk) as [Hin Hout].
  destruct (decide (k ∈ names)) as [Hk'|Hk']; [auto|].
  apply (indexedBelow_mono idx); [lia | auto].
Qed.

Lemma seeGuest_allBelow (idx : nat) (names : list string)
    (m : JsMap.t string Ent.t) :
  NoDup names -> allBelow idx m -> allBelow (S idx) (foldl (seeGuest idx) m names).
Proof.
  intros Hnd Hm.
  apply (foldl_upsert_allBelow idx (fun g => newGuest g idx)
           (fun gData => Ent.set_lastIdx idx (Ent.push_episode idx gData)));
    auto using sighting_guest.
Qed.

Lemma seeCharacter_allBelow (idx : nat) (epGuests names : list string)
    (m : JsMap.t string Ent.t) :
  NoDup names -> allBelow idx m ->
  allBelow (S idx) (foldl (seeCharacter idx epGuests) m names).
Proof.
  intros Hnd Hm.
  apply (foldl_upsert_allBelow idx (fun c => newCharacter c idx)
           (fun cData =>
              foldl Ent.add_guest
                    (Ent.set_lastIdx idx (Ent.push_episode idx cData)) epGuests));
    auto using sighting_character.
Qed.

Lemma buildMaps_allBelow (episodes : list Ep.t) :
  Forall noRepeats episodes ->
  allBelow (length episodes) (fst (buildMaps episodes))
  /\ allBelow (length episodes) (snd (buildMaps episodes)).
Proof.
  intros Hnd. unfold buildMaps.
  apply (JsArrayFacts.forEach_invariant indexEpisode
           (fun i maps => allBelow i (fst maps) /\ allBelow i (snd maps))).
  - cbn [fst snd].
    split; intros k r Hk; rewrite JsMapFacts.get_empty in Hk; discriminate.
  - intros i ep [gm cm] Hep [Hgm Hcm]. simpl in *.
    rewrite Forall_forall in Hnd.
    destruct (Hnd ep) as [Hg Hc]; [eapply list_elem_of_lookup_2; exact Hep|].
    split.
    + apply seeGuest_allBelow; assumption.
    + apply seeCharacter_allBelow; assumption.
Qed.

Lemma attachImages_allBelow (n : nat) (images : option (gmap string string))
    (m : JsMap.t string Ent.t) :
  allBelow n m -> allBelow n (attachImages images m).
Proof.
  intros Hm k r. unfold attachImages. rewrite JsMapFacts.get_forEachValue.
  destruct (JsMap.get m k) as [r0|] eqn:Hr0; [|discriminate].
  intros [= <-]. exact (Hm k r0 Hr0).
Qed.

Lemma indexedBelow_min_max (n : nat) (r : Ent.t) :
  indexedBelow n r ->
  strictly_ascending (Ent.episodes r)
  /\ is_minimum (Ent.firstIdx r) (Ent.episodes r)
  /\ is_maximum (Ent.lastIdx r) (Ent.episodes r).
Proof.
  intros [Hs [Hh [Hl _]]]. split; [exact Hs|].
  unfold is_minimum, is_maximum, strictly_ascending in *. split.
  - apply head_Some in Hh as [l' Hl']. rewrite Hl' in *.
    split; [left|]. apply StronglySorted_cons in Hs as [Hall _].
    constructor; [lia|]. eapply Forall_impl; [exact Hall|]. simpl. intros; lia.
  - apply last_Some in Hl as [l' Hl']. rewrite Hl' in *.
    split; [apply elem_of_app; right; left|].
    apply Forall_app. split; [|repeat constructor].
    apply Forall_forall. intros x Hx.
    assert (x < Ent.lastIdx r)%nat; [|lia].
    eapply StronglySorted_app_1_elem_of; [exact Hs | exact Hx | left].
Qed.

(** C2: when no name comes twice in the guest list or in the character
    list of one episode, every entry of the guest map and of the character
    map has strictly ascending [episodes] (so without duplicates), whose
    minimum is [firstIdx] and whose maximum is [lastIdx]. *)
Theorem loadData_entities_ascending (raw : Raw.data) (data : Data.t) :
  loadData (Some raw) = Some data ->
  Forall noRepeats (Data.episodes data) ->
  forall r : Ent.t,
    r ∈ JsMap.values (Data.guestMap data)
    \/ r ∈ JsMap.values (Data.characterMap data) ->
    strictly_ascending (Ent.episodes r)
    /\ is_minimum (Ent.firstIdx r) (Ent.episodes r)
    /\ is_maximum (Ent.lastIdx r) (Ent.episodes r).
Proof.
  intros [= <-] Hnd r Hr. simpl in *.
  destruct (buildMaps_allBelow _ Hnd) as [Hgm Hcm].
  destruct Hr as [Hr | Hr]; apply JsMapFacts.elem_of_values in Hr as [k Hk].
  - eapply indexedBelow_min_max.
    exact (attachImages_allBelow _ _ _ Hgm k r Hk).
  - eapply indexedBelow_min_max.
    exact (attachImages_allBelow _ _ _ Hcm k r Hk).
Qed.

(** Without the premise the entry repeats the index: a guest named twice in
    one episode gets that episode twice. *)
Example seeGuest_twice :
  Ent.episodes <$> JsMap.get (foldl (seeGuest 0) JsMap.empty ["A"; "A"]%string) "A"%string
  = Some [0%nat; 0%nat].
Proof. vm_compute. reflexivity. Qed.

(** ** [playedBy] *)

Lemma playedByUnion_new (episodes : list Ep.t) (c : string) (idx : nat) :
  playedByUnion episodes (newCharacter c idx).
Proof.
  exists []. split; [reflexivity|]. split; [apply NoDup_nil_2|].
  intros g. split; [intros Hg; inversion Hg|].
  intros [j [ep [Hj _]]]. inversion Hj.
Qed.

Lemma playedByUnion_sighting (episodes : list Ep.t) (idx : nat) (ep : Ep.t)
    (r : Ent.t) :
  episodes !! idx = Some ep ->
  playedByUnion episodes r ->
  playedByUnion episodes
    (foldl Ent.add_guest (Ent.set_lastIdx idx (Ent.push_episode idx r))
           (Ep.guests ep)).
Proof.
  intros Hep [gs [Hgs [Hnd Hiff]]]. unfold playedByUnion, playedIn in *.
  destruct (foldl_add_guest_fields (Ep.guests ep)
              (Ent.set_lastIdx idx (Ent.push_episode idx r)))
    as [-> [_ [_ ->]]].
  simpl. rewrite Hgs. simpl.
  exists (foldl JsSet.add gs (Ep.guests ep)).
  split; [reflexivity|]. split; [apply JsSetFacts.NoDup_foldl_add, Hnd|].
  intros g. rewrite JsSetFacts.elem_of_foldl_add, Hiff. split.
  - intros [[j [ep' [Hj [Hep' Hg]]]] | Hg].
    + exists j, ep'. rewrite elem_of_app. auto.
    + exists idx, ep. rewrite elem_of_app, list_elem_of_singleton. auto.
  - intros [j [ep' [Hj [Hep' Hg]]]].
    apply elem_of_app in Hj as [Hj | Hj].
    + left. exists j, ep'. auto.
    + apply list_elem_of_singleton in Hj. subst j.
      right. congruence.
Qed.

Lemma seeCharacter_allPlayed (episodes : list Ep.t) (idx : nat) (ep : Ep.t)
    (names : list string) (m : JsMap.t string Ent.t) :
  episodes !! idx = Some ep ->
  allPlayed episodes m ->
  allPlayed episodes (foldl (seeCharacter idx (Ep.guests ep)) m names).
Proof.
  intros Hep. revert m. induction names as [|c names IH]; intros m Hm;
    [exact Hm|].
  simpl. apply IH. intros k r. unfold seeCharacter.
  rewrite JsMapFacts.get_upsert. destruct (decide (c = k)) as [<-|Hne].
  - intros [= <-]. apply playedByUnion_sighting; [exact Hep|].
    destruct (JsMap.get m c) as [r0|] eqn:Hr0; simpl.
    + exact (Hm c r0 Hr0).
    + apply playedByUnion_new.
  - apply Hm.
Qed.

Lemma buildMaps_allPlayed (episodes : list Ep.t) :
  allPlayed episodes (snd (buildMaps episodes)).
Proof.
  unfold buildMaps.
  apply (JsArrayFacts.forEach_invariant indexEpisode
           (fun _ maps => allPlayed episodes (snd maps))).
  - cbn [snd]. intros k r Hk. rewrite JsMapFacts.get_empty in Hk. discriminate.
  - intros i ep [gm cm] Hep Hcm. simpl in *.
    apply seeCharacter_allPlayed; assumption.
Qed.

(** C8: the [guests] set of every character entry holds exactly the guests
    of the episodes whose index is in the entry's [episodes]. *)
Theorem loadData_playedBy (raw : Raw.data) (data : Data.t) :
  loadData (Some raw) = Some data ->
  forall r : Ent.t,
    r ∈ JsMap.values (Data.characterMap data) ->
    exists playedBy : JsSet.t,
      Ent.guests r = Some playedBy /\ NoDup playedBy
      /\ forall g : string,
           g ∈ playedBy <->
           exists j ep, j ∈ Ent.episodes r
                        /\ Data.episodes data !! j = Some ep
                        /\ g ∈ Ep.guests ep.
Proof.
  intros [= <-] r Hr. simpl in *.
  apply JsMapFacts.elem_of_values in Hr as [k Hk].
  unfold attachImages in Hk. rewrite JsMapFacts.get_forEachValue in Hk.
  destruct (JsMap.get (snd (buildMaps (computedEpisodes raw))) k) as [r0|] eqn:Hr0;
    [|discriminate].
  injection Hk as <-.
  exact (buildMaps_allPlayed (computedEpisodes raw) k r0 Hr0).
Qed.

End Indexer.

Lemma loadData_entities_ascending_witness :
  exists data, @loadData Demo.host (Some Demo.corpusMixed) = Some data
    /\ Forall noRepeats (Data.episodes data)
    /\ forall r : Ent.t,
         r ∈ JsMap.values (Data.guestMap data)
         \/ r ∈ JsMap.values (Data.characterMap data) ->
         strictly_ascending (Ent.episodes r)
         /\ is_minimum (Ent.firstIdx r) (Ent.episodes r)
         /\ is_maximum (Ent.lastIdx r) (Ent.episodes r).
Proof.
  eexists. split; [reflexivity|].
  assert (Hnd : Forall noRepeats
                  (@computedEpisodes Demo.host Demo.corpusMixed)).
  { unfold noRepeats. compute_done. }
  split; [exact Hnd|].
  apply (@loadData_entities_ascending Demo.host Demo.corpusMixed);
    [reflexivity | exact Hnd].
Defined.

Lemma loadData_playedBy_witness :
  exists data, @loadData Demo.host (Some Demo.corpusMixed) = Some data
    /\ forall r : Ent.t,
         r ∈ JsMap.values (Data.characterMap data) ->
         exists playedBy : JsSet.t,
           Ent.guests r = Some playedBy /\ NoDup playedBy
           /\ forall g : string,
                g ∈ playedBy <->
                exists j ep, j ∈ Ent.episodes r
                             /\ Data.episodes data !! j = Some ep
                             /\ g ∈ Ep.guests ep.
Proof.
  eexists. split; [reflexivity|].
  apply (@loadData_playedBy Demo.host Demo.corpusMixed). reflexivity.
Defined.

(** The character "x" of the mixed corpus is in the two episodes of date
    3000, whose guests are A, B and B. *)
Example playedBy_corpusMixed :
  (fun data => (fun r => (Ent.episodes r, Ent.guests r))
                 <$> JsMap.get (Data.characterMap data) "x"%string)
    <$> @loadData Demo.host (Some Demo.corpusMixed)
  = Some (Some ([1%nat; 2%nat], Some ["A"; "B"]%string)).
Proof. vm_compute. reflexivity. Qed.

(* ====================================================================== *)
(** * Properties: characters per guest                                    *)
(* ====================================================================== *)

Module NumFacts.
Import Num.

Lemma nonneg_of_nat (n : nat) : nonneg (of_nat n).
Proof.
  exists (inject_Z (Z.of_nat n)). split; [reflexivity|].
  change 0%Q with (inject_Z 0). rewrite <- Zle_Qle. lia.
Qed.

Lemma of_nat_zero (n : nat) : Qeq_bool (inject_Z (Z.of_nat n)) 0 = bool_decide (n = 0%nat).
Proof.
  case_bool_decide as Hn.
  - subst n. reflexivity.
  - apply not_true_iff_false. rewrite Qeq_bool_iff.
    change 0%Q with (inject_Z 0). rewrite inject_Z_injective. lia.
Qed.

(** [c / g] of two lengths, [g] positive. *)
Lemma div_of_nat (c g : nat) :
  (0 < g)%nat -> nonneg (div (of_nat c) (of_nat g)).
Proof.
  intros Hg. unfold div, of_nat. rewrite of_nat_zero.
  rewrite bool_decide_eq_false_2 by lia.
  eexists. split; [reflexivity|].
  apply Qmult_le_0_compat.
  - change 0%Q with (inject_Z 0). rewrite <- Zle_Qle. lia.
  - apply Qinv_le_0_compat. change 0%Q with (inject_Z 0).
    rewrite <- Zle_Qle. lia.
Qed.

(** [c / 0] of a length. *)
Lemma div_of_nat_zero (c : nat) :
  div (of_nat c) (of_nat 0) = NaN \/ div (of_nat c) (of_nat 0) = PosInfinity.
Proof.
  unfold div, of_nat. rewrite !of_nat_zero. simpl.
  case_bool_decide as Hc; [left; reflexivity|]. right.
  unfold Qlt_bool.
  replace (Qle_bool (inject_Z (Z.of_nat c)) 0) with false; [reflexivity|].
  symmetry. apply not_true_iff_false. rewrite Qle_bool_iff.
  change 0%Q with (inject_Z 0). rewrite <- Zle_Qle. lia.
Qed.

Lemma max_nonneg (a b : number) : nonneg a -> nonneg b -> nonneg (max a b).
Proof.
  intros [x [-> Hx]] [y [-> Hy]]. simpl.
  destruct (Qle_bool x y); eexists; eauto.
Qed.

Lemma foldl_max_nonneg (l : list number) (a : number) :
  nonneg a -> Forall nonneg l -> nonneg (foldl max a l).
Proof.
  intros Ha Hl. revert a Ha. induction Hl as [|b l Hb _ IH]; intros a Ha; simpl.
  - exact Ha.
  - apply IH, max_nonneg; assumption.
Qed.

End NumFacts.

Section CharactersPerGuest.
Context `{Host}.

Lemma foldl_yearStats_perGuest (l : list (list Ep.t)) (s : Stats.t) :
  Stats.maxCharactersPerGuest (foldl yearStats s l)
  = Stats.maxCharactersPerGuest s.
Proof.
  revert s. induction l as [|y l IH]; intros s; simpl; [reflexivity|].
  rewrite IH. reflexivity.
Qed.

Lemma foldl_episodeStats_perGuest (l : list Ep.t) (s : Stats.t) :
  Stats.maxCharactersPerGuest (foldl episodeStats s l)
  = foldl Num.max (Stats.maxCharactersPerGuest s)
          (map Ep.characters_per_guest (List.filter hasGuests l)).
Proof.
  revert s. induction l as [|ep l IH]; intros s; simpl; [reflexivity|].
  rewrite IH. unfold hasGuests at 2. simpl.
  destruct (0 <? Ep.num_guests ep)%nat; reflexivity.
Qed.

Lemma computed_fields (raw : Raw.data) (ep : Ep.t) :
  ep ∈ computedEpisodes raw ->
  Ep.num_guests ep = length (Ep.guests ep)
  /\ Ep.characters_per_guest ep
     = Num.div (Num.of_nat (length (Ep.characters ep)))
               (Num.of_nat (length (Ep.guests ep))).
Proof.
  unfold computedEpisodes. intros Hep.
  apply list_elem_of_lookup in Hep as [i Hi].
  rewrite list_lookup_imap in Hi.
  destruct (sortedEpisodes raw !! i); [|discriminate].
  injection Hi as <-. split; reflexivity.
Qed.

Lemma getEpisodeBaseColor_flat (v maxValue : Num.number) :
  Num.is_zero maxValue = true ->
  getEpisodeBaseColor v maxValue = hsl 210 50 (Num.Fin 60).
Proof. intros Hz. unfold getEpisodeBaseColor. rewrite Hz. reflexivity. Qed.

Lemma getEpisodeBaseColor_finite (q m : Q) :
  Num.is_zero (Num.Fin m) = false ->
  exists l, getEpisodeBaseColor (Num.Fin q) (Num.Fin m) = hsl 210 50 (Num.Fin l).
Proof.
  intros Hz. unfold getEpisodeBaseColor. rewrite Hz. simpl in *. rewrite Hz.
  eexists. reflexivity.
Qed.

Lemma getEpisodeBaseColor_no_data (v : Num.number) (m : Q) :
  v = Num.NaN \/ v = Num.PosInfinity ->
  (0 <= m)%Q ->
  Num.is_zero (Num.Fin m) = false ->
  getEpisodeBaseColor v (Num.Fin m) = hsl 210 50 Num.NaN
  \/ getEpisodeBaseColor v (Num.Fin m) = hsl 210 50 Num.NegInfinity.
Proof.
  intros Hv Hm Hz. unfold getEpisodeBaseColor. rewrite Hz.
  destruct Hv as [-> | ->]; [left; reflexivity|]. right. simpl.
  unfold Num.Qlt_bool.
  replace (Qle_bool 0 m) with true; [reflexivity|].
  symmetry. apply Qle_bool_iff. exact Hm.
Qed.

(** C4: [maxCharactersPerGuest] is the maximum over the episodes that have
    guests, and only over them.  An episode without guests has no finite
    [characters_per_guest] (it is [NaN] or [Infinity], never 0), and the
    colour scaled by characters per guest never gives it the colour of a
    finite value: either the maximum is 0 and every cell gets the flat
    colour whatever its value, or its lightness is [NaN] or [-Infinity]. *)
Theorem stats_maxCharactersPerGuest (raw : Raw.data) (data : Data.t) :
  loadData (Some raw) = Some data ->
  let stats := Data.stats data in
  let maxPerGuest := Stats.maxCharactersPerGuest stats in
  maxPerGuest
  = foldl Num.max (Num.of_nat 0)
          (map Ep.characters_per_guest
               (List.filter hasGuests (Data.episodes data)))
  /\ forall ep : Ep.t,
       ep ∈ Data.episodes data -> Ep.num_guests ep = 0%nat ->
       hasGuests ep = false
       /\ (Ep.characters_per_guest ep = Num.NaN
           \/ Ep.characters_per_guest ep = Num.PosInfinity)
       /\ ((Num.is_zero maxPerGuest = true
            /\ forall v, getEpisodeBaseColor v maxPerGuest
                         = hsl 210 50 (Num.Fin 60))
           \/ (Num.is_zero maxPerGuest = false
               /\ (scaledColor ColorMode.chars_per_guest stats ep
                   = hsl 210 50 Num.NaN
                   \/ scaledColor ColorMode.chars_per_guest stats ep
                      = hsl 210 50 Num.NegInfinity)
               /\ forall q : Q,
                    scaledColor ColorMode.chars_per_guest stats ep
                    <> getEpisodeBaseColor (Num.Fin q) maxPerGuest)).
Proof.
  intros [= <-]. cbn [Data.stats Data.episodes]. cbv zeta.
  set (eps := computedEpisodes raw).
  assert (Hmax : Stats.maxCharactersPerGuest
                   (computeStats (groupByYear eps) eps)
                 = foldl Num.max (Num.of_nat 0)
                     (map Ep.characters_per_guest (List.filter hasGuests eps))).
  { unfold computeStats.
    rewrite foldl_episodeStats_perGuest, foldl_yearStats_perGuest. reflexivity. }
  split; [exact Hmax|].
  intros ep Hep Hnone.
  destruct (computed_fields raw ep Hep) as [Hng Hcpg].
  split; [unfold hasGuests; rewrite Hnone; reflexivity|].
  assert (Hnodata : Ep.characters_per_guest ep = Num.NaN
                    \/ Ep.characters_per_guest ep = Num.PosInfinity).
  { rewrite Hcpg, <- Hng, Hnone. apply NumFacts.div_of_nat_zero. }
  split; [exact Hnodata|].
  assert (Hfin : Num.nonneg
                   (Stats.maxCharactersPerGuest
                      (computeStats (groupByYear eps) eps))).
  { rewrite Hmax. apply NumFacts.foldl_max_nonneg; [apply NumFacts.nonneg_of_nat|].
    apply Forall_forall. intros v Hv.
    apply list_elem_of_fmap in Hv as [ep' [-> Hep']].
    apply list_elem_of_In, filter_In in Hep' as [Hin Hg].
    apply list_elem_of_In in Hin.
    destruct (computed_fields raw ep' Hin) as [Hng' ->].
    apply NumFacts.div_of_nat. unfold hasGuests in Hg.
    apply Nat.ltb_lt in Hg. lia. }
  destruct Hfin as [m [Hm Hpos]].
  destruct (Num.is_zero (Num.Fin m)) eqn:Hz.
  - left. rewrite Hm. split; [exact Hz|].
    intros v. apply getEpisodeBaseColor_flat. exact Hz.
  - right. rewrite Hm. split; [exact Hz|].
    unfold scaledColor. rewrite Hm.
    pose proof (getEpisodeBaseColor_no_data _ m Hnodata Hpos Hz) as Hcol.
    split; [exact Hcol|].
    intros q. destruct (getEpisodeBaseColor_finite q m Hz) as [l ->].
    destruct Hcol as [-> | ->]; discriminate.
Qed.

End CharactersPerGuest.

Lemma stats_maxCharactersPerGuest_witness :
  exists data, @loadData Demo.host (Some Demo.corpusMixed) = Some data
    /\ Stats.maxCharactersPerGuest (Data.stats data)
       = foldl Num.max (Num.of_nat 0)
               (map Ep.characters_per_guest
                    (List.filter hasGuests (Data.episodes data))).
Proof.
  eexists. split; [reflexivity|].
  apply (@stats_maxCharactersPerGuest Demo.host Demo.corpusMixed). reflexivity.
Defined.

(** In the mixed corpus the first episode has a character and no guest:
    its ratio is [Infinity], the maximum is 2 all the same, and its scaled
    lightness is [-Infinity]. *)
Example perGuest_corpusMixed :
  (fun data =>
     (Stats.maxCharactersPerGuest (Data.stats data),
      (fun ep => (Ep.num_guests ep, Ep.characters_per_guest ep,
                  scaledColor ColorMode.chars_per_guest (Data.stats data) ep))
        <$> Data.episodes data !! 0%nat))
    <$> @loadData Demo.host (Some Demo.corpusMixed)
  = Some (Num.Fin 2,
          Some (0%nat, Num.PosInfinity, hsl 210 50 Num.NegInfinity)).
Proof. vm_compute. reflexivity. Qed.

(* ====================================================================== *)
(** * Properties: the entity query                                        *)
(* ====================================================================== *)

Module JsStringFacts.

Lemma prefix_spec (q s : string) :
  String.prefix q s = true <-> exists post, s = String.append q post.
Proof.
  revert s. induction q as [|a q IH]; intros s.
  - split; [intros _; exists s; reflexivity | destruct s; reflexivity].
  - destruct s as [|b s]; simpl.
    + split; [discriminate | intros [post Hpost]; discriminate].
    + destruct (Ascii.ascii_dec a b) as [->|Hne].
      * rewrite IH. split; intros [post Hpost]; exists post.
        -- rewrite Hpost. reflexivity.
        -- simpl in Hpost. injection Hpost as ->. reflexivity.
      * split; [discriminate|]. intros [post Hpost]. simpl in Hpost.
        injection Hpost as -> _. contradiction.
Qed.

(** [includes] finds [q] somewhere in [s]. *)
Lemma includes_spec (s q : string) :
  Js.includes s q = true <->
  exists pre post, s = String.append pre (String.append q post).
Proof.
  induction s as [|c s IH]; cbn [Js.includes].
  - rewrite orb_false_r, prefix_spec. split.
    + intros [post Hpost]. exists EmptyString, post. exact Hpost.
    + intros [pre [post Hs]]. destruct pre; [|discriminate]. exists post. exact Hs.
  - rewrite orb_true_iff, prefix_spec, IH. split.
    + intros [[post Hpost] | [pre [post Hs]]].
      * exists EmptyString, post. exact Hpost.
      * exists (String c pre), post. simpl. rewrite Hs. reflexivity.
    + intros [pre [post Hs]]. destruct pre as [|c' pre]; simpl in Hs.
      * left. exists post. exact Hs.
      * right. injection Hs as -> ->. exists pre, post. reflexivity.
Qed.

End JsStringFacts.

Section QueryFacts.
Context `{Host}.

Lemma filter_all_true {A : Type} (l : list A) : List.filter (fun _ => true) l = l.
Proof. induction l as [|a l IH]; simpl; congruence. Qed.

Lemma sortedEntities_unfold (guestMap characterMap : JsMap.t string Ent.t)
    (type : entityType) (sortBy : SortBy.t) (searchQuery : string) :
  let map := match type with guest => guestMap | character => characterMap end in
  let entities := List.filter (matchesQuery searchQuery) (JsMap.values map) in
  sortedEntities guestMap characterMap type sortBy searchQuery
  = match sortBy with
    | SortBy.appearances => JsArray.sort byAppearances entities
    | SortBy.first => JsArray.sort byFirst entities
    | SortBy.last => JsArray.sort byLast entities
    | SortBy.name => JsArray.sort byName entities
    end.
Proof.
  cbv zeta. unfold sortedEntities, matchesQuery.
  destruct (Js.truthy (Some searchQuery)); [reflexivity|].
  rewrite filter_all_true. reflexivity.
Qed.

Lemma matchesQuery_spec (searchQuery : string) (e : Ent.t) :
  matchesQuery searchQuery e = true <->
  searchQuery = ""%string
  \/ exists pre post,
       String_toLowerCase (Ent.name e)
       = String.append pre (String.append (String_toLowerCase searchQuery) post).
Proof.
  unfold matchesQuery, nameIncludes. simpl.
  destruct (String.eqb_spec searchQuery "") as [->|Hne]; simpl.
  - split; auto.
  - rewrite JsStringFacts.includes_spec. split; [auto|].
    intros [Hq | Hin]; [contradiction | exact Hin].
Qed.

(** C7: the query returns the entries of the map of the selected kind whose
    lower-cased name contains the lower-cased search text (all of them when
    the text is empty), each once, in the order of the sort key: most
    appearances first, latest [lastIdx] first, earliest [firstIdx] first, or
    by [localeCompare] of the names.  On the corpus with guest A in the
    first and third episodes and guest B in the second, sorting by
    appearances gives A then B, and the search text "b" gives B alone. *)
Theorem sortedEntities_spec (guestMap characterMap : JsMap.t string Ent.t)
    (type : entityType) (sortBy : SortBy.t) (searchQuery : string) :
  let map := match type with guest => guestMap | character => characterMap end in
  let result := sortedEntities guestMap characterMap type sortBy searchQuery in
  Permutation result (List.filter (matchesQuery searchQuery) (JsMap.values map))
  /\ (forall e : Ent.t,
        e ∈ result <->
        e ∈ JsMap.values map
        /\ (searchQuery = ""%string
            \/ exists pre post,
                 String_toLowerCase (Ent.name e)
                 = String.append pre
                     (String.append (String_toLowerCase searchQuery) post)))
  /\ match sortBy with
     | SortBy.appearances =>
         StronglySorted
           (fun a b => (length (Ent.episodes b) <= length (Ent.episodes a))%nat)
           result
     | SortBy.last =>
         StronglySorted (fun a b => (Ent.lastIdx b <= Ent.lastIdx a)%nat) result
     | SortBy.first =>
         StronglySorted (fun a b => (Ent.firstIdx a <= Ent.firstIdx b)%nat) result
     | SortBy.name =>
         (forall a b, 0 < String_localeCompare a b ->
                      String_localeCompare b a <= 0) ->
         Sorted (fun a b => String_localeCompare (Ent.name a) (Ent.name b) <= 0)
                result
     end
  /\ (fun data =>
        (List.map Ent.name
           (@sortedEntities Demo.host (Data.guestMap data) (Data.characterMap data)
              guest SortBy.appearances ""),
         List.map Ent.name
           (@sortedEntities Demo.host (Data.guestMap data) (Data.characterMap data)
              guest SortBy.appearances "b")))
       <$> @loadData Demo.host (Some Demo.corpusAB)
     = Some (["A"; "B"], ["B"])%string.
Proof.
  cbv zeta. rewrite sortedEntities_unfold. cbv zeta.
  set (entities := List.filter (matchesQuery searchQuery) _).
  assert (Hperm : forall cmp, Permutation (JsArray.sort cmp entities) entities)
    by (intros cmp; apply JsArrayFacts.sort_perm).
  split; [destruct sortBy; apply Hperm|].
  split.
  { intros e.
    transitivity (e ∈ entities).
    - destruct sortBy; rewrite (Hperm _); reflexivity.
    - unfold entities. rewrite !list_elem_of_In, filter_In, matchesQuery_spec.
      reflexivity. }
  split; [|vm_compute; reflexivity].
  destruct sortBy.
  - apply JsArrayFacts.sort_StronglySorted; unfold byAppearances; intros; lia.
  - apply JsArrayFacts.sort_StronglySorted; unfold byFirst; intros; lia.
  - apply JsArrayFacts.sort_StronglySorted; unfold byLast; intros; lia.
  - intros Hconnex.
    apply (JsArrayFacts.sort_Sorted byName). intros a b. apply Hconnex.
Qed.

End QueryFacts.

Lemma compareZ_connex (a b : string) :
  0 < Demo.compareZ a b -> Demo.compareZ b a <= 0.
Proof.
  unfold Demo.compareZ. rewrite (String.compare_antisym b a).
  destruct (String.compare a b); simpl; lia.
Qed.

(** The guests of the mixed corpus by name. *)
Lemma sortedEntities_spec_witness :
  exists data, @loadData Demo.host (Some Demo.corpusMixed) = Some data
    /\ Sorted (fun a b => Demo.compareZ (Ent.name a) (Ent.name b) <= 0)
         (@sortedEntities Demo.host (Data.guestMap data) (Data.characterMap data)
            guest SortBy.name "").
Proof.
  eexists. split; [reflexivity|].
  apply (@sortedEntities_spec Demo.host _ _ guest SortBy.name ""%string).
  exact compareZ_connex.
Defined.

(* ====================================================================== *)
(** * Properties: cell sizing                                             *)
(* ====================================================================== *)

Lemma updateCellSize_size (containerWidth maxEpisodesInYear : Z) :
  (inject_Z (containerWidth - 32 - 40 - 30 - (maxEpisodesInYear - 1) * 1)
   / inject_Z maxEpisodesInYear)%Q
  = computeCellSize containerWidth maxEpisodesInYear 102 1.
Proof.
  unfold computeCellSize. do 2 f_equal. lia.
Qed.

(** C9: when the size computed from the container width, the fixed overhead
    of 102px and the gaps of 1px is below 4, [updateCellSize] leaves the
    state as it is (whatever cell size the effect had captured), and so does
    the effect's immediate call; nothing is raised, the functions being
    total. *)
Theorem updateCellSize_rejects_small (containerWidth maxEpisodesInYear : Z)
    (s : App.t) :
  maxEpisodesInYear <> 0 ->
  (computeCellSize containerWidth maxEpisodesInYear 102 1 < 4)%Q ->
  (forall cellSize : Q,
     updateCellSize cellSize containerWidth maxEpisodesInYear s = s)
  /\ cellSizeEffect (Some containerWidth) maxEpisodesInYear s = s
  /\ App.cellSize (cellSizeEffect (Some containerWidth) maxEpisodesInYear s)
     = App.cellSize s.
Proof.
  intros Hn Hsmall.
  assert (Hupd : forall cellSize : Q,
             updateCellSize cellSize containerWidth maxEpisodesInYear s = s).
  { intros cellSize. unfold updateCellSize.
    destruct (containerWidth =? 0); [reflexivity|]. cbv zeta.
    rewrite updateCellSize_size.
    replace (Qle_bool 4 (computeCellSize containerWidth maxEpisodesInYear 102 1))
      with false; [reflexivity|].
    symmetry. apply not_true_iff_false. rewrite Qle_bool_iff.
    apply Qlt_not_le. exact Hsmall. }
  assert (Heff : cellSizeEffect (Some containerWidth) maxEpisodesInYear s = s).
  { unfold cellSizeEffect. destruct (maxEpisodesInYear =? 0); [reflexivity|].
    apply Hupd. }
  split; [exact Hupd|]. split; [exact Heff|]. rewrite Heff. reflexivity.
Qed.

(** A container of 200px for rows of 50 episodes: (200 - 102 - 49) / 50. *)
Lemma updateCellSize_rejects_small_witness :
  (computeCellSize 200 50 102 1 < 4)%Q
  /\ cellSizeEffect (Some 200) 50 App.initial = App.initial.
Proof.
  assert (Hsmall : (computeCellSize 200 50 102 1 < 4)%Q) by reflexivity.
  split; [exact Hsmall|].
  apply (updateCellSize_rejects_small 200 50 App.initial); [lia | exact Hsmall].
Defined.

(** A wide enough container is accepted: 902px for rows of 50 give 15.02px. *)
Example updateCellSize_accepts :
  App.cellSize (cellSizeEffect (Some 902) 50 App.initial) = (751 # 50)%Q.
Proof. reflexivity. Qed.

(* ====================================================================== *)
(** * Properties: selecting an entity                                     *)
(* ====================================================================== *)

(** C6, as the code has it: a click on a row of the entity list selects the
    entity, or clears the selection when that entity is the selected one,
    and leaves the entity kind (the kind of the listed entities) as it is;
    a click on a guest or character chip, or on a related entity, selects
    the entity and sets the entity kind to the entity's kind, whatever was
    selected before. *)
Theorem select_entity_clicks :
  (forall (s : App.t) (name : string),
     let s' := clickEntityListItem name s in
     (App.selectedEntity s = Some name -> App.selectedEntity s' = None)
     /\ (App.selectedEntity s <> Some name -> App.selectedEntity s' = Some name)
     /\ App.entityType_ s' = App.entityType_ s)
  /\ (forall (s : App.t) (type : entityType) (name : string),
        let s' := clickEntityChip type name s in
        App.selectedEntity s' = Some name /\ App.entityType_ s' = type).
Proof.
  split.
  - intros s name. cbv zeta. unfold clickEntityListItem. simpl.
    split; [|split; [|reflexivity]]; intros Hsel.
    + rewrite bool_decide_eq_true_2 by exact Hsel. reflexivity.
    + rewrite bool_decide_eq_false_2 by exact Hsel. reflexivity.
  - intros s type name. split; reflexivity.
Qed.

(** C6 as it was claimed fails on the chips: with guest "A" selected, a
    click on the chip of guest "A" keeps "A" selected. *)
Lemma chip_click_keeps_selection :
  let s := App.setSelectedEntity (Some "A"%string) App.initial in
  App.selectedEntity s = Some "A"%string
  /\ App.entityType_ s = guest
  /\ App.selectedEntity (clickEntityChip guest "A" s) <> None.
Proof. cbv zeta. split; [reflexivity|]. split; [reflexivity|]. discriminate. Qed.

(* ====================================================================== *)
(** * Properties: the debounced hover                                     *)
(* ====================================================================== *)

Lemma clearPendingHover_quiet (w : World.t) :
  World.timers w = [] ->
  World.timers (clearPendingHover w) = []
  /\ World.hoverLog (clearPendingHover w) = World.hoverLog w
  /\ World.nextTimerId (clearPendingHover w) = World.nextTimerId w
  /\ World.now (clearPendingHover w) = World.now w.
Proof.
  intros Hq. unfold clearPendingHover.
  destruct (World.hoverTimeoutRef w) as [id|]; [|auto].
  destruct (id =? 0)%nat; [auto|].
  unfold clearTimeout. simpl. rewrite Hq. auto.
Qed.

Lemma advanceTo_quiet (t : Z) (w : World.t) :
  World.timers w = [] ->
  World.timers (advanceTo t w) = []
  /\ World.hoverLog (advanceTo t w) = World.hoverLog w
  /\ World.nextTimerId (advanceTo t w) = World.nextTimerId w
  /\ World.now (advanceTo t w) = t.
Proof.
  intros Hq. unfold advanceTo. rewrite Hq. simpl. auto.
Qed.

(** The first hover of a burst, in a world without pending timers. *)
Lemma first_hover (t : Z) (idx : nat) (w : World.t) :
  World.timers w = [] -> (0 < World.nextTimerId w)%nat ->
  pendingHover t idx (World.hoverLog w)
    (handle (MouseEnterCell idx) (advanceTo t w)).
Proof.
  intros Hq Hid.
  destruct (advanceTo_quiet t w Hq) as [Hq1 [Hlog1 [Hid1 Hnow1]]].
  destruct (clearPendingHover_quiet _ Hq1) as [Hq2 [Hlog2 [Hid2 Hnow2]]].
  unfold handle, setHoveredEpisodeDebounced, setTimeout, pendingHover. simpl.
  split; [congruence|].
  exists (World.nextTimerId w).
  rewrite Hq2, Hid2, Hid1, Hnow2, Hnow1. simpl.
  split; [lia|]. auto.
Qed.

(** A further hover, made before the pending timer is due. *)
Lemma next_hover (t t' : Z) (idx idx' : nat) (log : list (Z * option nat))
    (w : World.t) :
  t' < t + 50 ->
  pendingHover t idx log w ->
  pendingHover t' idx' log (handle (MouseEnterCell idx') (advanceTo t' w)).
Proof.
  intros Ht [Hlog [id [Hid [Href [Htimers Hnext]]]]].
  assert (Hadv : advanceTo t' w = World.set_now t' w).
  { unfold advanceTo, isDue. rewrite Htimers. simpl.
    replace (t + 50 <=? t') with false by (symmetry; apply Z.leb_gt; lia).
    simpl. unfold World.set_timers. rewrite <- Htimers.
    destruct w; reflexivity. }
  rewrite Hadv.
  unfold handle, setHoveredEpisodeDebounced, clearPendingHover, pendingHover.
  simpl. rewrite Href.
  replace (id =? 0)%nat with false by (symmetry; apply Nat.eqb_neq; exact Hid).
  unfold setTimeout, clearTimeout. simpl. rewrite Htimers, Hnext. simpl.
  rewrite Nat.eqb_refl. simpl.
  split; [exact Hlog|]. exists (S id). auto.
Qed.

Lemma run_cons (te : Z * event) (evs : list (Z * event)) (w : World.t) :
  run (te :: evs) w = run evs (handle (snd te) (advanceTo (fst te) w)).
Proof. reflexivity. Qed.

Lemma run_burst (evs : list (Z * nat)) (t : Z) (idx : nat)
    (log : list (Z * option nat)) (w : World.t) :
  burst ((t, idx) :: evs) ->
  pendingHover t idx log w ->
  exists t' idx',
    last ((t, idx) :: evs) = Some (t', idx')
    /\ pendingHover t' idx' log (run (hovers evs) w).
Proof.
  revert t idx w. induction evs as [|[t2 idx2] evs IH]; intros t idx w Hb Hw.
  - exists t, idx. split; [reflexivity | exact Hw].
  - destruct Hb as [Hgap Hb]. simpl hovers. rewrite run_cons. simpl fst. simpl snd.
    destruct (IH t2 idx2 (handle (MouseEnterCell idx2) (advanceTo t2 w)) Hb)
      as [t' [idx' [Hlast Hw']]].
    + apply (next_hover t t2 idx idx2); [lia | exact Hw].
    + exists t', idx'. split; [|exact Hw'].
      rewrite last_cons_cons. exact Hlast.
Qed.

Lemma settle_pending (t : Z) (idx : nat) (log : list (Z * option nat))
    (w : World.t) :
  pendingHover t idx log w ->
  World.hoverLog (settle w) = log ++ [(t + 50, Some idx)]
  /\ App.hoveredEpisode (World.app (settle w)) = Some idx
  /\ World.timers (settle w) = [].
Proof.
  intros [Hlog [id [_ [_ [Htimers _]]]]].
  unfold settle. rewrite Htimers. simpl. rewrite Hlog. auto.
Qed.

(** C5: a burst of hovers (each made before the timer of the one before it
    is due, 50 after it) in a world without pending timers, followed by
    silence, makes exactly one call of [setHoveredEpisode]: 50 after the
    last hover, with the cell of the last hover.  Hovers at 0, 10, 20 and 30
    give one update at 80 for the cell hovered at 30. *)
Theorem debounced_hover_burst (evs : list (Z * nat)) (w : World.t)
    (t : Z) (idx : nat) :
  World.timers w = [] -> (0 < World.nextTimerId w)%nat ->
  burst evs ->
  last evs = Some (t, idx) ->
  let w' := settle (run (hovers evs) w) in
  World.hoverLog w' = World.hoverLog w ++ [(t + 50, Some idx)]
  /\ App.hoveredEpisode (World.app w') = Some idx
  /\ World.timers w' = [].
Proof.
  intros Hq Hid Hb Hlast. cbv zeta.
  destruct evs as [|[t1 idx1] evs]; [discriminate|].
  simpl hovers. rewrite run_cons. simpl fst. simpl snd.
  destruct (run_burst evs t1 idx1 (World.hoverLog w)
              (handle (MouseEnterCell idx1) (advanceTo t1 w)) Hb)
    as [t' [idx' [Hlast' Hw']]].
  - apply first_hover; assumption.
  - rewrite Hlast in Hlast'. injection Hlast' as <- <-.
    apply (settle_pending t idx). exact Hw'.
Qed.

Lemma debounced_hover_burst_witness :
  burst [(0, 4%nat); (10, 5%nat); (20, 6%nat); (30, 7%nat)]
  /\ World.hoverLog
       (settle (run (hovers [(0, 4%nat); (10, 5%nat); (20, 6%nat); (30, 7%nat)])
                    World.initial))
     = [(80, Some 7%nat)].
Proof.
  assert (Hb : burst [(0, 4%nat); (10, 5%nat); (20, 6%nat); (30, 7%nat)])
    by (simpl; lia).
  split; [exact Hb|].
  apply (debounced_hover_burst
           [(0, 4%nat); (10, 5%nat); (20, 6%nat); (30, 7%nat)]
           World.initial 30 7%nat);
    [reflexivity | simpl; lia | exact Hb | reflexivity].
Defined.

(** Hovers further apart than the delay are no burst: each one fires. *)
Example hovers_apart :
  World.hoverLog (settle (run (hovers [(0, 4%nat); (60, 5%nat)]) World.initial))
  = [(50, Some 4%nat); (110, Some 5%nat)].
Proof. reflexivity. Qed.

(** Leaving the row cancels the pending hover and clears at once. *)
Example leave_cancels :
  World.hoverLog
    (settle (run [(0, MouseEnterCell 4); (10, MouseLeaveRow)] World.initial))
  = [(10, None)].
Proof. reflexivity. Qed.

(* ====================================================================== *)
(** * Properties: the lookup maps, exactly                                *)
(* ====================================================================== *)

Module JsMapWf.
Import JsMap.

Section Wf.
Context {K : Type} `{Countable K} {V : Type}.
Implicit Types (m : JsMap.t K V) (k : K) (v : V).

Lemma mapWf_empty : mapWf (empty : JsMap.t K V).
Proof.
  split; [apply NoDup_nil_2|]. intros k. unfold get. simpl.
  rewrite lookup_empty. split; [intros Hk; inversion Hk | intros [v Hv]; discriminate].
Qed.

Lemma mapWf_set m k v : mapWf m -> mapWf (set m k v).
Proof.
  intros [Hnd Hdom]. unfold mapWf, set, get in *. simpl.
  destruct (has m k) eqn:Hhas.
  - apply JsMapFacts.has_true in Hhas. split; [exact Hnd|].
    intros k'. rewrite Hdom. rewrite lookup_insert.
    destruct (decide (k = k')) as [<-|Hne]; [|reflexivity].
    split; [eauto | intros _; exact Hhas].
  - assert (Hnot : k ∉ order m).
    { intros Hin. apply Hdom in Hin. apply JsMapFacts.has_true in Hin. congruence. }
    split.
    + apply NoDup_app. split; [exact Hnd|]. split; [|apply NoDup_singleton].
      intros x Hx Hxk. apply list_elem_of_singleton in Hxk. subst x. contradiction.
    + intros k'. rewrite elem_of_app, list_elem_of_singleton, Hdom, lookup_insert.
      destruct (decide (k = k')) as [<-|Hne].
      * split; [eauto | auto].
      * split; [intros [Hk | Hk]; [exact Hk | congruence] | auto].
Qed.

Lemma mapWf_modify m k (f : V -> V) : mapWf m -> mapWf (modify m k f).
Proof.
  intros [Hnd Hdom]. split; [exact Hnd|]. intros k'. simpl.
  rewrite Hdom, JsMapFacts.get_modify.
  destruct (decide (k = k')) as [<-|Hne]; [|reflexivity].
  destruct (get m k); simpl; split; intros [x Hx]; eauto; discriminate.
Qed.

Lemma mapWf_forEachValue (f : V -> K -> V) m :
  mapWf m -> mapWf (forEachValue f m).
Proof.
  intros [Hnd Hdom]. split; [exact Hnd|]. intros k. simpl.
  rewrite Hdom, JsMapFacts.get_forEachValue.
  destruct (get m k); simpl; split; intros [x Hx]; eauto; discriminate.
Qed.

Lemma mapWf_upsert m k (fresh : V) (upd : V -> V) :
  mapWf m ->
  mapWf (modify (if negb (has m k) then set m k fresh else m) k upd).
Proof.
  intros Hm. apply mapWf_modify. destruct (negb (has m k)); [|exact Hm].
  apply mapWf_set. exact Hm.
Qed.

(** What [get] finds is among the [values]. *)
Lemma get_values m k v : mapWf m -> get m k = Some v -> v ∈ values m.
Proof.
  intros [_ Hdom] Hk. unfold values. apply list_elem_of_omap.
  exists k. split; [|exact Hk]. apply Hdom. rewrite Hk. eauto.
Qed.

(** The values come one per key, in key order. *)
Lemma values_keys m (key : V -> K) :
  (forall k v, get m k = Some v -> key v = k) ->
  mapWf m -> map key (values m) = order m.
Proof.
  intros Hkey [_ Hdom]. unfold values.
  assert (Hall : forall k, k ∈ order m -> is_Some (get m k))
    by (intros k; apply Hdom).
  clear Hdom. induction (order m) as [|k l IH]; [reflexivity|].
  destruct (Hall k) as [v Hv]; [left|].
  cbn [omap list_omap]. unfold get in Hv. rewrite Hv. simpl.
  rewrite (Hkey k v Hv). f_equal. apply IH.
  intros k' Hk'. apply Hall. right. exact Hk'.
Qed.

End Wf.

End JsMapWf.

Section CrossReference.
Context `{Host}.

Lemma occurrences_snoc (k x : string) (seen : list string) :
  occurrences k (seen ++ [x])
  = (occurrences k seen + (if decide (x = k) then 1 else 0))%nat.
Proof.
  unfold occurrences. rewrite List.filter_app, length_app. simpl.
  destruct (String.eqb_spec k x) as [->|Hne].
  - rewrite decide_True by reflexivity. reflexivity.
  - rewrite decide_False by congruence. reflexivity.
Qed.

Lemma occurrences_pos (k : string) (names : list string) :
  occurrences k names <> 0%nat <-> k ∈ names.
Proof.
  unfold occurrences. induction names as [|x names IH]; simpl.
  - split; [congruence | intros Hk; inversion Hk].
  - rewrite elem_of_cons. destruct (String.eqb_spec k x) as [->|Hne]; simpl.
    + split; [auto | discriminate].
    + rewrite IH. split; [auto | intros [Hk | Hk]; [contradiction | exact Hk]].
Qed.

Lemma appearancesFrom_app (names : Ep.t -> list string) (k : string)
    (i : nat) (l1 l2 : list Ep.t) :
  appearancesFrom names k i (l1 ++ l2)
  = appearancesFrom names k i l1
    ++ appearancesFrom names k (i + length l1) l2.
Proof.
  revert i. induction l1 as [|ep l1 IH]; intros i; simpl.
  - rewrite Nat.add_0_r. reflexivity.
  - rewrite IH, <- app_assoc. do 3 f_equal. lia.
Qed.

Lemma appearances_take_S (names : Ep.t -> list string) (k : string)
    (eps : list Ep.t) (idx : nat) (ep : Ep.t) :
  eps !! idx = Some ep ->
  appearances names k (take (S idx) eps)
  = appearances names k (take idx eps)
    ++ replicate (occurrences k (names ep)) idx.
Proof.
  intros Hep. rewrite (take_S_r _ _ _ Hep). unfold appearances.
  rewrite appearancesFrom_app. simpl. rewrite app_nil_r.
  rewrite length_take_le; [reflexivity|].
  apply lookup_lt_Some in Hep. lia.
Qed.

Lemma elem_of_appearancesFrom (names : Ep.t -> list string) (k : string)
    (eps : list Ep.t) (o j : nat) :
  j ∈ appearancesFrom names k o eps <->
  exists i ep, j = (o + i)%nat /\ eps !! i = Some ep /\ k ∈ names ep.
Proof.
  revert o. induction eps as [|ep eps IH]; intros o; simpl.
  - split; [intros Hj; inversion Hj | intros [i [ep [_ [Hep _]]]]; discriminate].
  - rewrite elem_of_app, elem_of_replicate, occurrences_pos, IH. split.
    + intros [[-> Hk] | [i [ep' [-> [Hep' Hk]]]]].
      * exists 0%nat, ep. split; [lia | auto].
      * exists (S i), ep'. split; [lia | auto].
    + intros [[|i] [ep' [-> [Hep' Hk]]]]; simpl in Hep'.
      * injection Hep' as <-. left. split; [lia | exact Hk].
      * right. exists i, ep'. split; [lia | auto].
Qed.

(** An index is among the appearances of [k] exactly when the episode at
    that index names [k]. *)
Lemma elem_of_appearances (names : Ep.t -> list string) (k : string)
    (eps : list Ep.t) (j : nat) :
  j ∈ appearances names k eps <->
  exists ep, eps !! j = Some ep /\ k ∈ names ep.
Proof.
  unfold appearances. rewrite elem_of_appearancesFrom. split.
  - intros [i [ep [-> Hep]]]. exists ep. exact Hep.
  - intros [ep Hep]. exists j, ep. auto.
Qed.

Lemma appearancesFrom_ascending (names : Ep.t -> list string) (k : string)
    (eps : list Ep.t) (o : nat) :
  StronglySorted le (appearancesFrom names k o eps).
Proof.
  revert o. induction eps as [|ep eps IH]; intros o; simpl; [constructor|].
  apply StronglySorted_app_2; [| |apply IH].
  - intros x1 x2 Hx1 Hx2. apply elem_of_replicate in Hx1 as [-> _].
    apply elem_of_appearancesFrom in Hx2 as [i [ep' [-> _]]]. lia.
  - induction (occurrences k (names ep)) as [|n IHn]; simpl; constructor.
    + exact IHn.
    + apply Forall_forall. intros x Hx. apply elem_of_replicate in Hx as [-> _]. lia.
Qed.

Lemma entryOf_fields (k : string) (l : list nat) (r r' : Ent.t) :
  Ent.name r' = Ent.name r -> Ent.episodes r' = Ent.episodes r ->
  Ent.firstIdx r' = Ent.firstIdx r -> Ent.lastIdx r' = Ent.lastIdx r ->
  entryOf k l r -> entryOf k l r'.
Proof.
  intros Hn He Hf Hl. unfold entryOf. rewrite Hn, He, Hf, Hl. auto.
Qed.

(** One insert-or-update for the name [x], in episode [idx]. *)
Lemma upsert_crossRefSeen (names : Ep.t -> list string) (eps : list Ep.t)
    (idx : nat) (seen : list string) (m : JsMap.t string Ent.t) (x : string)
    (fresh : Ent.t) (upd : Ent.t -> Ent.t) :
  sighting idx upd ->
  (forall r, Ent.name (upd r) = Ent.name r) ->
  Ent.name fresh = x -> Ent.episodes fresh = [] -> Ent.firstIdx fresh = idx ->
  crossRefSeen names eps idx seen m ->
  crossRefSeen names eps idx (seen ++ [x])
    (JsMap.modify (if negb (JsMap.has m x) then JsMap.set m x fresh else m) x upd).
Proof.
  intros Hupd Hname Hfn Hfe Hff Hm k. cbv zeta.
  rewrite JsMapFacts.get_upsert, occurrences_snoc.
  specialize (Hm k). cbv zeta in Hm.
  destruct (decide (x = k)) as [->|Hne].
  - replace (occurrences k seen + 1)%nat with (S (occurrences k seen)) by lia.
    rewrite replicate_S_end, app_assoc.
    set (l := appearances names k (take idx eps) ++ replicate (occurrences k seen) idx) in *.
    destruct (Hupd (default fresh (JsMap.get m k))) as [He [Hf Hl]].
    unfold entryOf. rewrite Hname, He, Hf, Hl, last_snoc.
    destruct (JsMap.get m k) as [r|]; simpl.
    + destruct Hm as [Hn [Hel [Hnil [Hhd _]]]].
      rewrite Hn, Hel. split; [reflexivity|]. split; [reflexivity|].
      split; [destruct l; discriminate|]. split; [|reflexivity].
      rewrite head_app, Hhd. reflexivity.
    + rewrite Hm, Hfe, Hff. simpl. auto.
  - rewrite Nat.add_0_r. exact Hm.
Qed.

Lemma foldl_upsert_crossRef (names : Ep.t -> list string) (eps : list Ep.t)
    (idx : nat) (ep : Ep.t) (fresh : string -> Ent.t) (upd : Ent.t -> Ent.t)
    (m : JsMap.t string Ent.t) :
  sighting idx upd ->
  (forall r, Ent.name (upd r) = Ent.name r) ->
  (forall x, Ent.name (fresh x) = x /\ Ent.episodes (fresh x) = []
             /\ Ent.firstIdx (fresh x) = idx) ->
  eps !! idx = Some ep ->
  crossRefSeen names eps idx [] m ->
  crossRefSeen names eps (S idx) []
    (foldl (fun m x =>
              JsMap.modify
                (if negb (JsMap.has m x) then JsMap.set m x (fresh x) else m) x upd)
           m (names ep)).
Proof.
  intros Hupd Hname Hfresh Hep Hm.
  assert (Hseen : crossRefSeen names eps idx (names ep)
    (foldl (fun m x =>
              JsMap.modify
                (if negb (JsMap.has m x) then JsMap.set m x (fresh x) else m) x upd)
           m (names ep))).
  { apply (JsArrayFacts.foldl_invariant _ (crossRefSeen names eps idx));
      [exact Hm|].
    intros seen x rest m' _ Hm'. destruct (Hfresh x) as [Hfn [Hfe Hff]].
    apply upsert_crossRefSeen; assumption. }
  intros k. specialize (Hseen k). cbv zeta in *.
  rewrite (appearances_take_S names k eps idx ep Hep). simpl.
  rewrite app_nil_r. exact Hseen.
Qed.

Lemma foldl_add_guest_name (l : list string) (r : Ent.t) :
  Ent.name (foldl Ent.add_guest r l) = Ent.name r.
Proof.
  revert r. induction l as [|g l IH]; intros r; simpl; [reflexivity|].
  rewrite IH. reflexivity.
Qed.

Lemma crossRefSeen_all (names : Ep.t -> list string) (eps : list Ep.t)
    (m : JsMap.t string Ent.t) :
  crossRefSeen names eps (length eps) [] m -> crossRef names eps m.
Proof.
  intros Hm k. specialize (Hm k). cbv zeta in Hm.
  rewrite firstn_all in Hm. simpl in Hm. rewrite app_nil_r in Hm. exact Hm.
Qed.

Lemma buildMaps_crossRef (eps : list Ep.t) :
  crossRef Ep.guests eps (fst (buildMaps eps))
  /\ crossRef Ep.characters eps (snd (buildMaps eps)).
Proof.
  assert (Hinv : crossRefSeen Ep.guests eps (length eps) [] (fst (buildMaps eps))
                 /\ crossRefSeen Ep.characters eps (length eps) []
                      (snd (buildMaps eps))).
  { unfold buildMaps.
    apply (JsArrayFacts.forEach_invariant indexEpisode
             (fun i maps => crossRefSeen Ep.guests eps i [] (fst maps)
                            /\ crossRefSeen Ep.characters eps i [] (snd maps))).
    - cbn [fst snd]. split; intros k; cbv zeta;
        rewrite JsMapFacts.get_empty; reflexivity.
    - intros i ep [gm cm] Hep [Hgm Hcm]. cbn [fst snd indexEpisode] in *. split.
      + apply (foldl_upsert_crossRef Ep.guests eps i ep
                 (fun g => newGuest g i)
                 (fun gData => Ent.set_lastIdx i (Ent.push_episode i gData)));
          auto using sighting_guest.
      + apply (foldl_upsert_crossRef Ep.characters eps i ep
                 (fun c => newCharacter c i)
                 (fun cData =>
                    foldl Ent.add_guest
                      (Ent.set_lastIdx i (Ent.push_episode i cData))
                      (Ep.guests ep)));
          auto using sighting_character.
        intros r. rewrite foldl_add_guest_name. reflexivity. }
  destruct Hinv as [Hg Hc]. split; apply crossRefSeen_all; assumption.
Qed.

Lemma attachImages_crossRef (names : Ep.t -> list string) (eps : list Ep.t)
    (images : option (gmap string string)) (m : JsMap.t string Ent.t) :
  crossRef names eps m -> crossRef names eps (attachImages images m).
Proof.
  intros Hm k. specialize (Hm k). unfold attachImages.
  rewrite JsMapFacts.get_forEachValue.
  destruct (JsMap.get m k) as [r|]; simpl; [|exact Hm].
  eapply entryOf_fields; [| | | |exact Hm]; reflexivity.
Qed.

Lemma loadData_crossRef (raw : Raw.data) (data : Data.t) :
  loadData (Some raw) = Some data ->
  crossRef Ep.guests (Data.episodes data) (Data.guestMap data)
  /\ crossRef Ep.characters (Data.episodes data) (Data.characterMap data).
Proof.
  intros [= <-]. simpl.
  destruct (buildMaps_crossRef (computedEpisodes raw)) as [Hg Hc].
  split; apply attachImages_crossRef; assumption.
Qed.

End CrossReference.

Section LookupMaps.
Context `{Host}.

Lemma foldl_upsert_mapWf (fresh : string -> Ent.t) (upd : Ent.t -> Ent.t)
    (names : list string) (m : JsMap.t string Ent.t) :
  mapWf m ->
  mapWf (foldl (fun m x =>
                  JsMap.modify
                    (if negb (JsMap.has m x) then JsMap.set m x (fresh x) else m)
                    x upd)
               m names).
Proof.
  revert m. induction names as [|x names IH]; intros m Hm; simpl; [exact Hm|].
  apply IH, JsMapWf.mapWf_upsert, Hm.
Qed.

Lemma buildMaps_mapWf (eps : list Ep.t) :
  mapWf (fst (buildMaps eps)) /\ mapWf (snd (buildMaps eps)).
Proof.
  unfold buildMaps.
  apply (JsArrayFacts.forEach_invariant indexEpisode
           (fun _ maps => mapWf (fst maps) /\ mapWf (snd maps))).
  - cbn [fst snd]. split; apply JsMapWf.mapWf_empty.
  - intros i ep [gm cm] _ [Hgm Hcm]. cbn [fst snd indexEpisode] in *. split.
    + apply (foldl_upsert_mapWf (fun g => newGuest g i)). exact Hgm.
    + apply (foldl_upsert_mapWf (fun c => newCharacter c i)). exact Hcm.
Qed.

Lemma loadData_mapWf (raw : Raw.data) (data : Data.t) :
  loadData (Some raw) = Some data ->
  mapWf (Data.guestMap data) /\ mapWf (Data.characterMap data).
Proof.
  intros [= <-]. simpl.
  destruct (buildMaps_mapWf (computedEpisodes raw)) as [Hg Hc].
  split; apply JsMapWf.mapWf_forEachValue; assumption.
Qed.

Lemma crossRef_get (names : Ep.t -> list string) (eps : list Ep.t)
    (m : JsMap.t string Ent.t) (k : string) (r : Ent.t) :
  crossRef names eps m -> JsMap.get m k = Some r ->
  entryOf k (appearances names k eps) r.
Proof. intros Hm Hk. specialize (Hm k). rewrite Hk in Hm. exact Hm. Qed.

Lemma crossRef_member (names : Ep.t -> list string) (eps : list Ep.t)
    (m : JsMap.t string Ent.t) (k : string) (i : nat) :
  crossRef names eps m ->
  (exists r, JsMap.get m k = Some r /\ i ∈ Ent.episodes r)
  <-> (exists ep, eps !! i = Some ep /\ k ∈ names ep).
Proof.
  intros Hm. rewrite <- elem_of_appearances. specialize (Hm k). split.
  - intros [r [Hk Hi]]. rewrite Hk in Hm. destruct Hm as [_ [<- _]]. exact Hi.
  - intros Hi. destruct (JsMap.get m k) as [r|].
    + exists r. destruct Hm as [_ [-> _]]. auto.
    + rewrite Hm in Hi. inversion Hi.
Qed.

Lemma crossRef_has (names : Ep.t -> list string) (eps : list Ep.t)
    (m : JsMap.t string Ent.t) (k : string) :
  crossRef names eps m ->
  JsMap.has m k = true <-> exists i ep, eps !! i = Some ep /\ k ∈ names ep.
Proof.
  intros Hm. rewrite JsMapFacts.has_true. specialize (Hm k). split.
  - intros [r Hk]. rewrite Hk in Hm. destruct Hm as [_ [_ [Hne [Hhd _]]]].
    apply head_Some_elem_of, elem_of_appearances in Hhd as [ep Hep].
    eauto.
  - intros [i [ep Hep]].
    assert (Hi : i ∈ appearances names k eps)
      by (apply elem_of_appearances; eauto).
    destruct (JsMap.get m k); [eauto|]. rewrite Hm in Hi. inversion Hi.
Qed.

(** X1: the two lookup maps are exact cross-references: the entry of a name
    holds an index exactly when the episode at that index lists the name
    (as a guest for the guest map, as a character for the character map). *)
Theorem loadData_index_exact (raw : Raw.data) :
  exists data, loadData (Some raw) = Some data /\
    (forall (g : string) (i : nat),
       (exists r, JsMap.get (Data.guestMap data) g = Some r
                  /\ i ∈ Ent.episodes r)
       <-> (exists ep, Data.episodes data !! i = Some ep /\ g ∈ Ep.guests ep))
    /\ (forall (c : string) (i : nat),
          (exists r, JsMap.get (Data.characterMap data) c = Some r
                     /\ i ∈ Ent.episodes r)
          <-> (exists ep, Data.episodes data !! i = Some ep
                          /\ c ∈ Ep.characters ep)).
Proof.
  destruct (loadData_episodes_eq raw) as [data [Hload _]].
  exists data. split; [exact Hload|].
  destruct (loadData_crossRef raw data Hload) as [Hg Hc].
  split; intros k i; apply crossRef_member; assumption.
Qed.

(** X2: a name has an entry in the guest map (character map) exactly when
    some episode lists it as a guest (character); the entry found under a
    name carries that name; and the values of each map come one per name,
    in the order the map holds its keys. *)
Theorem loadData_map_keys (raw : Raw.data) :
  exists data, loadData (Some raw) = Some data /\
    (forall g, JsMap.has (Data.guestMap data) g = true
               <-> exists i ep, Data.episodes data !! i = Some ep
                                /\ g ∈ Ep.guests ep)
    /\ (forall c, JsMap.has (Data.characterMap data) c = true
                  <-> exists i ep, Data.episodes data !! i = Some ep
                                   /\ c ∈ Ep.characters ep)
    /\ (forall k r, JsMap.get (Data.guestMap data) k = Some r
                    \/ JsMap.get (Data.characterMap data) k = Some r ->
                    Ent.name r = k)
    /\ NoDup (map Ent.name (JsMap.values (Data.guestMap data)))
    /\ NoDup (map Ent.name (JsMap.values (Data.characterMap data)))
    /\ map Ent.name (JsMap.values (Data.guestMap data))
       = JsMap.order (Data.guestMap data)
    /\ map Ent.name (JsMap.values (Data.characterMap data))
       = JsMap.order (Data.characterMap data).
Proof.
  destruct (loadData_episodes_eq raw) as [data [Hload _]].
  exists data. split; [exact Hload|].
  destruct (loadData_crossRef raw data Hload) as [Hg Hc].
  destruct (loadData_mapWf raw data Hload) as [Hwg Hwc].
  assert (Hng : forall k r, JsMap.get (Data.guestMap data) k = Some r ->
                            Ent.name r = k).
  { intros k r Hk. apply (crossRef_get _ _ _ _ _ Hg Hk). }
  assert (Hnc : forall k r, JsMap.get (Data.characterMap data) k = Some r ->
                            Ent.name r = k).
  { intros k r Hk. apply (crossRef_get _ _ _ _ _ Hc Hk). }
  split; [intros g; apply crossRef_has; exact Hg|].
  split; [intros c; apply crossRef_has; exact Hc|].
  split; [intros k r [Hk | Hk]; [apply Hng | apply Hnc]; exact Hk|].
  rewrite (JsMapWf.values_keys _ Ent.name Hng Hwg).
  rewrite (JsMapWf.values_keys _ Ent.name Hnc Hwc).
  destruct Hwg as [Hndg _], Hwc as [Hndc _]. auto.
Qed.

Lemma ascending_head_min (l : list nat) (f : nat) :
  StronglySorted le l -> head l = Some f -> is_minimum f l.
Proof.
  intros Hs Hh. apply head_Some in Hh as [l' ->].
  split; [left|]. apply StronglySorted_cons in Hs as [Hall _].
  constructor; [lia | exact Hall].
Qed.

Lemma ascending_last_max (l : list nat) (f : nat) :
  StronglySorted le l -> last l = Some f -> is_maximum f l.
Proof.
  intros Hs Hl. apply last_Some in Hl as [l' ->].
  split; [apply elem_of_app; right; left|].
  apply Forall_app. split; [|repeat constructor].
  apply Forall_forall. intros x Hx.
  eapply StronglySorted_app_1_elem_of; [exact Hs | exact Hx | left].
Qed.

Lemma entryOf_bounds (names : Ep.t -> list string) (eps : list Ep.t)
    (k : string) (r : Ent.t) :
  entryOf k (appearances names k eps) r ->
  Ent.episodes r <> []
  /\ StronglySorted le (Ent.episodes r)
  /\ is_minimum (Ent.firstIdx r) (Ent.episodes r)
  /\ is_maximum (Ent.lastIdx r) (Ent.episodes r)
  /\ (exists ep, eps !! Ent.firstIdx r = Some ep /\ Ent.name r ∈ names ep)
  /\ (exists ep, eps !! Ent.lastIdx r = Some ep /\ Ent.name r ∈ names ep).
Proof.
  intros [Hn [He [Hne [Hhd Hlast]]]]. rewrite He, Hn.
  assert (Hs : StronglySorted le (appearances names k eps))
    by apply appearancesFrom_ascending.
  split; [exact Hne|]. split; [exact Hs|].
  split; [apply ascending_head_min; assumption|].
  split; [apply ascending_last_max; assumption|].
  split; apply elem_of_appearances.
  - apply head_Some_elem_of. exact Hhd.
  - apply last_Some_elem_of. exact Hlast.
Qed.

(** X3: whatever the lists of an episode repeat, every entry of the two
    lookup maps has a non-empty, ascending [episodes] list whose minimum is
    [firstIdx] and whose maximum is [lastIdx]; and [episodes[firstIdx]] and
    [episodes[lastIdx]] exist and list the entry's name, so the detail panel
    never reads a missing episode. *)
Theorem loadData_entry_bounds (raw : Raw.data) :
  exists data, loadData (Some raw) = Some data /\
    (forall r, r ∈ JsMap.values (Data.guestMap data) ->
       Ent.episodes r <> []
       /\ StronglySorted le (Ent.episodes r)
       /\ is_minimum (Ent.firstIdx r) (Ent.episodes r)
       /\ is_maximum (Ent.lastIdx r) (Ent.episodes r)
       /\ (exists ep, Data.episodes data !! Ent.firstIdx r = Some ep
                      /\ Ent.name r ∈ Ep.guests ep)
       /\ (exists ep, Data.episodes data !! Ent.lastIdx r = Some ep
                      /\ Ent.name r ∈ Ep.guests ep))
    /\ (forall r, r ∈ JsMap.values (Data.characterMap data) ->
          Ent.episodes r <> []
          /\ StronglySorted le (Ent.episodes r)
          /\ is_minimum (Ent.firstIdx r) (Ent.episodes r)
          /\ is_maximum (Ent.lastIdx r) (Ent.episodes r)
          /\ (exists ep, Data.episodes data !! Ent.firstIdx r = Some ep
                         /\ Ent.name r ∈ Ep.characters ep)
          /\ (exists ep, Data.episodes data !! Ent.lastIdx r = Some ep
                         /\ Ent.name r ∈ Ep.characters ep)).
Proof.
  destruct (loadData_episodes_eq raw) as [data [Hload _]].
  exists data. split; [exact Hload|].
  destruct (loadData_crossRef raw data Hload) as [Hg Hc].
  split; intros r Hr; apply JsMapFacts.elem_of_values in Hr as [k Hk].
  - exact (entryOf_bounds _ _ _ _ (crossRef_get _ _ _ _ _ Hg Hk)).
  - exact (entryOf_bounds _ _ _ _ (crossRef_get _ _ _ _ _ Hc Hk)).
Qed.

End LookupMaps.

(** A guest named twice in one episode: the index comes twice, and the
    bounds hold all the same. *)
Example entry_bounds_repeated :
  (fun r => (Ent.episodes r, Ent.firstIdx r, Ent.lastIdx r))
    <$> JsMap.get (foldl (seeGuest 3) JsMap.empty ["A"; "B"; "A"]%string) "A"%string
  = Some ([3; 3], 3, 3)%nat.
Proof. vm_compute. reflexivity. Qed.

Section ListedEntities.
Context `{Host}.

Lemma NoDup_map_filter {A B : Type} (f : A -> B) (p : A -> bool) (l : list A) :
  NoDup (map f l) -> NoDup (map f (List.filter p l)).
Proof.
  induction l as [|a l IH]; simpl; [auto|].
  intros Hnd. apply NoDup_cons in Hnd as [Ha Hnd].
  destruct (p a); simpl; [|auto].
  apply NoDup_cons. split; [|auto].
  intros Hin. apply Ha. apply list_elem_of_fmap in Hin as [b [Hb Hin]].
  apply list_elem_of_fmap. exists b. split; [exact Hb|].
  apply list_elem_of_In in Hin. apply filter_In in Hin as [Hin _].
  apply list_elem_of_In. exact Hin.
Qed.

Lemma values_get {V : Type} (m : JsMap.t string V) (key : V -> string) (v : V) :
  (forall k v, JsMap.get m k = Some v -> key v = k) ->
  v ∈ JsMap.values m -> JsMap.get m (key v) = Some v.
Proof.
  intros Hkey Hv. apply JsMapFacts.elem_of_values in Hv as [k Hk].
  rewrite (Hkey k v Hk). exact Hk.
Qed.

Lemma sortedEntities_perm (guestMap characterMap : JsMap.t string Ent.t)
    (type : entityType) (sortBy : SortBy.t) (searchQuery : string) :
  let lookup := match type with guest => guestMap | character => characterMap end in
  Permutation (sortedEntities guestMap characterMap type sortBy searchQuery)
              (List.filter (matchesQuery searchQuery) (JsMap.values lookup)).
Proof.
  cbv zeta. rewrite sortedEntities_unfold. cbv zeta.
  destruct sortBy; apply JsArrayFacts.sort_perm.
Qed.

(** X4: whatever the kind, the sort key and the search text, the entities
    the query lists have pairwise distinct names (they serve as the keys of
    the rows), and each of them is the entry the map of that kind holds
    under its name (what the detail panel looks up). *)
Theorem sortedEntities_distinct (raw : Raw.data) (type : entityType)
    (sortBy : SortBy.t) (searchQuery : string) :
  exists data, loadData (Some raw) = Some data /\
    let lookup := match type with
                  | guest => Data.guestMap data
                  | character => Data.characterMap data
                  end in
    let listed := sortedEntities (Data.guestMap data) (Data.characterMap data)
                    type sortBy searchQuery in
    NoDup (map Ent.name listed)
    /\ (forall e, e ∈ listed -> JsMap.get lookup (Ent.name e) = Some e)
    /\ (length listed <= length (JsMap.order lookup))%nat.
Proof.
  destruct (loadData_episodes_eq raw) as [data [Hload _]].
  exists data. split; [exact Hload|]. cbv zeta.
  destruct (loadData_crossRef raw data Hload) as [Hg Hc].
  destruct (loadData_mapWf raw data Hload) as [Hwg Hwc].
  set (lookup := match type with
                 | guest => Data.guestMap data
                 | character => Data.characterMap data
                 end).
  assert (Hname : forall k r, JsMap.get lookup k = Some r -> Ent.name r = k).
  { intros k r Hk. unfold lookup in Hk.
    destruct type; [exact (proj1 (crossRef_get _ _ _ _ _ Hg Hk))
                   | exact (proj1 (crossRef_get _ _ _ _ _ Hc Hk))]. }
  assert (Hwf : mapWf lookup) by (unfold lookup; destruct type; assumption).
  pose proof (sortedEntities_perm (Data.guestMap data) (Data.characterMap data)
                type sortBy searchQuery) as Hperm.
  cbv zeta in Hperm. fold lookup in Hperm.
  assert (Hnd : NoDup (map Ent.name (JsMap.values lookup))).
  { rewrite (JsMapWf.values_keys lookup Ent.name Hname Hwf). apply Hwf. }
  split; [|split].
  - rewrite Hperm. apply NoDup_map_filter. exact Hnd.
  - intros e He. rewrite Hperm in He.
    apply list_elem_of_In, filter_In in He as [He _].
    apply list_elem_of_In in He. apply values_get; assumption.
  - rewrite Hperm. rewrite <- (JsMapWf.values_keys lookup Ent.name Hname Hwf).
    rewrite length_map. apply filter_length_le.
Qed.

End ListedEntities.

(* ====================================================================== *)
(** * Properties: year buckets and statistics                             *)
(* ====================================================================== *)

Section YearBuckets.
Context `{Host}.

Lemma nonEmpty_snoc {A : Type} (l : list A) (a : A) :
  Some (default [] (nonEmpty l) ++ [a]) = nonEmpty (l ++ [a]).
Proof. destruct l; reflexivity. Qed.

Lemma addToYear_bucketsOf (eps : list Ep.t) (i : nat) (ep : Ep.t)
    (m : JsMap.t Z (list Ep.t)) :
  eps !! i = Some ep -> bucketsOf eps i m -> bucketsOf eps (S i) (addToYear m ep i).
Proof.
  intros Hep Hm year. unfold addToYear. rewrite JsMapFacts.get_upsert.
  rewrite (take_S_r _ _ _ Hep), List.filter_app. simpl. unfold inYear at 2.
  destruct (decide (Ep.year ep = year)) as [->|Hne].
  - rewrite Z.eqb_refl, Hm. apply nonEmpty_snoc.
  - replace (Ep.year ep =? year) with false by (symmetry; apply Z.eqb_neq; exact Hne).
    rewrite app_nil_r. apply Hm.
Qed.

Lemma groupByYear_bucketsOf (eps : list Ep.t) :
  bucketsOf eps (length eps) (groupByYear eps) /\ mapWf (groupByYear eps).
Proof.
  unfold groupByYear.
  apply (JsArrayFacts.forEach_invariant addToYear
           (fun i m => bucketsOf eps i m /\ mapWf m)).
  - split; [|apply JsMapWf.mapWf_empty].
    intros year. rewrite JsMapFacts.get_empty. reflexivity.
  - intros i ep m Hep [Hm Hwf]. split.
    + apply addToYear_bucketsOf; assumption.
    + apply JsMapWf.mapWf_upsert. exact Hwf.
Qed.

Lemma groupByYear_get (eps : list Ep.t) (year : Z) :
  JsMap.get (groupByYear eps) year = nonEmpty (List.filter (inYear year) eps).
Proof.
  destruct (groupByYear_bucketsOf eps) as [Hb _].
  rewrite (Hb year), firstn_all. reflexivity.
Qed.

Lemma nonEmpty_Some {A : Type} (l l' : list A) :
  nonEmpty l = Some l' <-> l' = l /\ l <> [].
Proof.
  destruct l; simpl; split.
  - discriminate.
  - intros [_ Hne]. congruence.
  - intros [= <-]. split; [reflexivity | discriminate].
  - intros [-> _]. reflexivity.
Qed.

(** X5: the year buckets split the episodes by year: the bucket of a year
    is there exactly when some episode is of that year, and it holds the
    episodes of that year, all of them, in the order of the episode list;
    so every episode is in the bucket of its year, and no bucket is
    empty. *)
Theorem loadData_year_buckets (raw : Raw.data) :
  exists data, loadData (Some raw) = Some data /\
    (forall year yearEps,
       JsMap.get (Data.episodesByYear data) year = Some yearEps
       <-> yearEps = List.filter (inYear year) (Data.episodes data)
           /\ yearEps <> [])
    /\ (forall ep, ep ∈ Data.episodes data ->
          exists yearEps,
            JsMap.get (Data.episodesByYear data) (Ep.year ep) = Some yearEps
            /\ ep ∈ yearEps)
    /\ (forall yearEps, yearEps ∈ JsMap.values (Data.episodesByYear data) ->
          yearEps <> []).
Proof.
  destruct (loadData_episodes_eq raw) as [data [Hload Heps]].
  exists data. split; [exact Hload|].
  injection Hload as <-. simpl. set (eps := computedEpisodes raw).
  split; [|split].
  - intros year yearEps. rewrite groupByYear_get, nonEmpty_Some.
    split; intros [H1 H2]; split; congruence.
  - intros ep Hep. exists (List.filter (inYear (Ep.year ep)) eps).
    assert (Hin : ep ∈ List.filter (inYear (Ep.year ep)) eps).
    { apply list_elem_of_In, filter_In. split; [apply list_elem_of_In, Hep|].
      apply Z.eqb_refl. }
    split; [|exact Hin]. rewrite groupByYear_get. apply nonEmpty_Some.
    split; [reflexivity|]. intros Hnil. rewrite Hnil in Hin. inversion Hin.
  - intros yearEps Hy. apply JsMapFacts.elem_of_values in Hy as [year Hy].
    rewrite groupByYear_get in Hy. apply nonEmpty_Some in Hy as [-> Hne].
    exact Hne.
Qed.

End YearBuckets.

(** The mixed corpus in the buckets of the small host: both dates fall in
    1970. *)
Example year_buckets_corpusMixed :
  (fun data => map (fun ep => Ep.idx ep)
                 <$> JsMap.get (Data.episodesByYear data) 1970)
    <$> @loadData Demo.host (Some Demo.corpusMixed)
  = Some (Some [0; 1; 2]%nat).
Proof. vm_compute. reflexivity. Qed.

Section StatsFacts.
Context `{Host}.

Lemma foldl_max_ge (l : list nat) (a : nat) :
  (a <= foldl Nat.max a l)%nat
  /\ Forall (fun x => (x <= foldl Nat.max a l)%nat) l.
Proof.
  revert a. induction l as [|x l IH]; intros a; simpl.
  - split; [lia | constructor].
  - destruct (IH (Nat.max a x)) as [Ha Hl]. split; [lia|].
    constructor; [lia | exact Hl].
Qed.

Lemma foldl_max_in (l : list nat) (a : nat) :
  foldl Nat.max a l = a \/ foldl Nat.max a l ∈ l.
Proof.
  revert a. induction l as [|x l IH]; intros a; simpl; [auto|].
  destruct (IH (Nat.max a x)) as [Heq | Hin].
  - rewrite Heq. destruct (Nat.max_spec a x) as [[_ ->] | [_ ->]];
      [right; left | left; reflexivity].
  - right. right. exact Hin.
Qed.

Lemma foldl_yearStats_fields (l : list (list Ep.t)) (s : Stats.t) :
  Stats.maxEpisodesWithLive (foldl yearStats s l)
  = foldl Nat.max (Stats.maxEpisodesWithLive s) (map length l)
  /\ Stats.maxEpisodesWithoutLive (foldl yearStats s l)
     = foldl Nat.max (Stats.maxEpisodesWithoutLive s)
             (map (fun yearEps => length (List.filter notLive yearEps)) l)
  /\ Stats.maxGuests (foldl yearStats s l) = Stats.maxGuests s
  /\ Stats.maxCharacters (foldl yearStats s l) = Stats.maxCharacters s.
Proof.
  revert s. induction l as [|y l IH]; intros s; simpl; [auto|].
  destruct (IH (yearStats s y)) as [-> [-> [-> ->]]]. auto.
Qed.

Lemma foldl_episodeStats_fields (l : list Ep.t) (s : Stats.t) :
  Stats.maxEpisodesWithLive (foldl episodeStats s l) = Stats.maxEpisodesWithLive s
  /\ Stats.maxEpisodesWithoutLive (foldl episodeStats s l)
     = Stats.maxEpisodesWithoutLive s
  /\ Stats.maxGuests (foldl episodeStats s l)
     = foldl Nat.max (Stats.maxGuests s) (map Ep.num_guests l)
  /\ Stats.maxCharacters (foldl episodeStats s l)
     = foldl Nat.max (Stats.maxCharacters s) (map Ep.num_characters l).
Proof.
  revert s. induction l as [|ep l IH]; intros s; simpl; [auto|].
  destruct (IH (episodeStats s ep)) as [-> [-> [-> ->]]]. auto.
Qed.

Lemma computeStats_fields (byYear : JsMap.t Z (list Ep.t)) (eps : list Ep.t) :
  let stats := computeStats byYear eps in
  Stats.maxEpisodesWithLive stats
  = foldl Nat.max 0%nat (map length (JsMap.values byYear))
  /\ Stats.maxEpisodesWithoutLive stats
     = foldl Nat.max 0%nat
         (map (fun yearEps => length (List.filter notLive yearEps))
              (JsMap.values byYear))
  /\ Stats.maxGuests stats = foldl Nat.max 0%nat (map Ep.num_guests eps)
  /\ Stats.maxCharacters stats = foldl Nat.max 0%nat (map Ep.num_characters eps).
Proof.
  cbv zeta. unfold computeStats.
  destruct (foldl_episodeStats_fields eps
              (foldl yearStats initialStats (JsMap.values byYear)))
    as [-> [-> [-> ->]]].
  destruct (foldl_yearStats_fields (JsMap.values byYear) initialStats)
    as [-> [-> [-> ->]]].
  auto.
Qed.

Lemma map_max_bound {A : Type} (f : A -> nat) (l : list A) (a : A) :
  a ∈ l -> (f a <= foldl Nat.max 0%nat (map f l))%nat.
Proof.
  intros Ha. destruct (foldl_max_ge (map f l) 0%nat) as [_ Hall].
  rewrite Forall_forall in Hall. apply Hall.
  apply list_elem_of_fmap. eauto.
Qed.

Lemma map_max_attained {A : Type} (f : A -> nat) (l : list A) :
  l <> [] -> exists a, a ∈ l /\ f a = foldl Nat.max 0%nat (map f l).
Proof.
  intros Hne. destruct (foldl_max_in (map f l) 0%nat) as [Hz | Hin].
  - destruct l as [|a l]; [congruence|]. exists a. split; [left|].
    pose proof (map_max_bound f (a :: l) a) as Hb. rewrite Hz in *.
    specialize (Hb ltac:(left)). lia.
  - apply list_elem_of_fmap in Hin as [a [Ha Hin]]. eauto.
Qed.

Lemma groupByYear_values_nonempty (eps : list Ep.t) :
  eps <> [] -> JsMap.values (groupByYear eps) <> [].
Proof.
  intros Hne. destruct eps as [|ep eps']; [congruence|].
  destruct (groupByYear_bucketsOf (ep :: eps')) as [_ Hwf].
  assert (Hin : List.filter (inYear (Ep.year ep)) (ep :: eps')
                ∈ JsMap.values (groupByYear (ep :: eps'))).
  { apply (JsMapWf.get_values _ (Ep.year ep)); [exact Hwf|].
    rewrite groupByYear_get. cbn [List.filter].
    replace (inYear (Ep.year ep) ep) with true
      by (symmetry; apply Z.eqb_refl).
    reflexivity. }
  intros Hnil. rewrite Hnil in Hin. inversion Hin.
Qed.

(** X6: no row of the timeline is longer than [maxEpisodesInYear], with
    live episodes shown or not, and some year fills it when they are shown;
    the maximum without live episodes is at most the maximum with them;
    with no episode at all both are 0. *)
Theorem timeline_rows_fit (raw : Raw.data) :
  exists data, loadData (Some raw) = Some data /\
    (forall includeLiveEps year yearEps,
       JsMap.get (Data.episodesByYear data) year = Some yearEps ->
       (length (filteredYearEps includeLiveEps yearEps)
        <= maxEpisodesInYear includeLiveEps (Some data))%nat)
    /\ (maxEpisodesInYear false (Some data)
        <= maxEpisodesInYear true (Some data))%nat
    /\ (Data.episodes data <> [] ->
        exists year yearEps,
          JsMap.get (Data.episodesByYear data) year = Some yearEps
          /\ length yearEps = maxEpisodesInYear true (Some data))
    /\ (Data.episodes data = [] ->
        maxEpisodesInYear true (Some data) = 0%nat).
Proof.
  destruct (loadData_episodes_eq raw) as [data [Hload Heps]].
  exists data. split; [exact Hload|].
  injection Hload as <-. simpl. clear Heps.
  generalize (computedEpisodes raw). intros eps.
  destruct (computeStats_fields (groupByYear eps) eps) as [Hwith [Hwithout _]].
  cbv zeta in Hwith, Hwithout. rewrite Hwith, Hwithout.
  destruct (groupByYear_bucketsOf eps) as [_ Hwf].
  set (buckets := JsMap.values (groupByYear eps)).
  split; [|split; [|split]].
  - intros include year yearEps Hy.
    assert (Hin : yearEps ∈ buckets) by (eapply JsMapWf.get_values; eassumption).
    destruct include; simpl.
    + apply (map_max_bound length buckets yearEps Hin).
    + apply (map_max_bound (fun l => length (List.filter notLive l))
                           buckets yearEps Hin).
  - destruct (foldl_max_in
                (map (fun l => length (List.filter notLive l)) buckets) 0%nat)
      as [-> | Hin]; [lia|].
    apply list_elem_of_fmap in Hin as [l [-> Hl]].
    pose proof (map_max_bound length buckets l Hl).
    pose proof (filter_length_le notLive l). lia.
  - intros Hne.
    destruct (map_max_attained length buckets (groupByYear_values_nonempty eps Hne))
      as [l [Hl Hlen]].
    apply JsMapFacts.elem_of_values in Hl as [year Hy].
    exists year, l. auto.
  - intros Hnil. unfold buckets. rewrite Hnil. reflexivity.
Qed.

(** X7: [maxGuests] and [maxCharacters] are the exact maxima over the
    episodes: no episode has more guests (characters), and, unless there is
    no episode at all, some episode has exactly that many. *)
Theorem stats_max_counts (raw : Raw.data) :
  exists data, loadData (Some raw) = Some data /\
    let stats := Data.stats data in
    (forall ep, ep ∈ Data.episodes data ->
       (Ep.num_guests ep <= Stats.maxGuests stats)%nat
       /\ (Ep.num_characters ep <= Stats.maxCharacters stats)%nat)
    /\ (Data.episodes data <> [] ->
        (exists ep, ep ∈ Data.episodes data
                    /\ Ep.num_guests ep = Stats.maxGuests stats)
        /\ (exists ep, ep ∈ Data.episodes data
                       /\ Ep.num_characters ep = Stats.maxCharacters stats))
    /\ (Data.episodes data = [] ->
        Stats.maxGuests stats = 0%nat /\ Stats.maxCharacters stats = 0%nat).
Proof.
  destruct (loadData_episodes_eq raw) as [data [Hload Heps]].
  exists data. split; [exact Hload|].
  injection Hload as <-. simpl. clear Heps.
  generalize (computedEpisodes raw). intros eps.
  destruct (computeStats_fields (groupByYear eps) eps) as [_ [_ [Hg Hc]]].
  cbv zeta in Hg, Hc. rewrite Hg, Hc.
  split; [|split].
  - intros ep Hep. split; [apply (map_max_bound Ep.num_guests) |
                           apply (map_max_bound Ep.num_characters)]; exact Hep.
  - intros Hne. split; [apply (map_max_attained Ep.num_guests) |
                        apply (map_max_attained Ep.num_characters)]; exact Hne.
  - intros ->. split; reflexivity.
Qed.

End StatsFacts.

(* ====================================================================== *)
(** * Properties: the colour scale                                        *)
(* ====================================================================== *)

Module NumOrder.
Import Num.

Lemma max_either (a b : number) : max a b = a \/ max a b = b.
Proof.
  destruct a as [x| | |], b as [y| | |]; simpl; auto.
  destruct (Qle_bool x y); auto.
Qed.

Lemma foldl_max_either (l : list number) (a : number) :
  foldl max a l = a \/ foldl max a l ∈ l.
Proof.
  revert a. induction l as [|x l IH]; intros a; simpl; [auto|].
  destruct (IH (max a x)) as [Heq | Hin].
  - rewrite Heq. destruct (max_either a x) as [-> | ->];
      [left; reflexivity | right; left].
  - right. right. exact Hin.
Qed.

Lemma foldl_max_atMost (l : list number) (a : number) :
  nonneg a -> Forall nonneg l ->
  exists m, foldl max a l = Fin m /\ atMost m a /\ Forall (atMost m) l.
Proof.
  intros Ha Hl. revert a Ha.
  induction Hl as [|b l Hb _ IH]; intros a Ha; simpl.
  - destruct Ha as [q [-> Hq]]. exists q. split; [reflexivity|].
    split; [|constructor]. exists q. split; [reflexivity|]. split; [exact Hq | lra].
  - destruct (IH (max a b) (NumFacts.max_nonneg a b Ha Hb)) as [m [Hm [Hab Hall]]].
    exists m. split; [exact Hm|].
    destruct Ha as [x [-> Hx]], Hb as [y [-> Hy]].
    destruct Hab as [q [Hq [Hq0 Hqm]]]. simpl in Hq.
    destruct (Qle_bool x y) eqn:Hxy; injection Hq as <-.
    + apply Qle_bool_iff in Hxy.
      split; [|constructor; [|exact Hall]].
      * exists x. split; [reflexivity|]. split; [exact Hx | lra].
      * exists y. split; [reflexivity|]. split; [exact Hy | lra].
    + assert (Hyx : (y <= x)%Q).
      { destruct (Qlt_le_dec x y) as [Hlt | Hle]; [|exact Hle].
        apply Qlt_le_weak, Qle_bool_iff in Hlt. congruence. }
      split; [|constructor; [|exact Hall]].
      * exists x. split; [reflexivity|]. split; [exact Hx | lra].
      * exists y. split; [reflexivity|]. split; [exact Hy | lra].
Qed.

End NumOrder.

Section ColourScale.
Context `{Host}.

Lemma of_nat_atMost (n m : nat) :
  (n <= m)%nat -> atMost (inject_Z (Z.of_nat m)) (Num.of_nat n).
Proof.
  intros Hnm. exists (inject_Z (Z.of_nat n)). split; [reflexivity|].
  split.
  - change 0%Q with (inject_Z 0). rewrite <- Zle_Qle. lia.
  - rewrite <- Zle_Qle. lia.
Qed.

(** The lightness for a value between 0 and the maximum. *)
Lemma getEpisodeBaseColor_range (v : Num.number) (m : Q) :
  atMost m v ->
  exists l, getEpisodeBaseColor v (Num.Fin m) = hsl 210 50 (Num.Fin l)
            /\ (45 <= l)%Q /\ (l <= 85)%Q.
Proof.
  intros [q [-> [Hq0 Hqm]]]. unfold getEpisodeBaseColor. simpl.
  destruct (Qeq_bool m 0) eqn:Hz.
  - exists 60%Q. split; [reflexivity|]. split; discriminate.
  - apply Qeq_bool_neq in Hz.
    assert (Hm : (0 < m)%Q).
    { apply Qle_lteq in Hq0 as [Hlt | Heq]; [lra|].
      apply Qle_lteq in Hqm as [Hlt | Heq']; [lra|].
      exfalso. apply Hz. rewrite <- Heq', <- Heq. reflexivity. }
    eexists. split; [reflexivity|].
    assert (Hr0 : (0 <= q / m)%Q) by (apply Qle_shift_div_l; lra).
    assert (Hr1 : (q / m <= 1)%Q) by (apply Qle_shift_div_r; lra).
    split; lra.
Qed.

Lemma perGuest_values_nonneg (raw : Raw.data) :
  Forall Num.nonneg
    (map Ep.characters_per_guest
         (List.filter hasGuests (computedEpisodes raw))).
Proof.
  apply Forall_forall. intros v Hv.
  apply list_elem_of_fmap in Hv as [ep [-> Hep]].
  apply list_elem_of_In, filter_In in Hep as [Hin Hg].
  apply list_elem_of_In in Hin.
  destruct (computed_fields raw ep Hin) as [Hng ->].
  apply NumFacts.div_of_nat. unfold hasGuests in Hg.
  apply Nat.ltb_lt in Hg. lia.
Qed.

Lemma loadData_perGuest (raw : Raw.data) :
  Stats.maxCharactersPerGuest
    (computeStats (groupByYear (computedEpisodes raw)) (computedEpisodes raw))
  = foldl Num.max (Num.of_nat 0)
      (map Ep.characters_per_guest
           (List.filter hasGuests (computedEpisodes raw))).
Proof.
  unfold computeStats.
  rewrite foldl_episodeStats_perGuest, foldl_yearStats_perGuest. reflexivity.
Qed.

(** X8: [maxCharactersPerGuest] is the exact maximum of the ratios of the
    episodes that have guests: it is a finite number, no such episode has a
    greater ratio, and it is the ratio of one of them unless it is the 0 it
    starts from. *)
Theorem stats_max_perGuest (raw : Raw.data) :
  exists data, loadData (Some raw) = Some data /\
    exists m : Q,
      Stats.maxCharactersPerGuest (Data.stats data) = Num.Fin m
      /\ (0 <= m)%Q
      /\ (forall ep, ep ∈ Data.episodes data -> hasGuests ep = true ->
            exists q, Ep.characters_per_guest ep = Num.Fin q
                      /\ (0 <= q)%Q /\ (q <= m)%Q)
      /\ (Num.Fin m = Num.of_nat 0
          \/ exists ep, ep ∈ Data.episodes data /\ hasGuests ep = true
                        /\ Ep.characters_per_guest ep = Num.Fin m).
Proof.
  destruct (loadData_episodes_eq raw) as [data [Hload Heps]].
  exists data. split; [exact Hload|].
  injection Hload as <-. simpl. clear Heps. rewrite loadData_perGuest.
  destruct (NumOrder.foldl_max_atMost _ _ (NumFacts.nonneg_of_nat 0)
              (perGuest_values_nonneg raw)) as [m [Hm [H0 Hall]]].
  exists m. split; [exact Hm|].
  split.
  { destruct H0 as [q [[= <-] [_ Hq]]]. exact Hq. }
  split.
  - intros ep Hep Hg. rewrite Forall_forall in Hall. apply Hall.
    apply list_elem_of_fmap. exists ep. split; [reflexivity|].
    apply list_elem_of_In, filter_In. split; [apply list_elem_of_In, Hep | exact Hg].
  - rewrite <- Hm.
    destruct (NumOrder.foldl_max_either
                (map Ep.characters_per_guest
                     (List.filter hasGuests (computedEpisodes raw)))
                (Num.of_nat 0)) as [-> | Hin]; [left; reflexivity|].
    right. apply list_elem_of_fmap in Hin as [ep [Heq Hep]].
    apply list_elem_of_In, filter_In in Hep as [Hin Hg].
    exists ep. split; [apply list_elem_of_In, Hin|]. split; [exact Hg|].
    symmetry. exact Heq.
Qed.

(** X9: for every episode of the data and every colour mode (characters per
    guest for the episodes that have guests), the scaled colour has a finite
    lightness between 45 and 85. *)
Theorem scaledColor_range (raw : Raw.data) :
  exists data, loadData (Some raw) = Some data /\
    forall (mode : ColorMode.t) (ep : Ep.t),
      ep ∈ Data.episodes data ->
      (mode = ColorMode.chars_per_guest -> hasGuests ep = true) ->
      exists l : Q,
        scaledColor mode (Data.stats data) ep = hsl 210 50 (Num.Fin l)
        /\ (45 <= l)%Q /\ (l <= 85)%Q.
Proof.
  destruct (loadData_episodes_eq raw) as [data [Hload Heps]].
  exists data. split; [exact Hload|].
  injection Hload as <-. simpl. clear Heps.
  intros mode ep Hep Hmode.
  destruct (computeStats_fields (groupByYear (computedEpisodes raw))
              (computedEpisodes raw)) as [_ [_ [Hg Hc]]].
  cbv zeta in Hg, Hc.
  destruct mode; unfold scaledColor.
  - rewrite Hg. apply getEpisodeBaseColor_range, of_nat_atMost.
    apply (map_max_bound Ep.num_guests). exact Hep.
  - rewrite Hc. apply getEpisodeBaseColor_range, of_nat_atMost.
    apply (map_max_bound Ep.num_characters). exact Hep.
  - rewrite loadData_perGuest.
    destruct (NumOrder.foldl_max_atMost _ _ (NumFacts.nonneg_of_nat 0)
                (perGuest_values_nonneg raw)) as [m [Hm [_ Hall]]].
    rewrite Hm. apply getEpisodeBaseColor_range.
    rewrite Forall_forall in Hall. apply Hall.
    apply list_elem_of_fmap. exists ep. split; [reflexivity|].
    apply list_elem_of_In, filter_In.
    split; [apply list_elem_of_In, Hep | apply Hmode; reflexivity].
Qed.

(** X10: [getEpisodeBaseColor] gives a finite lightness for every count and
    maximum, and more guests are never lighter: the lightness for the
    greater count is at most the one for the smaller, and strictly below it
    when the counts differ and the maximum is not 0. *)
Theorem getEpisodeBaseColor_darker_counts (guestCount1 guestCount2 maxGuests : nat) :
  (guestCount1 <= guestCount2)%nat ->
  exists l1 l2 : Q,
    getEpisodeBaseColor (Num.of_nat guestCount1) (Num.of_nat maxGuests)
    = hsl 210 50 (Num.Fin l1)
    /\ getEpisodeBaseColor (Num.of_nat guestCount2) (Num.of_nat maxGuests)
       = hsl 210 50 (Num.Fin l2)
    /\ (l2 <= l1)%Q
    /\ ((guestCount1 < guestCount2)%nat -> (0 < maxGuests)%nat -> (l2 < l1)%Q).
Proof.
  intros Hle. unfold getEpisodeBaseColor, Num.of_nat. simpl.
  rewrite NumFacts.of_nat_zero. case_bool_decide as Hz.
  - exists 60%Q, 60%Q. split; [reflexivity|]. split; [reflexivity|].
    split; [lra | intros _ Hpos; lia].
  - eexists. eexists. split; [reflexivity|]. split; [reflexivity|].
    assert (Hpos : (0 < inject_Z (Z.of_nat maxGuests))%Q).
    { change 0%Q with (inject_Z 0). rewrite <- Zlt_Qlt. lia. }
    assert (Hinv : (0 < / inject_Z (Z.of_nat maxGuests))%Q)
      by (apply Qinv_lt_0_compat; exact Hpos).
    split.
    + assert (Hr : (inject_Z (Z.of_nat guestCount1) / inject_Z (Z.of_nat maxGuests)
                    <= inject_Z (Z.of_nat guestCount2)
                       / inject_Z (Z.of_nat maxGuests))%Q).
      { unfold Qdiv. apply Qmult_le_compat_r; [|lra].
        rewrite <- Zle_Qle. lia. }
      lra.
    + intros Hlt _.
      assert (Hr : (inject_Z (Z.of_nat guestCount1) / inject_Z (Z.of_nat maxGuests)
                    < inject_Z (Z.of_nat guestCount2)
                      / inject_Z (Z.of_nat maxGuests))%Q).
      { unfold Qdiv. apply Qmult_lt_compat_r; [exact Hinv|].
        rewrite <- Zlt_Qlt. lia. }
      lra.
Qed.

End ColourScale.

Lemma getEpisodeBaseColor_darker_counts_witness :
  (1 <= 3)%nat
  /\ exists l1 l2 : Q,
       getEpisodeBaseColor (Num.of_nat 1) (Num.of_nat 4) = hsl 210 50 (Num.Fin l1)
       /\ getEpisodeBaseColor (Num.of_nat 3) (Num.of_nat 4) = hsl 210 50 (Num.Fin l2)
       /\ (l2 <= l1)%Q.
Proof.
  split; [lia|].
  destruct (getEpisodeBaseColor_darker_counts 1 3 4) as [l1 [l2 [H1 [H2 [Hle _]]]]];
    [lia|].
  exists l1, l2. auto.
Defined.

(** One guest of four: 85 - (1/4) * 40. *)
Example getEpisodeBaseColor_quarter :
  exists l, getEpisodeBaseColor (Num.of_nat 1) (Num.of_nat 4) = hsl 210 50 (Num.Fin l)
            /\ (l == 75)%Q.
Proof. eexists. split; [reflexivity|]. reflexivity. Qed.

(* ====================================================================== *)
(** * Properties: more on cell sizing                                     *)
(* ====================================================================== *)

Lemma updateCellSize_cases (cellSize : Q) (containerWidth maxEpisodesInYear : Z)
    (s : App.t) :
  let size := computeCellSize containerWidth maxEpisodesInYear 102 1 in
  updateCellSize cellSize containerWidth maxEpisodesInYear s = s
  \/ (updateCellSize cellSize containerWidth maxEpisodesInYear s
      = App.setCellSize size s
      /\ containerWidth <> 0
      /\ (4 <= size)%Q
      /\ (1 # 10 < Qabs (size - cellSize))%Q).
Proof.
  cbv zeta. unfold updateCellSize.
  destruct (containerWidth =? 0) eqn:Hw; [left; reflexivity|].
  apply Z.eqb_neq in Hw. cbv zeta. rewrite updateCellSize_size.
  set (size := computeCellSize containerWidth maxEpisodesInYear 102 1).
  destruct (Qle_bool 4 size) eqn:H4; [|left; reflexivity].
  destruct (Num.Qlt_bool (1 # 10) (Qabs (size - cellSize))) eqn:Hd;
    [|left; reflexivity].
  right. simpl. split; [reflexivity|]. split; [exact Hw|].
  split; [apply Qle_bool_iff; exact H4|].
  unfold Num.Qlt_bool in Hd. apply negb_true_iff in Hd.
  destruct (Qlt_le_dec (1 # 10) (Qabs (size - cellSize))) as [Hlt | Hle];
    [exact Hlt|].
  apply Qle_bool_iff in Hle. rewrite Hle in Hd. discriminate.
Qed.




(** X12: the cell size never falls below the floor of 4: from a state whose
    cell size is at least 4 (the initial 11 is), any sequence of calls of
    [updateCellSize], whatever the closure captured and whatever the
    widths and row lengths, leaves a cell size of at least 4. *)
Theorem cellSize_floor (calls : list sizingCall) (s : App.t) :
  (4 <= App.cellSize s)%Q ->
  (4 <= App.cellSize (foldl runSizing s calls))%Q.
Proof.
  revert s. induction calls as [|[[captured w] n] calls IH]; intros s Hs; simpl;
    [exact Hs|].
  apply IH. unfold runSizing. simpl.
  destruct (updateCellSize_cases captured w n s) as [-> | [-> [_ [H4 _]]]];
    [exact Hs | exact H4].
Qed.

Lemma cellSize_floor_witness :
  (4 <= App.cellSize App.initial)%Q
  /\ (4 <= App.cellSize
             (foldl runSizing App.initial
                    [(11%Q, 902%Z, 50%Z); (11%Q, 200%Z, 50%Z); (11%Q, 1500%Z, 60%Z)]))%Q.
Proof.
  assert (H0 : (4 <= App.cellSize App.initial)%Q) by discriminate.
  split; [exact H0|].
  apply (cellSize_floor [(11%Q, 902%Z, 50%Z); (11%Q, 200%Z, 50%Z); (11%Q, 1500%Z, 60%Z)]
           App.initial H0).
Defined.

Lemma Qabs_self (x : Q) : (Qabs (x - x) == 0)%Q.
Proof.
  assert (H : (x - x == 0)%Q) by ring. rewrite H. reflexivity.
Qed.

(** X13: the sizing effect settles at once: run again with the same
    container width and row length, it changes nothing more. *)
Theorem cellSizeEffect_idempotent (container : option Z)
    (maxEpisodesInYear : Z) (s : App.t) :
  cellSizeEffect container maxEpisodesInYear
    (cellSizeEffect container maxEpisodesInYear s)
  = cellSizeEffect container maxEpisodesInYear s.
Proof.
  unfold cellSizeEffect. destruct container as [w|]; [|reflexivity].
  destruct (maxEpisodesInYear =? 0); [reflexivity|].
  destruct (updateCellSize_cases (App.cellSize s) w maxEpisodesInYear s)
    as [Hsame | [-> [Hw [H4 _]]]].
  - rewrite !Hsame. reflexivity.
  - simpl. unfold updateCellSize.
    replace (w =? 0) with false by (symmetry; apply Z.eqb_neq; exact Hw).
    cbv zeta. rewrite updateCellSize_size.
    set (size := computeCellSize w maxEpisodesInYear 102 1).
    replace (Num.Qlt_bool (1 # 10) (Qabs (size - size))) with false;
      [rewrite andb_false_r; reflexivity|].
    symmetry. unfold Num.Qlt_bool. apply negb_false_iff, Qle_bool_iff.
    rewrite Qabs_self. discriminate.
Qed.

(* ====================================================================== *)
(** * Properties: more on the hover timer                                 *)
(* ====================================================================== *)

Lemma fire_frame (w : World.t) (tm : Timer.t) :
  World.timers (fire w tm) = World.timers w
  /\ World.hoverTimeoutRef (fire w tm) = World.hoverTimeoutRef w
  /\ World.nextTimerId (fire w tm) = World.nextTimerId w
  /\ App.pinnedEpisode (World.app (fire w tm)) = App.pinnedEpisode (World.app w)
  /\ App.selectedEntity (World.app (fire w tm))
     = App.selectedEntity (World.app w).
Proof. repeat split. Qed.

Lemma foldl_fire_frame (tms : list Timer.t) (w : World.t) :
  World.timers (foldl fire w tms) = World.timers w
  /\ World.hoverTimeoutRef (foldl fire w tms) = World.hoverTimeoutRef w
  /\ World.nextTimerId (foldl fire w tms) = World.nextTimerId w
  /\ App.pinnedEpisode (World.app (foldl fire w tms))
     = App.pinnedEpisode (World.app w)
  /\ App.selectedEntity (World.app (foldl fire w tms))
     = App.selectedEntity (World.app w).
Proof.
  revert w. induction tms as [|tm tms IH]; intros w; simpl; [repeat split|].
  destruct (IH (fire w tm)) as [-> [-> [-> [-> ->]]]]. apply fire_frame.
Qed.

Lemma advanceTo_frame (t : Z) (w : World.t) :
  World.timers (advanceTo t w)
  = List.filter (fun tm => negb (isDue t tm)) (World.timers w)
  /\ World.hoverTimeoutRef (advanceTo t w) = World.hoverTimeoutRef w
  /\ World.nextTimerId (advanceTo t w) = World.nextTimerId w
  /\ World.now (advanceTo t w) = t
  /\ App.pinnedEpisode (World.app (advanceTo t w))
     = App.pinnedEpisode (World.app w)
  /\ App.selectedEntity (World.app (advanceTo t w))
     = App.selectedEntity (World.app w).
Proof.
  unfold advanceTo. simpl.
  destruct (foldl_fire_frame
              (JsArray.sort byDue (List.filter (isDue t) (World.timers w)))
              (World.set_timers
                 (List.filter (fun tm => negb (isDue t tm)) (World.timers w)) w))
    as [-> [-> [-> [-> ->]]]].
  repeat split.
Qed.

Lemma advanceTo_tidy (t : Z) (w : World.t) : tidy w -> tidy (advanceTo t w).
Proof.
  intros [Hid Ht]. unfold tidy.
  destruct (advanceTo_frame t w) as [-> [-> [-> _]]].
  split; [exact Hid|].
  destruct Ht as [-> | [tm [-> [Href [Hne Hlt]]]]]; [left; reflexivity|].
  simpl. destruct (isDue t tm); simpl; [left; reflexivity|].
  right. exists tm. auto.
Qed.

Lemma clearPendingHover_tidy (w : World.t) :
  tidy w ->
  World.timers (clearPendingHover w) = []
  /\ World.nextTimerId (clearPendingHover w) = World.nextTimerId w
  /\ World.hoverLog (clearPendingHover w) = World.hoverLog w
  /\ World.now (clearPendingHover w) = World.now w
  /\ World.app (clearPendingHover w) = World.app w.
Proof.
  intros [Hid Ht]. unfold clearPendingHover.
  destruct Ht as [Hnil | [tm [Htm [Href [Hne _]]]]].
  - destruct (World.hoverTimeoutRef w) as [id|]; [|auto].
    destruct (id =? 0)%nat; [auto|].
    unfold clearTimeout. simpl. rewrite Hnil. auto.
  - rewrite Href.
    replace (Timer.id tm =? 0)%nat with false
      by (symmetry; apply Nat.eqb_neq; exact Hne).
    unfold clearTimeout. simpl. rewrite Htm. simpl.
    rewrite Nat.eqb_refl. auto.
Qed.

Lemma handle_tidy (e : event) (w : World.t) : tidy w -> tidy (handle e w).
Proof.
  intros Hw. pose proof Hw as [Hid _].
  destruct (clearPendingHover_tidy w Hw) as [Hnil [Hnext _]].
  destruct e as [idx| |idx]; simpl.
  - unfold setHoveredEpisodeDebounced, setTimeout, tidy. simpl.
    rewrite Hnil, Hnext. split; [lia|]. right. eexists. simpl.
    split; [reflexivity|]. simpl. split; [reflexivity|]. split; lia.
  - unfold leaveTimelineRow, tidy. simpl. rewrite Hnil, Hnext. auto.
  - exact Hw.
Qed.

Lemma run_snoc (evs : list (Z * event)) (te : Z * event) (w : World.t) :
  run (evs ++ [te]) w = handle (snd te) (advanceTo (fst te) (run evs w)).
Proof. unfold run. rewrite foldl_app. reflexivity. Qed.

Lemma run_tidy (evs : list (Z * event)) (w : World.t) :
  tidy w -> tidy (run evs w).
Proof.
  revert w. induction evs as [|te evs IH]; intros w Hw; [exact Hw|].
  rewrite run_cons. apply IH, handle_tidy, advanceTo_tidy, Hw.
Qed.

Lemma initial_tidy : tidy World.initial.
Proof. split; [simpl; lia | left; reflexivity]. Qed.

(** X14: timers never pile up: whatever the events and their times, from
    the initial world (or any world that holds at most the timer its ref
    points to) at most one timer is pending at any moment, and it is the
    one the ref points to. *)
Theorem at_most_one_timer (evs : list (Z * event)) (w : World.t) :
  tidy w ->
  let w' := run evs w in
  (length (World.timers w') <= 1)%nat
  /\ (forall tm, tm ∈ World.timers w' ->
        World.hoverTimeoutRef w' = Some (Timer.id tm)).
Proof.
  intros Hw. cbv zeta. destruct (run_tidy evs w Hw) as [_ Ht].
  destruct Ht as [-> | [tm [-> [Href _]]]]; simpl.
  - split; [lia|]. intros tm Htm. inversion Htm.
  - split; [lia|]. intros tm' Htm'. apply list_elem_of_singleton in Htm'.
    subst tm'. exact Href.
Qed.

Lemma at_most_one_timer_witness :
  tidy World.initial
  /\ (length (World.timers
                (run [(0%Z, MouseEnterCell 1); (5%Z, ClickCell 1);
                      (70%Z, MouseEnterCell 2); (75%Z, MouseEnterCell 3)]
                     World.initial)) <= 1)%nat.
Proof.
  split; [exact initial_tidy|].
  apply (at_most_one_timer
           [(0%Z, MouseEnterCell 1); (5%Z, ClickCell 1);
            (70%Z, MouseEnterCell 2); (75%Z, MouseEnterCell 3)]
           World.initial initial_tidy).
Defined.

(** X15: leaving the row is final: after any events that end with the
    mouse leaving the row at time [t], and silence from then on, no timer is
    left, the last call of [setHoveredEpisode] is the one of the leave, with
    [null], and no episode is hovered. *)
Theorem leave_is_final (evs : list (Z * event)) (t : Z) (w : World.t) :
  tidy w ->
  let w' := settle (run (evs ++ [(t, MouseLeaveRow)]) w) in
  World.timers w' = []
  /\ last (World.hoverLog w') = Some (t, None)
  /\ App.hoveredEpisode (World.app w') = None.
Proof.
  intros Hw. cbv zeta. rewrite run_snoc. simpl fst. simpl snd.
  set (w1 := advanceTo t (run evs w)).
  assert (H1 : tidy w1) by (apply advanceTo_tidy, run_tidy, Hw).
  assert (Hnow : World.now w1 = t) by apply advanceTo_frame.
  destruct (clearPendingHover_tidy w1 H1) as [Hnil [_ [_ [Hnow' _]]]].
  unfold handle, leaveTimelineRow, settle, setHoveredEpisode. simpl.
  rewrite Hnil, Hnow', Hnow. simpl.
  split; [reflexivity|]. split; [apply last_snoc | reflexivity].
Qed.

Lemma leave_is_final_witness :
  tidy World.initial
  /\ last (World.hoverLog
             (settle (run ([(0%Z, MouseEnterCell 1); (10%Z, MouseEnterCell 2)]
                           ++ [(20%Z, MouseLeaveRow)]) World.initial)))
     = Some (20%Z, None).
Proof.
  split; [exact initial_tidy|].
  apply (leave_is_final [(0%Z, MouseEnterCell 1); (10%Z, MouseEnterCell 2)] 20%Z
           World.initial initial_tidy).
Defined.

Lemma handle_hover_frame (e : event) (w : World.t) :
  isHover e = true ->
  App.pinnedEpisode (World.app (handle e w)) = App.pinnedEpisode (World.app w)
  /\ App.selectedEntity (World.app (handle e w))
     = App.selectedEntity (World.app w).
Proof.
  destruct e as [idx| |idx]; simpl; [| |discriminate]; intros _.
  - unfold setHoveredEpisodeDebounced, clearPendingHover, clearTimeout.
    destruct (World.hoverTimeoutRef w) as [id|]; [|split; reflexivity].
    destruct (id =? 0)%nat; split; reflexivity.
  - unfold leaveTimelineRow, clearPendingHover, clearTimeout.
    destruct (World.hoverTimeoutRef w) as [id|]; [|split; reflexivity].
    destruct (id =? 0)%nat; split; reflexivity.
Qed.

Lemma run_hover_frame (evs : list (Z * event)) (w : World.t) :
  Forall (fun te => isHover (snd te) = true) evs ->
  App.pinnedEpisode (World.app (run evs w)) = App.pinnedEpisode (World.app w)
  /\ App.selectedEntity (World.app (run evs w))
     = App.selectedEntity (World.app w).
Proof.
  intros Hev. revert w. induction Hev as [|te evs Hte _ IH]; intros w;
    [split; reflexivity|].
  rewrite run_cons. destruct (IH (handle (snd te) (advanceTo (fst te) w)))
    as [-> ->].
  destruct (handle_hover_frame (snd te) (advanceTo (fst te) w) Hte) as [-> ->].
  destruct (advanceTo_frame (fst te) w) as [_ [_ [_ [_ [-> ->]]]]].
  split; reflexivity.
Qed.

(** X16: hovering never touches the pin: while an episode is pinned, any
    sequence of cell hovers and row leaves, with the timers they start and
    silence at the end, leaves the pin and the selected entity as they are,
    and the summary keeps showing the pinned episode. *)
Theorem pin_survives_hover (evs : list (Z * event)) (w : World.t) (idx : nat) :
  Forall (fun te => isHover (snd te) = true) evs ->
  App.pinnedEpisode (World.app w) = Some idx ->
  let w' := settle (run evs w) in
  App.pinnedEpisode (World.app w') = Some idx
  /\ App.selectedEntity (World.app w') = App.selectedEntity (World.app w)
  /\ displayEpisodeIdx (World.app w') = Some idx.
Proof.
  intros Hev Hpin. cbv zeta.
  destruct (run_hover_frame evs w Hev) as [Hp Hs].
  unfold settle.
  destruct (foldl_fire_frame (JsArray.sort byDue (World.timers (run evs w)))
              (World.set_timers [] (run evs w))) as [_ [_ [_ [Hp' Hs']]]].
  simpl in Hp', Hs'. unfold displayEpisodeIdx.
  rewrite Hp', Hs', Hp, Hs, Hpin. auto.
Qed.

Lemma pin_survives_hover_witness :
  App.pinnedEpisode (World.app (handle (ClickCell 7) World.initial)) = Some 7%nat
  /\ displayEpisodeIdx
       (World.app
          (settle (run [(0%Z, MouseEnterCell 1); (60%Z, MouseEnterCell 2);
                        (70%Z, MouseLeaveRow)]
                       (handle (ClickCell 7) World.initial))))
     = Some 7%nat.
Proof.
  split; [reflexivity|].
  apply (pin_survives_hover
           [(0%Z, MouseEnterCell 1); (60%Z, MouseEnterCell 2); (70%Z, MouseLeaveRow)]
           (handle (ClickCell 7) World.initial) 7%nat);
    [repeat constructor | reflexivity].
Defined.

(* ====================================================================== *)
(** * Properties: the episode link                                        *)
(* ====================================================================== *)

Module SlugFacts.
Import Slug.

Lemma replaceRuns_Forall (p : ascii -> bool) (r : ascii) (Q : ascii -> Prop)
    (b : bool) (l : list ascii) :
  Q r -> Forall (fun c => p c = false -> Q c) l ->
  Forall Q (replaceRuns p r b l).
Proof.
  intros Hr Hl. revert b. induction Hl as [|c l Hc _ IH]; intros b; simpl;
    [constructor|].
  destruct (p c) eqn:Hp.
  - destruct b; [apply IH | constructor; [exact Hr | apply IH]].
  - constructor; [apply Hc; reflexivity | apply IH].
Qed.

Lemma collapse_noAdjacent (b : bool) (l : list ascii) :
  noAdjacentHyphens (replaceRuns is_hyphen hyphen b l)
  /\ (b = true -> headNotHyphen (replaceRuns is_hyphen hyphen b l)).
Proof.
  revert b. induction l as [|c l IH]; intros b; simpl; [auto|].
  destruct (is_hyphen c) eqn:Hc.
  - destruct b.
    + apply IH.
    + split; [|discriminate]. simpl. split; [intros _; apply IH; reflexivity|].
      apply IH.
  - simpl. split; [|intros _; exact Hc].
    split; [congruence | apply IH].
Qed.

Lemma noAdjacent_removelast (l : list ascii) :
  noAdjacentHyphens l -> noAdjacentHyphens (removelast l).
Proof.
  induction l as [|a l IH]; [auto|]. intros [Ha Hl].
  destruct l as [|b l']; [exact I|].
  change (removelast (a :: b :: l')) with (a :: removelast (b :: l')).
  split; [|apply IH; exact Hl].
  intros Hh. specialize (Ha Hh). destruct l'; [exact I | exact Ha].
Qed.

Lemma removelast_head (l : list ascii) :
  headNotHyphen l -> headNotHyphen (removelast l).
Proof.
  destruct l as [|a [|b l']]; simpl; auto.
Qed.

Lemma removelast_last (l : list ascii) (c : ascii) :
  noAdjacentHyphens l -> last l = Some c -> is_hyphen c = true ->
  forall d, last (removelast l) = Some d -> is_hyphen d = false.
Proof.
  induction l as [|a l IH]; [discriminate|]. intros [Ha Hl] Hlast Hc d Hd.
  destruct l as [|b l']; [discriminate|].
  change (removelast (a :: b :: l')) with (a :: removelast (b :: l')) in Hd.
  rewrite last_cons_cons in Hlast.
  destruct l' as [|e l''].
  - simpl in Hd, Hlast. injection Hd as <-. injection Hlast as ->.
    destruct (is_hyphen a) eqn:Hah; [|reflexivity].
    specialize (Ha eq_refl). simpl in Ha. congruence.
  - change (removelast (b :: e :: l'')) with (b :: removelast (e :: l'')) in Hd.
    rewrite last_cons_cons in Hd.
    apply (IH Hl Hlast Hc d).
    change (removelast (b :: e :: l'')) with (b :: removelast (e :: l'')).
    exact Hd.
Qed.

Lemma removelast_Forall (Q : ascii -> Prop) (l : list ascii) :
  Forall Q l -> Forall Q (removelast l).
Proof.
  induction 1 as [|a l Ha Hl IH]; [constructor|].
  destruct l as [|b l']; [constructor|].
  change (removelast (a :: b :: l')) with (a :: removelast (b :: l')).
  constructor; assumption.
Qed.

Lemma is_hyphen_true (c : ascii) : is_hyphen c = true <-> c = hyphen.
Proof. apply Ascii.eqb_eq. Qed.

Lemma noAdjacent_lookup (l : list ascii) (i : nat) :
  noAdjacentHyphens l -> ~ (l !! i = Some hyphen /\ l !! S i = Some hyphen).
Proof.
  revert i. induction l as [|a l IH]; intros i Hl [H1 H2]; [discriminate|].
  destruct Hl as [Ha Hl]. destruct i as [|i]; simpl in *.
  - injection H1 as ->. specialize (Ha eq_refl).
    destruct l as [|b l']; [discriminate|]. simpl in *.
    injection H2 as ->. discriminate.
  - apply (IH i Hl). auto.
Qed.

Lemma lookup_noAdjacent (l : list ascii) :
  (forall i, ~ (l !! i = Some hyphen /\ l !! S i = Some hyphen)) ->
  noAdjacentHyphens l.
Proof.
  induction l as [|a l IH]; intros Hl; [exact I|]. split.
  - intros Ha. apply is_hyphen_true in Ha. subst a.
    destruct l as [|b l']; [exact I|]. simpl.
    destruct (is_hyphen b) eqn:Hb; [|reflexivity].
    apply is_hyphen_true in Hb. subst b. exfalso. apply (Hl 0%nat). auto.
  - apply IH. intros i. apply (Hl (S i)).
Qed.

(** The tidy-up of the hyphens, on a list whose hyphens are single. *)
Lemma trimHyphens_wellFormed (l : list ascii) :
  Forall (fun c => slugChar c = true) l -> noAdjacentHyphens l ->
  wellFormed (trimHyphens l).
Proof.
  intros Hall Hadj. unfold trimHyphens.
  set (l1 := match l with
             | c :: l' => if is_hyphen c then l' else l
             | [] => []
             end).
  assert (H1 : Forall (fun c => slugChar c = true) l1
               /\ noAdjacentHyphens l1 /\ headNotHyphen l1).
  { unfold l1. destruct l as [|c l']; [repeat split; constructor|].
    destruct Hadj as [Hc Hadj]. apply Forall_cons in Hall as [Hsc Hall].
    destruct (is_hyphen c) eqn:Hh.
    - auto.
    - split; [constructor; assumption|]. split; [split; [congruence | exact Hadj]|].
      exact Hh. }
  clearbody l1. destruct H1 as [Hall1 [Hadj1 Hhead1]].
  assert (Hgoal : forall l2, Forall (fun c => slugChar c = true) l2 ->
            noAdjacentHyphens l2 -> headNotHyphen l2 ->
            (forall d, last l2 = Some d -> is_hyphen d = false) ->
            wellFormed l2).
  { intros l2 Ha Hn Hh Hl. split; [exact Ha|]. split; [|split].
    - destruct l2 as [|c ?]; [discriminate|]. simpl in *.
      intros [= ->]. discriminate.
    - intros Hlast. specialize (Hl _ Hlast). discriminate.
    - intros i. apply noAdjacent_lookup. exact Hn. }
  destruct (last l1) as [c|] eqn:Hlast.
  - destruct (is_hyphen c) eqn:Hc.
    + apply Hgoal.
      * apply removelast_Forall. exact Hall1.
      * apply noAdjacent_removelast. exact Hadj1.
      * apply removelast_head. exact Hhead1.
      * apply (removelast_last l1 c Hadj1 Hlast Hc).
    + apply Hgoal; try assumption. intros d Hd. congruence.
  - apply Hgoal; try assumption. intros d Hd. congruence.
Qed.

Lemma kept_slugChar (c : ascii) :
  kept c = true -> is_space c = false -> slugChar c = true.
Proof.
  unfold kept, slugChar. intros Hk Hs. rewrite Hs, orb_false_r in Hk. exact Hk.
Qed.

(** Every slug is well formed, whatever goes in. *)
Lemma ofLowered_wellFormed (l : list ascii) : wellFormed (ofLowered l).
Proof.
  unfold ofLowered. apply trimHyphens_wellFormed.
  - apply replaceRuns_Forall; [reflexivity|].
    apply Forall_forall. intros c Hc _.
    revert c Hc. apply Forall_forall.
    apply replaceRuns_Forall; [reflexivity|].
    apply Forall_forall. intros c Hc Hs.
    apply list_elem_of_In, filter_In in Hc as [_ Hk].
    apply kept_slugChar; assumption.
  - apply collapse_noAdjacent.
Qed.

(** ** A slug is left as it is *)

Lemma filter_id {A : Type} (p : A -> bool) (l : list A) :
  Forall (fun a => p a = true) l -> List.filter p l = l.
Proof.
  induction 1 as [|a l Ha _ IH]; simpl; [reflexivity|].
  rewrite Ha, IH. reflexivity.
Qed.

Lemma replaceRuns_none (p : ascii -> bool) (r : ascii) (b : bool)
    (l : list ascii) :
  Forall (fun c => p c = false) l -> replaceRuns p r b l = l.
Proof.
  intros Hl. revert b. induction Hl as [|c l Hc _ IH]; intros b; simpl;
    [reflexivity|].
  rewrite Hc, IH. reflexivity.
Qed.

Lemma collapse_id (l : list ascii) :
  noAdjacentHyphens l ->
  replaceRuns is_hyphen hyphen false l = l
  /\ (headNotHyphen l -> replaceRuns is_hyphen hyphen true l = l).
Proof.
  induction l as [|c l IH]; [auto|]. intros [Hc Hl].
  destruct (IH Hl) as [IHf IHt]. simpl.
  destruct (is_hyphen c) eqn:Hh.
  - split; [|simpl; congruence].
    rewrite (IHt (Hc eq_refl)). apply is_hyphen_true in Hh. congruence.
  - rewrite IHf. auto.
Qed.

Lemma slugChar_cases (c : ascii) :
  slugChar c = true ->
  Ascii.eqb c apostrophe = false /\ kept c = true /\ is_space c = false.
Proof.
  unfold slugChar, kept, is_lower, Js.is_digit, is_space, is_hyphen, Js.code.
  destruct c as [[] [] [] [] [] [] [] []]; vm_compute; intros; auto;
    discriminate.
Qed.

Lemma ofLowered_id (l : list ascii) : wellFormed l -> ofLowered l = l.
Proof.
  intros [Hall [Hhead [Hlast Hadj]]].
  apply lookup_noAdjacent in Hadj.
  assert (Hcases : Forall (fun c => Ascii.eqb c apostrophe = false
                                    /\ kept c = true /\ is_space c = false) l).
  { eapply Forall_impl; [exact Hall|]. apply slugChar_cases. }
  unfold ofLowered, removeApostrophes, removeSpecial, spacesToHyphens,
    collapseHyphens.
  rewrite (filter_id (fun c => negb (Ascii.eqb c apostrophe)) l)
    by (eapply Forall_impl; [exact Hcases|]; simpl; intros c [-> _]; reflexivity).
  rewrite (filter_id kept l)
    by (eapply Forall_impl; [exact Hcases|]; simpl; intros c [_ [-> _]]; reflexivity).
  rewrite (replaceRuns_none is_space hyphen false l)
    by (eapply Forall_impl; [exact Hcases|]; simpl; intros c [_ [_ ->]]; reflexivity).
  rewrite (proj1 (collapse_id l Hadj)).
  unfold trimHyphens.
  assert (Hl1 : match l with
                | c :: l' => if is_hyphen c then l' else l
                | [] => []
                end = l).
  { destruct l as [|c l']; [reflexivity|].
    destruct (is_hyphen c) eqn:Hc; [|reflexivity].
    apply is_hyphen_true in Hc. subst c. exfalso. apply Hhead. reflexivity. }
  rewrite Hl1. destruct (last l) as [c|] eqn:Hc; [|reflexivity].
  destruct (is_hyphen c) eqn:Hh; [|reflexivity].
  apply is_hyphen_true in Hh. subst c. contradiction.
Qed.

End SlugFacts.

Section EpisodeLink.
Context `{Host}.

(** X17: the slug of the episode link is well formed for every title and
    every lower-casing of the host: only [a-z], digits and hyphens, no
    hyphen at either end, and no two hyphens in a row. *)
Theorem slugOf_wellFormed (title : string) :
  let slug := Js.chars (slugOf title) in
  Forall (fun c => Slug.slugChar c = true) slug
  /\ head slug <> Some Slug.hyphen
  /\ last slug <> Some Slug.hyphen
  /\ (forall i, ~ (slug !! i = Some Slug.hyphen
                   /\ slug !! S i = Some Slug.hyphen))
  /\ getEarwolfUrl title
     = String.append "https://www.earwolf.com/episode/"
         (String.append (string_of_list_ascii slug) "/").
Proof.
  cbv zeta. unfold getEarwolfUrl, slugOf, Js.chars.
  rewrite list_ascii_of_string_of_list_ascii.
  destruct (SlugFacts.ofLowered_wellFormed
              (list_ascii_of_string (String_toLowerCase title)))
    as [H1 [H2 [H3 H4]]].
  auto.
Qed.

(** X18: a slug is its own slug: when the host's lower-casing leaves
    strings of [a-z], digits and hyphens as they are, making the slug of a
    slug changes nothing. *)
Theorem slugOf_idempotent (title : string) :
  (forall s, Forall (fun c => Slug.slugChar c = true) (Js.chars s) ->
             String_toLowerCase s = s) ->
  slugOf (slugOf title) = slugOf title.
Proof.
  intros Hlower.
  pose proof (SlugFacts.ofLowered_wellFormed
                (Js.chars (String_toLowerCase title))) as Hwf.
  unfold slugOf at 1. rewrite Hlower.
  - unfold slugOf, Js.chars. rewrite list_ascii_of_string_of_list_ascii.
    rewrite SlugFacts.ofLowered_id; [reflexivity | exact Hwf].
  - unfold slugOf, Js.chars. rewrite list_ascii_of_string_of_list_ascii.
    apply Hwf.
Qed.

End EpisodeLink.

Lemma lower_slugChars (s : string) :
  Forall (fun c => Slug.slugChar c = true) (Js.chars s) -> Demo.lower s = s.
Proof.
  induction s as [|c s IH]; [reflexivity|]. unfold Js.chars. simpl.
  intros Hall. apply Forall_cons in Hall as [Hc Hall].
  rewrite (IH Hall). f_equal.
  revert Hc. unfold Demo.lowerChar, Slug.slugChar, Slug.is_lower, Js.is_digit,
    Slug.is_hyphen, Js.code.
  destruct c as [[] [] [] [] [] [] [] []]; vm_compute; intros; auto; discriminate.
Qed.

Lemma slugOf_idempotent_witness :
  @slugOf Demo.host (@slugOf Demo.host "I'll Always  Live - Here!")
  = @slugOf Demo.host "I'll Always  Live - Here!".
Proof.
  apply (@slugOf_idempotent Demo.host "I'll Always  Live - Here!"%string).
  exact lower_slugChars.
Defined.

(** The apostrophe goes, the blanks and hyphens between words become one
    hyphen, the exclamation mark goes. *)
Example getEarwolfUrl_example :
  @getEarwolfUrl Demo.host "I'll Always  Live - Here!"
  = "https://www.earwolf.com/episode/ill-always-live-here/"%string.
Proof. vm_compute. reflexivity. Qed.

(** A title of special characters only has the empty slug. *)
Example getEarwolfUrl_empty :
  @getEarwolfUrl Demo.host "?!"
  = "https://www.earwolf.com/episode//"%string.
Proof. vm_compute. reflexivity. Qed.

(* ====================================================================== *)
(** * Properties: recency dot and frequency bar                           *)
(* ====================================================================== *)

Section EntityRows.
Context `{Host}.

Lemma unit_product (a b : Q) :
  (0 <= a)%Q -> (a <= 1)%Q -> (0 <= b)%Q -> (b <= 1)%Q ->
  (0 <= a * b)%Q /\ (a * b <= 1)%Q.
Proof.
  intros Ha0 Ha1 Hb0 Hb1. split; [apply Qmult_le_0_compat; assumption|].
  assert (Hab : (a * b <= 1 * b)%Q) by (apply Qmult_le_compat_r; assumption).
  lra.
Qed.

Lemma recency_hues (q : Q) :
  (0 <= q)%Q -> (q <= 1)%Q ->
  (exists h, getRecencyHue (Num.Fin q) = Num.Fin h
             /\ (120 <= h)%Q /\ (h <= 280)%Q)
  /\ (exists h, getRecencyHueAdjusted (Num.Fin q) = Num.Fin h
                /\ (120 <= h)%Q /\ (h <= 280)%Q).
Proof.
  intros H0 H1. split.
  - eexists. split; [reflexivity|]. split; lra.
  - eexists. split; [reflexivity|].
    destruct (unit_product q q H0 H1 H0 H1) as [H2 H3].
    destruct (unit_product (q * q) q H2 H3 H0 H1) as [H4 H5].
    destruct (unit_product (q * q * q) q H4 H5 H0 H1) as [H6 H7].
    split; lra.
Qed.

Lemma recencyRatio_unit (episodes : list Ep.t) (r : Ent.t) :
  (Ent.lastIdx r < length episodes)%nat -> (2 <= length episodes)%nat ->
  exists q, recencyRatio episodes r = Num.Fin q /\ (0 <= q)%Q /\ (q <= 1)%Q.
Proof.
  intros Hlast Hlen. unfold recencyRatio, Num.div, Num.of_nat.
  set (d := inject_Z (Z.of_nat (length episodes) - 1)).
  assert (Hd : (0 < d)%Q).
  { unfold d. change 0%Q with (inject_Z 0). rewrite <- Zlt_Qlt. lia. }
  replace (Qeq_bool d 0) with false.
  - eexists. split; [reflexivity|]. split.
    + apply Qle_shift_div_l; [exact Hd|]. rewrite Qmult_0_l.
      change 0%Q with (inject_Z 0). rewrite <- Zle_Qle. lia.
    + apply Qle_shift_div_r; [exact Hd|]. rewrite Qmult_1_l.
      unfold d. rewrite <- Zle_Qle. lia.
  - symmetry. apply not_true_iff_false. rewrite Qeq_bool_iff. lra.
Qed.

Lemma loadData_lastIdx_bound (raw : Raw.data) (data : Data.t) (r : Ent.t) :
  loadData (Some raw) = Some data ->
  r ∈ JsMap.values (Data.guestMap data)
  \/ r ∈ JsMap.values (Data.characterMap data) ->
  (Ent.lastIdx r < length (Data.episodes data))%nat.
Proof.
  intros Hload Hr. destruct (loadData_crossRef raw data Hload) as [Hg Hc].
  destruct Hr as [Hr | Hr]; apply JsMapFacts.elem_of_values in Hr as [k Hk].
  - destruct (entryOf_bounds _ _ _ _ (crossRef_get _ _ _ _ _ Hg Hk))
      as [_ [_ [_ [_ [_ [ep [Hep _]]]]]]].
    apply lookup_lt_Some in Hep. exact Hep.
  - destruct (entryOf_bounds _ _ _ _ (crossRef_get _ _ _ _ _ Hc Hk))
      as [_ [_ [_ [_ [_ [ep [Hep _]]]]]]].
    apply lookup_lt_Some in Hep. exact Hep.
Qed.

(** X19: with two episodes or more, the recency ratio of every entity of
    the two maps is a finite number between 0 and 1, and the hue of its dot
    lies between 120 (green) and 280 (purple), in the plain variant and in
    the one with the fourth power. *)
Theorem recency_hue_range (raw : Raw.data) (data : Data.t) :
  loadData (Some raw) = Some data ->
  (2 <= length (Data.episodes data))%nat ->
  forall r : Ent.t,
    r ∈ JsMap.values (Data.guestMap data)
    \/ r ∈ JsMap.values (Data.characterMap data) ->
    exists q h h4 : Q,
      recencyRatio (Data.episodes data) r = Num.Fin q
      /\ (0 <= q)%Q /\ (q <= 1)%Q
      /\ getRecencyHue (recencyRatio (Data.episodes data) r) = Num.Fin h
      /\ (120 <= h)%Q /\ (h <= 280)%Q
      /\ getRecencyHueAdjusted (recencyRatio (Data.episodes data) r) = Num.Fin h4
      /\ (120 <= h4)%Q /\ (h4 <= 280)%Q.
Proof.
  intros Hload Hlen r Hr.
  pose proof (loadData_lastIdx_bound raw data r Hload Hr) as Hlast.
  destruct (recencyRatio_unit _ r Hlast Hlen) as [q [Hq [H0 H1]]].
  destruct (recency_hues q H0 H1) as [[h [Hh [Hh0 Hh1]]] [h4 [Hh4 [Hh40 Hh41]]]].
  exists q, h, h4. rewrite Hq. auto 10.
Qed.

(** X20: with one episode only, the ratio is [0 / 0]: every entity has the
    recency ratio [NaN], and the hue of its dot is [NaN] in both
    variants. *)
Theorem recency_single_episode (raw : Raw.data) (data : Data.t) :
  loadData (Some raw) = Some data ->
  length (Data.episodes data) = 1%nat ->
  forall r : Ent.t,
    r ∈ JsMap.values (Data.guestMap data)
    \/ r ∈ JsMap.values (Data.characterMap data) ->
    recencyRatio (Data.episodes data) r = Num.NaN
    /\ getRecencyHue (recencyRatio (Data.episodes data) r) = Num.NaN
    /\ getRecencyHueAdjusted (recencyRatio (Data.episodes data) r) = Num.NaN.
Proof.
  intros Hload Hlen r Hr.
  pose proof (loadData_lastIdx_bound raw data r Hload Hr) as Hlast.
  assert (Hratio : recencyRatio (Data.episodes data) r = Num.NaN).
  { unfold recencyRatio. rewrite Hlen in *.
    replace (Ent.lastIdx r) with 0%nat by lia. reflexivity. }
  rewrite Hratio. auto.
Qed.

Lemma byAppearances_sorted (l : list Ent.t) :
  StronglySorted
    (fun a b => (length (Ent.episodes b) <= length (Ent.episodes a))%nat)
    (JsArray.sort byAppearances l).
Proof.
  apply JsArrayFacts.sort_StronglySorted; unfold byAppearances; intros; lia.
Qed.

(** X21: sorted by appearances, no frequency bar is wider than 100%: the
    width of every listed entity is a finite number between 0 and 100. *)
Theorem barWidth_range (guestMap characterMap : JsMap.t string Ent.t)
    (type : entityType) (searchQuery : string) :
  let listed := sortedEntities guestMap characterMap type SortBy.appearances
                  searchQuery in
  forall e : Ent.t, e ∈ listed ->
    exists w : Q, barWidth listed e = Num.Fin w /\ (0 <= w)%Q /\ (w <= 100)%Q.
Proof.
  cbv zeta. rewrite sortedEntities_unfold. cbv zeta.
  set (entities := List.filter _ _).
  pose proof (byAppearances_sorted entities) as Hsorted.
  set (listed := JsArray.sort byAppearances entities) in *. clearbody listed.
  intros e He.
  assert (Hle : (length (Ent.episodes e) <= barDenominator listed)%nat
                /\ (0 < barDenominator listed)%nat).
  { unfold barDenominator. destruct listed as [|e0 rest]; [inversion He|].
    simpl. apply StronglySorted_cons in Hsorted as [Hall _].
    rewrite Forall_forall in Hall.
    assert (length (Ent.episodes e) <= length (Ent.episodes e0))%nat.
    { apply elem_of_cons in He as [-> | He]; [lia | apply Hall; exact He]. }
    destruct (Nat.eqb_spec (length (Ent.episodes e0)) 0); lia. }
  destruct Hle as [Hle Hpos]. unfold barWidth, Num.div, Num.of_nat.
  rewrite NumFacts.of_nat_zero, bool_decide_eq_false_2 by lia. simpl.
  set (n := inject_Z (Z.of_nat (length (Ent.episodes e)))).
  set (d := inject_Z (Z.of_nat (barDenominator listed))).
  assert (Hd : (0 < d)%Q).
  { unfold d. change 0%Q with (inject_Z 0). rewrite <- Zlt_Qlt. lia. }
  assert (Hn0 : (0 <= n)%Q).
  { unfold n. change 0%Q with (inject_Z 0). rewrite <- Zle_Qle. lia. }
  assert (Hnd : (n <= d)%Q) by (unfold n, d; rewrite <- Zle_Qle; lia).
  assert (Hr0 : (0 <= n / d)%Q) by (apply Qle_shift_div_l; lra).
  assert (Hr1 : (n / d <= 1)%Q) by (apply Qle_shift_div_r; lra).
  eexists. split; [reflexivity|]. split; lra.
Qed.

End EntityRows.

Lemma recency_hue_range_witness :
  exists data, @loadData Demo.host (Some Demo.corpusMixed) = Some data
    /\ (2 <= length (Data.episodes data))%nat
    /\ forall r : Ent.t,
         r ∈ JsMap.values (Data.guestMap data)
         \/ r ∈ JsMap.values (Data.characterMap data) ->
         exists q h h4 : Q,
           recencyRatio (Data.episodes data) r = Num.Fin q
           /\ (0 <= q)%Q /\ (q <= 1)%Q
           /\ getRecencyHue (recencyRatio (Data.episodes data) r) = Num.Fin h
           /\ (120 <= h)%Q /\ (h <= 280)%Q
           /\ getRecencyHueAdjusted (recencyRatio (Data.episodes data) r)
              = Num.Fin h4
           /\ (120 <= h4)%Q /\ (h4 <= 280)%Q.
Proof.
  eexists. split; [reflexivity|].
  split; [vm_compute; lia|].
  apply (@recency_hue_range Demo.host Demo.corpusMixed); [reflexivity|].
  vm_compute. lia.
Defined.

Lemma recency_single_episode_witness :
  exists data,
    @loadData Demo.host
      (Some (Demo.rawData [Demo.rawEpisode "One" "1" "1000" ["A"] ["x"]]))
    = Some data
    /\ length (Data.episodes data) = 1%nat
    /\ forall r : Ent.t,
         r ∈ JsMap.values (Data.guestMap data)
         \/ r ∈ JsMap.values (Data.characterMap data) ->
         recencyRatio (Data.episodes data) r = Num.NaN.
Proof.
  eexists. split; [reflexivity|]. split; [reflexivity|].
  intros r Hr.
  apply (@recency_single_episode Demo.host
           (Demo.rawData [Demo.rawEpisode "One" "1" "1000" ["A"] ["x"]]) _
           eq_refl eq_refl r Hr).
Defined.

(** Sorted by name, the first entity need not have the most appearances:
    in the mixed corpus the bar of guest B, with two appearances against
    the one of A, is 200% wide. *)
Example barWidth_by_name :
  (fun data =>
     let listed := @sortedEntities Demo.host (Data.guestMap data)
                     (Data.characterMap data) guest SortBy.name "" in
     map (fun e => (Ent.name e, barWidth listed e)) listed)
    <$> @loadData Demo.host (Some Demo.corpusMixed)
  = Some [("A", Num.Fin 100); ("B", Num.Fin 200)]%string.
Proof. vm_compute. reflexivity. Qed.

Lemma barWidth_range_witness :
  exists data e,
    @loadData Demo.host (Some Demo.corpusMixed) = Some data
    /\ e ∈ @sortedEntities Demo.host (Data.guestMap data) (Data.characterMap data)
             guest SortBy.appearances ""
    /\ exists w : Q,
         barWidth (@sortedEntities Demo.host (Data.guestMap data)
                     (Data.characterMap data) guest SortBy.appearances "") e
         = Num.Fin w
         /\ (0 <= w)%Q /\ (w <= 100)%Q.
Proof.
  eexists. eexists. split; [reflexivity|].
  assert (Hin : forall (e : Ent.t) l, e ∈ e :: l) by (intros; left).
  split.
  - vm_compute. apply Hin.
  - apply (@barWidth_range Demo.host). vm_compute. apply Hin.
Defined.

(* ====================================================================== *)
(** * Properties: highlight and detail panel                              *)
(* ====================================================================== *)

Section Detail.
Context `{Host}.

Lemma computed_idx (raw : Raw.data) (i : nat) (ep : Ep.t) :
  computedEpisodes raw !! i = Some ep -> Ep.idx ep = i.
Proof.
  unfold computedEpisodes. rewrite list_lookup_imap.
  destruct (sortedEpisodes raw !! i); [|discriminate].
  intros [= <-]. reflexivity.
Qed.

Lemma computed_at_idx (raw : Raw.data) (ep : Ep.t) :
  ep ∈ computedEpisodes raw -> computedEpisodes raw !! Ep.idx ep = Some ep.
Proof.
  intros Hep. apply list_elem_of_lookup in Hep as [i Hi].
  rewrite (computed_idx raw i ep Hi). exact Hi.
Qed.

(** X22: the timeline highlights exactly the episodes of the selected
    entity: for a selected name and an episode of the data, the episode
    counts as having the entity if and only if the map of the current kind
    has an entry for that name whose [episodes] holds the episode's
    [idx]. *)
Theorem highlight_matches_index (raw : Raw.data) (data : Data.t) (s : App.t)
    (selected : string) :
  loadData (Some raw) = Some data ->
  App.selectedEntity s = Some selected -> selected <> ""%string ->
  forall ep : Ep.t, ep ∈ Data.episodes data ->
    let lookup := match App.entityType_ s with
                  | guest => Data.guestMap data
                  | character => Data.characterMap data
                  end in
    episodeHasEntity s ep = true
    <-> exists r, JsMap.get lookup selected = Some r
                  /\ Ep.idx ep ∈ Ent.episodes r.
Proof.
  intros Hload Hsel Hne ep Hep. cbv zeta.
  destruct (loadData_crossRef raw data Hload) as [Hg Hc].
  assert (Hat : Data.episodes data !! Ep.idx ep = Some ep).
  { injection Hload as <-. simpl in *. apply computed_at_idx. exact Hep. }
  unfold episodeHasEntity, includesName. rewrite Hsel.
  replace (negb (Js.truthy (Some selected))) with false.
  2: { symmetry. apply negb_false_iff. simpl. apply negb_true_iff.
       apply String.eqb_neq. exact Hne. }
  destruct (App.entityType_ s); rewrite bool_decide_eq_true.
  - rewrite (crossRef_member Ep.guests _ _ selected (Ep.idx ep) Hg).
    split; [intros Hin; eauto|]. intros [ep' [Hep' Hin]]. congruence.
  - rewrite (crossRef_member Ep.characters _ _ selected (Ep.idx ep) Hc).
    split; [intros Hin; eauto|]. intros [ep' [Hep' Hin]]. congruence.
Qed.

Lemma loadData_allPlayed (raw : Raw.data) (data : Data.t) :
  loadData (Some raw) = Some data ->
  allPlayed (Data.episodes data) (Data.characterMap data).
Proof.
  intros [= <-] k r Hk. simpl in *.
  unfold attachImages in Hk. rewrite JsMapFacts.get_forEachValue in Hk.
  destruct (JsMap.get (snd (buildMaps (computedEpisodes raw))) k) as [r0|] eqn:Hr0;
    [|discriminate].
  injection Hk as <-.
  exact (buildMaps_allPlayed (computedEpisodes raw) k r0 Hr0).
Qed.

Lemma byCount_sorted (l : list Related.t) :
  StronglySorted (fun a b => (Related.count b <= Related.count a)%nat)
                 (JsArray.sort byCount l).
Proof.
  apply JsArrayFacts.sort_StronglySorted; unfold byCount; intros; lia.
Qed.

(** X23: for a character of the data, the related entities are the guests
    it was seen with, each once, each with the number of that guest's
    appearances, which is at least 1 (the guest is in the guest map, so the
    fallback count of 0 never shows), in descending order of that
    number. *)
Theorem related_guests_of_character (raw : Raw.data) (data : Data.t)
    (guestCharacters : gmap string (list string)) (r : Ent.t) :
  loadData (Some raw) = Some data ->
  r ∈ JsMap.values (Data.characterMap data) ->
  let related := relatedEntities character guestCharacters (Data.guestMap data)
                   (Data.characterMap data) (Ent.name r) r in
  Permutation (map Related.name related) (default [] (Ent.guests r))
  /\ NoDup (map Related.name related)
  /\ (forall x, x ∈ related ->
        Related.type x = guest
        /\ (1 <= Related.count x)%nat
        /\ exists gData, JsMap.get (Data.guestMap data) (Related.name x)
                         = Some gData
                         /\ Related.count x = length (Ent.episodes gData))
  /\ StronglySorted (fun a b => (Related.count b <= Related.count a)%nat)
                    related.
Proof.
  intros Hload Hr. cbv zeta.
  destruct (loadData_crossRef raw data Hload) as [Hg _].
  apply JsMapFacts.elem_of_values in Hr as [k Hk].
  destruct (loadData_allPlayed raw data Hload k r Hk)
    as [playedBy [Hgs [Hnd Hplayed]]].
  unfold relatedEntities. rewrite Hgs. simpl.
  set (item := fun g => _).
  assert (Hperm : Permutation (JsArray.sort byCount (map item playedBy))
                              (map item playedBy))
    by apply JsArrayFacts.sort_perm.
  assert (Hnames : map Related.name (map item playedBy) = playedBy).
  { rewrite map_map. simpl. apply map_id. }
  split; [rewrite Hperm, Hnames; reflexivity|].
  split; [rewrite Hperm, Hnames; exact Hnd|].
  split; [|apply byCount_sorted].
  intros x Hx. rewrite Hperm in Hx.
  apply list_elem_of_fmap in Hx as [g [-> Hin]]. simpl.
  split; [reflexivity|].
  apply Hplayed in Hin as [j [ep [_ [Hep Hgin]]]].
  assert (Hhas : JsMap.has (Data.guestMap data) g = true)
    by (apply (crossRef_has Ep.guests _ _ g Hg); eauto).
  apply JsMapFacts.has_true in Hhas as [gData HgData]. rewrite HgData.
  destruct (crossRef_get _ _ _ _ _ Hg HgData) as [_ [He [Hnil _]]].
  split; [|eauto].
  rewrite He. destruct (appearances Ep.guests g (Data.episodes data));
    [congruence | simpl; lia].
Qed.

Lemma positive_succ (n : nat) :
  Some (default 0%nat (positive n) + 1)%nat = positive (n + 1).
Proof. destruct n; simpl; [reflexivity|]. f_equal. Qed.

Lemma yearCounts_invariant (episodes : list Ep.t) (indices : list nat) :
  Forall (fun idx => is_Some (episodes !! idx)) indices ->
  exists yearCounts,
    foldl (countYear episodes) (Some JsMap.empty) indices = Some yearCounts
    /\ forall year,
         JsMap.get yearCounts year
         = positive (length (indicesInYear episodes year indices)).
Proof.
  intros Hvalid.
  apply (JsArrayFacts.foldl_invariant (countYear episodes)
           (fun seen acc =>
              exists yearCounts, acc = Some yearCounts
                /\ forall year,
                     JsMap.get yearCounts year
                     = positive (length (indicesInYear episodes year seen)))).
  - exists JsMap.empty. split; [reflexivity|]. intros year.
    rewrite JsMapFacts.get_empty. reflexivity.
  - intros seen idx rest acc Hl [m [-> Hm]].
    rewrite Forall_forall in Hvalid.
    destruct (Hvalid idx) as [ep Hep].
    { rewrite Hl. apply elem_of_app. right. left. }
    unfold countYear. rewrite Hep. eexists. split; [reflexivity|].
    intros year. rewrite JsMapFacts.get_set.
    unfold indicesInYear. rewrite List.filter_app, length_app. simpl.
    rewrite Hep. destruct (decide (Ep.year ep = year)) as [->|Hne].
    + rewrite Z.eqb_refl, Hm. simpl. apply positive_succ.
    + replace (Ep.year ep =? year) with false
        by (symmetry; apply Z.eqb_neq; exact Hne).
      simpl. rewrite Nat.add_0_r. apply Hm.
Qed.

(** X24: counting the appearances per year never reads a missing episode
    for an entity of the data, and gives every year the number of the
    entity's episodes of that year: an entry with that number when it is
    positive, no entry otherwise. *)
Theorem yearCounts_exact (raw : Raw.data) (data : Data.t) (r : Ent.t) :
  loadData (Some raw) = Some data ->
  r ∈ JsMap.values (Data.guestMap data)
  \/ r ∈ JsMap.values (Data.characterMap data) ->
  exists yearCounts,
    yearCountsOf (Data.episodes data) r = Some yearCounts
    /\ forall year,
         JsMap.get yearCounts year
         = positive (length (indicesInYear (Data.episodes data) year
                               (Ent.episodes r))).
Proof.
  intros Hload Hr. destruct (loadData_crossRef raw data Hload) as [Hg Hc].
  apply yearCounts_invariant, Forall_forall. intros idx Hidx.
  destruct Hr as [Hr | Hr]; apply JsMapFacts.elem_of_values in Hr as [k Hk].
  - destruct (proj1 (crossRef_member Ep.guests _ _ k idx Hg)) as [ep [Hep _]];
      eauto.
  - destruct (proj1 (crossRef_member Ep.characters _ _ k idx Hc)) as [ep [Hep _]];
      eauto.
Qed.

End Detail.

Lemma highlight_matches_index_witness :
  exists data, @loadData Demo.host (Some Demo.corpusMixed) = Some data
    /\ forall ep : Ep.t, ep ∈ Data.episodes data ->
         episodeHasEntity (App.setSelectedEntity (Some "B"%string) App.initial) ep
         = true
         <-> exists r, JsMap.get (Data.guestMap data) "B"%string = Some r
                       /\ Ep.idx ep ∈ Ent.episodes r.
Proof.
  eexists. split; [reflexivity|].
  apply (@highlight_matches_index Demo.host Demo.corpusMixed _
           (App.setSelectedEntity (Some "B"%string) App.initial) "B"%string);
    [reflexivity | reflexivity | discriminate].
Defined.

Lemma related_guests_of_character_witness :
  exists data r, @loadData Demo.host (Some Demo.corpusMixed) = Some data
    /\ JsMap.get (Data.characterMap data) "x"%string = Some r
    /\ map Related.name
         (relatedEntities character ∅ (Data.guestMap data)
            (Data.characterMap data) (Ent.name r) r)
       ≡ₚ default [] (Ent.guests r).
Proof.
  eexists. eexists. split; [reflexivity|]. split; [vm_compute; reflexivity|].
  apply (@related_guests_of_character Demo.host Demo.corpusMixed _ ∅);
    [reflexivity|].
  vm_compute. right. left.
Defined.

Lemma yearCounts_exact_witness :
  exists data r, @loadData Demo.host (Some Demo.corpusMixed) = Some data
    /\ JsMap.get (Data.guestMap data) "B"%string = Some r
    /\ exists yearCounts,
         yearCountsOf (Data.episodes data) r = Some yearCounts
         /\ forall year,
              JsMap.get yearCounts year
              = positive (length (indicesInYear (Data.episodes data) year
                                    (Ent.episodes r))).
Proof.
  eexists. eexists. split; [reflexivity|]. split; [vm_compute; reflexivity|].
  apply (@yearCounts_exact Demo.host Demo.corpusMixed); [reflexivity|].
  left. vm_compute. right. left.
Defined.

(** Guest B of the mixed corpus: two appearances, both in 1970; and the
    guests related to the character "x", B before A. *)
Example detail_corpusMixed :
  (fun data =>
     ((fun r => (fun m => JsMap.get m 1970) <$> yearCountsOf (Data.episodes data) r)
        <$> JsMap.get (Data.guestMap data) "B"%string,
      (fun r => map (fun x => (Related.name x, Related.count x))
                    (relatedEntities character ∅ (Data.guestMap data)
                       (Data.characterMap data) "x"%string r))
        <$> JsMap.get (Data.characterMap data) "x"%string))
    <$> @loadData Demo.host (Some Demo.corpusMixed)
  = Some (Some (Some (Some 2%nat)), Some [("B", 2%nat); ("A", 1%nat)]%string).
Proof. vm_compute. reflexivity. Qed.

(* ====================================================================== *)
(** * Properties: images                                                  *)
(* ====================================================================== *)

Section Images.
Context `{Host}.



End Images.

(* ====================================================================== *)
(** * Properties: the years of the timeline                               *)
(* ====================================================================== *)

Section Years.
Context `{Host}.










End Years.


(** A year of five digits sorts in front of the years of four: the order
    is the one of the strings. *)
Example years_five_digits :
  (fun data => (JsMap.order (Data.episodesByYear data),
                years (Data.episodesByYear data)))
    <$> @loadData Demo.host (Some corpusYears)
  = Some ([1971; 9999; 10000], [10000; 1971; 9999]).
Proof. vm_compute. reflexivity. Qed.

Example Number_toString_examples :
  map Number_toString [0; 7; 1971; 10000; -5] = ["0"; "7"; "1971"; "10000"; "-5"]%string.
Proof. vm_compute. reflexivity. Qed.

Example years_corpusDecade :
  (fun data => years (Data.episodesByYear data))
    <$> @loadData Demo.host (Some corpusDecade)
  = Some [1971; 1973].
Proof. vm_compute. reflexivity. Qed.

(* ====================================================================== *)
(** * Properties: the rows together                                       *)
(* ====================================================================== *)

Section Rows.
Context `{Host}.

Lemma omap_ext_in {A B : Type} (f g : A -> option B) (l : list A) :
  (forall a, a ∈ l -> f a = g a) -> omap f l = omap g l.
Proof.
  induction l as [|a l IH]; intros Hfg; [reflexivity|].
  cbn [omap list_omap]. rewrite (Hfg a) by left.
  rewrite IH by (intros a' Ha'; apply Hfg; right; exact Ha'). reflexivity.
Qed.

Lemma values_set_new {V : Type} (m : JsMap.t Z V) (k : Z) (v : V) :
  mapWf m -> JsMap.has m k = false ->
  JsMap.values (JsMap.set m k v) = JsMap.values m ++ [v].
Proof.
  intros [_ Hdom] Hhas. unfold JsMap.values, JsMap.set. simpl. rewrite Hhas.
  rewrite omap_app. simpl. rewrite lookup_insert_eq. f_equal.
  apply omap_ext_in. intros k' Hk'.
  rewrite lookup_insert_ne; [reflexivity|].
  intros <-. apply Hdom in Hk'. apply JsMapFacts.has_true in Hk'. congruence.
Qed.

Lemma concat_values_modify {A : Type} (m : JsMap.t Z (list A)) (k : Z) (x : A) :
  mapWf m -> JsMap.has m k = true ->
  concat (JsMap.values (JsMap.modify m k (fun l => l ++ [x])))
  ≡ₚ concat (JsMap.values m) ++ [x].
Proof.
  intros [Hnd Hdom] Hhas. apply JsMapFacts.has_true in Hhas.
  apply Hdom in Hhas. unfold JsMap.values, JsMap.modify. simpl.
  assert (Hall : forall k', k' ∈ JsMap.order m -> is_Some (JsMap.store m !! k'))
    by (intros k'; apply Hdom).
  clear Hdom. induction (JsMap.order m) as [|k' ks IH]; [inversion Hhas|].
  apply NoDup_cons in Hnd as [Hk' Hnd].
  destruct (Hall k') as [l Hl]; [left|].
  cbn [omap list_omap].
  destruct (decide (k = k')) as [<-|Hne].
  - rewrite lookup_alter_eq, Hl. simpl.
    assert (Hrest : omap (fun k' => alter (fun l => l ++ [x]) k (JsMap.store m) !! k') ks
                    = omap (fun k' => JsMap.store m !! k') ks).
    { apply omap_ext_in. intros k2 Hk2.
      rewrite lookup_alter_ne; [reflexivity|]. intros <-. contradiction. }
    rewrite Hrest, <- !app_assoc. apply Permutation_app_head.
    apply Permutation_app_comm.
  - rewrite lookup_alter_ne by exact Hne. rewrite Hl. simpl.
    rewrite <- app_assoc. apply Permutation_app_head. apply IH.
    + exact Hnd.
    + apply elem_of_cons in Hhas as [Heq | Hin]; [congruence | exact Hin].
    + intros k2 Hk2. apply Hall. right. exact Hk2.
Qed.

Lemma addToYear_concat (m : JsMap.t Z (list Ep.t)) (ep : Ep.t) (i : nat) :
  mapWf m ->
  concat (JsMap.values (addToYear m ep i)) ≡ₚ concat (JsMap.values m) ++ [ep].
Proof.
  intros Hwf. unfold addToYear.
  destruct (JsMap.has m (Ep.year ep)) eqn:Hhas; simpl.
  - apply concat_values_modify; assumption.
  - rewrite concat_values_modify.
    + rewrite values_set_new by assumption.
      rewrite concat_app. simpl. rewrite !app_nil_r. reflexivity.
    + apply JsMapWf.mapWf_set. exact Hwf.
    + apply JsMapFacts.has_true. rewrite JsMapFacts.get_set.
      rewrite decide_True by reflexivity. eauto.
Qed.

Lemma groupByYear_concat (eps : list Ep.t) :
  concat (JsMap.values (groupByYear eps)) ≡ₚ eps.
Proof.
  assert (Hinv : concat (JsMap.values (groupByYear eps)) ≡ₚ take (length eps) eps
                 /\ mapWf (groupByYear eps)).
  { unfold groupByYear.
    apply (JsArrayFacts.forEach_invariant addToYear
             (fun i m => concat (JsMap.values m) ≡ₚ take i eps /\ mapWf m)).
    - split; [reflexivity | apply JsMapWf.mapWf_empty].
    - intros i ep m Hep [Hm Hwf]. split.
      + rewrite (take_S_r _ _ _ Hep), addToYear_concat, Hm by exact Hwf.
        reflexivity.
      + apply JsMapWf.mapWf_upsert. exact Hwf. }
  destruct Hinv as [Hperm _]. rewrite firstn_all in Hperm. exact Hperm.
Qed.

Lemma values_default {V : Type} (m : JsMap.t Z (list V)) :
  mapWf m ->
  List.map (fun k => default [] (JsMap.get m k)) (JsMap.order m) = JsMap.values m.
Proof.
  intros [_ Hdom]. unfold JsMap.values.
  assert (Hall : forall k, k ∈ JsMap.order m -> is_Some (JsMap.get m k))
    by (intros k; apply Hdom).
  clear Hdom. induction (JsMap.order m) as [|k ks IH]; [reflexivity|].
  cbn [List.map omap list_omap].
  destruct (Hall k) as [v Hv]; [left|]. unfold JsMap.get in Hv. rewrite Hv.
  unfold JsMap.get at 1. rewrite Hv. simpl. f_equal.
  apply IH. intros k' Hk'. apply Hall. right. exact Hk'.
Qed.

Lemma timelineRows_values (eps : list Ep.t) :
  timelineRows (groupByYear eps) ≡ₚ JsMap.values (groupByYear eps).
Proof.
  destruct (groupByYear_bucketsOf eps) as [_ Hwf].
  rewrite <- (values_default _ Hwf). unfold timelineRows, years.
  apply Permutation_map, JsArrayFacts.sort_perm.
Qed.

Lemma concat_perm {A : Type} (l l' : list (list A)) :
  l ≡ₚ l' -> concat l ≡ₚ concat l'.
Proof.
  induction 1 as [|a l l' _ IH|a b l|l1 l2 l3 _ IH1 _ IH2]; simpl.
  - reflexivity.
  - rewrite IH. reflexivity.
  - rewrite !app_assoc. apply Permutation_app_tail, Permutation_app_comm.
  - etransitivity; eassumption.
Qed.

Lemma filter_concat_length {A : Type} (p : A -> bool) (rows : list (list A)) :
  length (List.filter p (concat rows))
  = sum_list_with (fun row => length (List.filter p row)) rows.
Proof.
  induction rows as [|row rows IH]; [reflexivity|].
  simpl. rewrite List.filter_app, length_app, IH. reflexivity.
Qed.

Lemma filter_filter_length {A : Type} (p q : A -> bool) (l : list A) :
  length (List.filter p (List.filter q l))
  = length (List.filter (fun a => p a && q a) l).
Proof.
  induction l as [|a l IH]; [reflexivity|]. simpl.
  destruct (q a) eqn:Hq, (p a) eqn:Hp; simpl; rewrite ?Hp; simpl;
    rewrite ?IH; reflexivity.
Qed.

Lemma Permutation_filter_length {A : Type} (p : A -> bool) (l l' : list A) :
  l ≡ₚ l' -> length (List.filter p l) = length (List.filter p l').
Proof.
  induction 1 as [|a l l' _ IH|a b l|l1 l2 l3 _ IH1 _ IH2]; simpl.
  - reflexivity.
  - destruct (p a); simpl; congruence.
  - destruct (p a), (p b); reflexivity.
  - congruence.
Qed.

(** X26: the rows of the timeline together hold every episode of the
    data exactly once, whatever the order of the years, so the counts at
    the ends of the rows add up: over all rows, the highlighted cells
    number as many as the episodes that have the selected entity and are
    shown (all when live episodes are included, the ones that are not live
    otherwise). *)
Theorem timeline_rows_cover (raw : Raw.data) (s : App.t) (includeLiveEps : bool) :
  exists data, loadData (Some raw) = Some data /\
    concat (timelineRows (Data.episodesByYear data)) ≡ₚ Data.episodes data
    /\ sum_list_with
         (fun yearEps => highlightedCount s (filteredYearEps includeLiveEps yearEps))
         (timelineRows (Data.episodesByYear data))
       = length (List.filter
                   (fun ep => episodeHasEntity s ep
                              && (includeLiveEps || notLive ep))
                   (Data.episodes data)).
Proof.
  destruct (loadData_episodes_eq raw) as [data [Hload _]].
  exists data. split; [exact Hload|].
  injection Hload as <-. simpl. generalize (computedEpisodes raw). intros eps.
  assert (Hperm : concat (timelineRows (groupByYear eps)) ≡ₚ eps).
  { rewrite (concat_perm _ _ (timelineRows_values eps)).
    apply groupByYear_concat. }
  split; [exact Hperm|].
  rewrite <- (Permutation_filter_length _ _ _ Hperm), filter_concat_length.
  clear Hperm.
  induction (timelineRows (groupByYear eps)) as [|row rows IH]; [reflexivity|].
  cbn [sum_list_with]. rewrite IH. f_equal.
  unfold highlightedCount, filteredYearEps. destruct includeLiveEps.
  - f_equal. apply List.filter_ext. intros ep. rewrite andb_true_r. reflexivity.
  - rewrite filter_filter_length. reflexivity.
Qed.

End Rows.

(** With a year of five digits the rows do not come in the order of time. *)
Example timelineRows_corpusYears :
  (fun data => map (map (fun ep => Ep.idx ep))
                   (timelineRows (Data.episodesByYear data)))
    <$> @loadData Demo.host (Some corpusYears)
  = Some [[2]; [0]; [1]]%nat.
Proof. vm_compute. reflexivity. Qed.
